(** * RKSOK phonebook server: a shallow embedding of [rksok_server.py]

    Definitions:
    - [Py]: the fragment of Python's [str] and [bytes] library the server
      uses (UTF-8 codec, [startswith], [endswith], [strip], [split],
      [count], [join], text-mode line reading);
    - [Regex]: a backtracking matcher for the one pattern of the server;
    - [Os]: the file-system calls the record store makes, on path names
      as Python and Linux take them;
    - [RKSOK]: [custom_enums.py] and the class [RKSOKServer], method by
      method, in a state and exception monad, each method run in one
      piece, and the vocabulary of the properties;
    - [Async]: the same methods cut at their awaits, and the event loop
      that runs the handlers of several connections on the one server
      object;
    - [Scenario]: concrete disks, requests and replies;
    - [More]: the vocabulary of the further properties.

    Facts about each of these follow, and then the properties of the
    server, C1 to C10; after them, further facts and the further
    properties X1 to X22. *)

From Stdlib Require Import NArith Lia List Bool String Ascii.
From stdpp Require Import base option list gmap.

Local Open Scope N_scope.

(** ** Python values *)

(** A Python [str] is a sequence of code points, a [bytes] object a
    sequence of octets. *)
Abbreviation char := N (only parsing).
Abbreviation str := (list N) (only parsing).
Abbreviation bytes := (list N) (only parsing).

Module Py.

(** *** The UTF-8 codec ([bytes.decode('UTF-8')], [str.encode('UTF-8')]) *)

Definition is_cont (b : N) : bool := (0x80 <=? b) && (b <=? 0xBF).

Definition in_range (lo hi b : N) : bool := (lo <=? b) && (b <=? hi).

(** Bounds of the second octet of a three-octet sequence: no overlong
    forms after [E0], no surrogates after [ED]. *)
Definition lo3 (b0 : N) : N := if b0 =? 0xE0 then 0xA0 else 0x80.
Definition hi3 (b0 : N) : N := if b0 =? 0xED then 0x9F else 0xBF.

(** Bounds of the second octet of a four-octet sequence: no overlong
    forms after [F0], nothing above U+10FFFF after [F4]. *)
Definition lo4 (b0 : N) : N := if b0 =? 0xF0 then 0x90 else 0x80.
Definition hi4 (b0 : N) : N := if b0 =? 0xF4 then 0x8F else 0xBF.

(** Strict decoding: [None] stands for [UnicodeDecodeError]. *)
Fixpoint utf8_decode (bs : bytes) : option str :=
  match bs with
  | [] => Some []
  | b0 :: r0 =>
    if b0 <? 0x80 then cons b0 <$> utf8_decode r0
    else if b0 <? 0xC2 then None
    else if b0 <? 0xE0 then
      match r0 with
      | b1 :: r1 =>
        if is_cont b1
        then cons ((b0 - 0xC0) * 64 + (b1 - 0x80)) <$> utf8_decode r1
        else None
      | _ => None
      end
    else if b0 <? 0xF0 then
      match r0 with
      | b1 :: b2 :: r2 =>
        if in_range (lo3 b0) (hi3 b0) b1 && is_cont b2
        then cons ((b0 - 0xE0) * 4096 + (b1 - 0x80) * 64 + (b2 - 0x80))
               <$> utf8_decode r2
        else None
      | _ => None
      end
    else if b0 <? 0xF5 then
      match r0 with
      | b1 :: b2 :: b3 :: r3 =>
        if in_range (lo4 b0) (hi4 b0) b1 && is_cont b2 && is_cont b3
        then cons ((b0 - 0xF0) * 262144 + (b1 - 0x80) * 4096
                   + (b2 - 0x80) * 64 + (b3 - 0x80))
               <$> utf8_decode r3
        else None
      | _ => None
      end
    else None
  end.

(** Encoding of one code point; [None] stands for [UnicodeEncodeError]
    (a lone surrogate). *)
Definition utf8_encode_char (c : N) : option bytes :=
  if c <? 0x80 then Some [c]
  else if c <? 0x800 then Some [0xC0 + c / 64; 0x80 + c mod 64]
  else if c <? 0x10000 then
    if in_range 0xD800 0xDFFF c then None
    else Some [0xE0 + c / 4096; 0x80 + (c / 64) mod 64; 0x80 + c mod 64]
  else if c <? 0x110000 then
    Some [0xF0 + c / 262144; 0x80 + (c / 4096) mod 64;
          0x80 + (c / 64) mod 64; 0x80 + c mod 64]
  else None.

Fixpoint utf8_encode (s : str) : option bytes :=
  match s with
  | [] => Some []
  | c :: s' =>
    match utf8_encode_char c, utf8_encode s' with
    | Some b, Some r => Some (b ++ r)
    | _, _ => None
    end
  end.

(** A source-code string literal, read as the Python source file is:
    UTF-8. *)
Definition lit (s : string) : str :=
  default [] (utf8_decode (map Byte.to_N (list_byte_of_string s))).

(** *** [str] methods *)

(** [s.startswith(pre)] *)
Fixpoint startswith (s pre : str) {struct pre} : bool :=
  match pre with
  | [] => true
  | p :: pre' =>
    match s with
    | [] => false
    | c :: s' => (c =? p) && startswith s' pre'
    end
  end.

(** [s.endswith(suf)] *)
Definition endswith (s suf : str) : bool := startswith (rev s) (rev suf).

(** [c.isspace()], also the class [\s] of [re] on [str] patterns. *)
Definition isspace (c : N) : bool :=
  in_range 0x09 0x0D c || in_range 0x1C 0x20 c || (c =? 0x85) || (c =? 0xA0)
  || (c =? 0x1680) || in_range 0x2000 0x200A c || (c =? 0x2028)
  || (c =? 0x2029) || (c =? 0x202F) || (c =? 0x205F) || (c =? 0x3000).

Fixpoint lstrip (s : str) : str :=
  match s with
  | [] => []
  | c :: s' => if isspace c then lstrip s' else s
  end.

Definition rstrip (s : str) : str := rev (lstrip (rev s)).

(** [s.strip()] *)
Definition strip (s : str) : str := rstrip (lstrip s).

(** The truth value of a string: [if s]. *)
Definition nonempty (s : str) : bool :=
  match s with
  | [] => false
  | _ => true
  end.

(** [sep.join(l)] *)
Fixpoint join (sep : str) (l : list str) : str :=
  match l with
  | [] => []
  | [x] => x
  | x :: l' => x ++ sep ++ join sep l'
  end.

(** [s.split(sep)] for a non-empty [sep]: the occurrences of [sep] are
    taken from the left and do not overlap.  [skip] counts the characters
    of a separator just matched that are still to be passed over. *)
Fixpoint split_go (sep : str) (skip : nat) (s : str) : list str :=
  match s with
  | [] => [[]]
  | c :: s' =>
    match skip with
    | S k => split_go sep k s'
    | O =>
      if startswith s sep then [] :: split_go sep (pred (length sep)) s'
      else
        match split_go sep O s' with
        | l :: ls => (c :: l) :: ls
        | [] => [[c]]
        end
    end
  end.

Definition split (sep s : str) : list str := split_go sep O s.

(** [s.count(sub)] for a non-empty [sub]: non-overlapping occurrences,
    from the left. *)
Fixpoint count_go (sub : str) (skip : nat) (s : str) : nat :=
  match s with
  | [] => O
  | c :: s' =>
    match skip with
    | S k => count_go sub k s'
    | O =>
      if startswith s sub then S (count_go sub (pred (length sub)) s')
      else count_go sub O s'
    end
  end.

Definition count (s sub : str) : nat := count_go sub O s.

(** [el in s] for a one-character string [el]. *)
Definition contains (s : str) (el : N) : bool := existsb (N.eqb el) s.

(** [s[1:-1]] *)
Definition slice_1_m1 (s : str) : str := removelast (tail s).

(** *** Text-mode reading

    [open(..., mode='r')] has [newline=None]: on input CR LF and a lone CR
    both become LF. *)
Fixpoint universal_newlines (s : str) : str :=
  match s with
  | [] => []
  | c :: s' =>
    if c =? 13 then
      10 :: match s' with
            | d :: s'' =>
              if d =? 10 then universal_newlines s'' else universal_newlines s'
            | [] => []
            end
    else c :: universal_newlines s'
  end.

(** The lines of a text, each with its line feed (the last one may lack it). *)
Fixpoint keepends (s : str) : list str :=
  match s with
  | [] => []
  | c :: s' =>
    if c =? 10 then [c] :: keepends s'
    else
      match keepends s' with
      | l :: ls => (c :: l) :: ls
      | [] => [[c]]
      end
  end.

(** [f.readlines()] on the decoded content of a file. *)
Definition readlines (content : str) : list str :=
  keepends (universal_newlines content).

End Py.

Import Py.

Definition PROTOCOL : str := Eval vm_compute in lit "РКСОК/1.0".
Definition CRLF : str := [13; 10].
Definition CRLFCRLF : str := [13; 10; 13; 10].


(** ** The regular expression of [_check_request_body]

    [re] matches by backtracking.  A matcher receives the rest of the
    subject and answers with what is left after the whole match; the
    combinators below take the matcher of what follows them in the pattern
    as continuation, so that a failure further right makes them back off. *)

Module Regex.

Definition matcher := str -> option str.

(** [X+] for a character class [X], greedy: one more character is tried
    before the continuation. *)
Fixpoint plus_class (p : N -> bool) (k : matcher) (s : str) : option str :=
  match s with
  | [] => None
  | c :: s' =>
    if p c then
      match plus_class p k s' with
      | Some r => Some r
      | None => k s'
      end
    else None
  end.

(** [(R)+] for a group [R], greedy: after each pass through the group one
    more pass is tried before the continuation.  A pass consumes at least
    one character, so [fuel] may be any bound on the length of the
    subject. *)
Fixpoint plus_group (fuel : nat) (body : matcher -> matcher) (k : matcher)
    (s : str) : option str :=
  match fuel with
  | O => None
  | S f =>
    body (fun s' => match plus_group f body k s' with
                    | Some r => Some r
                    | None => k s'
                    end) s
  end.

(** [(?=literal)] at the end of the pattern. *)
Definition lookahead (l : str) : matcher :=
  fun s => if startswith s l then Some s else None.

(** [re.search]: the match that starts leftmost.  The result is the
    subject from the start of the match on, and from its end on. *)
Fixpoint search (m : matcher) (s : str) : option (str * str) :=
  match m s with
  | Some r => Some (s, r)
  | None =>
    match s with
    | [] => None
    | _ :: s' => search m s'
    end
  end.

(** [match.group()] *)
Definition group (m : str * str) : str :=
  take (length (fst m) - length (snd m)) (fst m).

Definition nonspace (c : N) : bool := negb (isspace c).

(** One pass through the group [([^\s]+\s+)]. *)
Definition token (k : matcher) : matcher :=
  plus_class nonspace (plus_class isspace k).

(** [([^\s]+\s+)+(?=РКСОК/1\.0)] *)
Definition tokens (fuel : nat) : matcher :=
  plus_group fuel token (lookahead PROTOCOL).

(** [\s+(([^\s]+\s+)+)(?=РКСОК/1\.0)] *)
Definition pattern (fuel : nat) : matcher :=
  plus_class isspace (tokens fuel).

(** [re.search(pattern, s)] *)
Definition re_search (s : str) : option (str * str) :=
  search (pattern (length s)) s.

(** [t] is a sequence of tokens, each followed by white space. *)
Inductive token_run : list N -> Prop :=
| token_run_one (tok ws : list N) :
    tok <> [] -> forallb nonspace tok = true ->
    ws <> [] -> forallb isspace ws = true ->
    token_run (tok ++ ws)
| token_run_more (tok ws t : list N) :
    tok <> [] -> forallb nonspace tok = true ->
    ws <> [] -> forallb isspace ws = true ->
    token_run t ->
    token_run (tok ++ ws ++ t).

End Regex.

(** ** The file system under the record store

    Directories and regular files of a POSIX file system as Linux keeps
    it, under absolute, normalised paths of byte-string components; the
    empty path is the file-system root.  A path name is a [str]; Python
    turns it into bytes with the file-system encoding before the system
    sees it.  Symbolic links, permissions and a full disk are not
    modelled, and a relative path name is resolved from the root: the
    server only uses the resolved, absolute [path_to_phonebook]. *)

Module Os.

Fixpoint dropwhile (p : N -> bool) (s : str) : str :=
  match s with
  | [] => []
  | c :: s' => if p c then dropwhile p s' else s
  end.

Inductive node :=
| Dir
| File (content : bytes).

Abbreviation path := (list (list N)) (only parsing).
Abbreviation filesystem := (gmap (list (list N)) node) (only parsing).

(** The exceptions of the calls.  [ValueError] stands for the class: the
    [ValueError] of a path name with a NUL in it and its subclass
    [UnicodeEncodeError], raised for a path name the file-system encoding
    refuses.  [ENAMETOOLONG] is the plain [OSError] with that [errno]. *)
Inductive error :=
| FileNotFoundError
| NotADirectoryError
| IsADirectoryError
| FileExistsError
| ValueError
| ENAMETOOLONG.

(** [os.fsencode]: UTF-8 with the [surrogateescape] error handler.  The
    code points U+DC80 to U+DCFF stand for the bytes 0x80 to 0xFF; every
    other surrogate is refused. *)
Definition fsencode_char (c : N) : option bytes :=
  if in_range 0xDC80 0xDCFF c then Some [c - 0xDC00]
  else utf8_encode_char c.

Fixpoint fsencode (s : str) : option bytes :=
  match s with
  | [] => Some []
  | c :: s' =>
    match fsencode_char c, fsencode s' with
    | Some b, Some r => Some (b ++ r)
    | _, _ => None
    end
  end.

(** The limits of Linux, in bytes: [NAME_MAX] for one component,
    [PATH_MAX] for a path name with its terminating NUL. *)
Definition NAME_MAX : nat := 255.
Definition PATH_MAX : nat := 4096.

(** What a call makes of its path-name argument before any lookup: Python
    encodes it and refuses an embedded NUL, the system refuses a path
    name of [PATH_MAX] bytes or more. *)
Definition pathname (p : str) : error + bytes :=
  match fsencode p with
  | None => inl ValueError
  | Some b =>
    if contains b 0 then inl ValueError
    else if Nat.leb PATH_MAX (length b) then inl ENAMETOOLONG
    else inr b
  end.

Definition entry (fs : filesystem) (p : path) : option node :=
  match p with
  | [] => Some Dir
  | _ => fs !! p
  end.

Definition dot : str := [46].
Definition dotdot : str := [46; 46].
Definition slash : str := [47].

Definition str_eqb (a b : str) : bool := bool_decide (a = b).

(** One component of a path name, applied to the directory reached. *)
Definition step (cur : path) (c : bytes) : path :=
  if str_eqb c [] || str_eqb c dot then cur
  else if str_eqb c dotdot then removelast cur
  else cur ++ [c].

(** Path resolution: every component is looked up in a directory, and a
    directory refuses a component longer than [NAME_MAX]. *)
Fixpoint walk (fs : filesystem) (cur : path) (cs : list bytes) : error + path :=
  match cs with
  | [] => inr cur
  | c :: cs' =>
    match entry fs cur with
    | Some Dir =>
      if Nat.ltb NAME_MAX (length c) then inl ENAMETOOLONG
      else walk fs (step cur c) cs'
    | Some (File _) => inl NotADirectoryError
    | None => inl FileNotFoundError
    end
  end.

(** The components of a path name.  The empty name leads nowhere. *)
Definition components (p : str) : error + list bytes :=
  match pathname p with
  | inl e => inl e
  | inr b =>
    match b with
    | [] => inl FileNotFoundError
    | _ => inr (split slash b)
    end
  end.

(** The place a path name leads to. *)
Definition locate (fs : filesystem) (p : str) : error + path :=
  match components p with
  | inl e => inl e
  | inr cs => walk fs [] cs
  end.

(** [os.stat] *)
Definition stat (fs : filesystem) (p : str) : error + node :=
  match locate fs p with
  | inl e => inl e
  | inr q =>
    match entry fs q with
    | Some n => inr n
    | None => inl FileNotFoundError
    end
  end.

(** [p] without its trailing slashes; a name of slashes only is the
    root. *)
Definition drop_slashes (p : str) : str :=
  match rev (dropwhile (N.eqb 47) (rev p)) with
  | [] => match p with [] => [] | _ => slash end
  | d => d
  end.

(** [os.mkdir]; trailing slashes after the name of the new directory are
    passed over. *)
Definition mkdir (fs : filesystem) (p : str) : error + filesystem :=
  match pathname p with
  | inl e => inl e
  | inr _ =>
    match locate fs (drop_slashes p) with
    | inl e => inl e
    | inr q =>
      match entry fs q with
      | Some _ => inl FileExistsError
      | None => inr (<[q := Dir]> fs)
      end
    end
  end.

(** [open(p, mode='w')]: the file is created or truncated; the result is
    the place of the open file.  A name with a trailing slash can only be
    a directory: once the directory of its last component is found, the
    call fails without looking that component up. *)
Definition open_w (fs : filesystem) (p : str) : error + (path * filesystem) :=
  match pathname p with
  | inl e => inl e
  | inr _ =>
    if endswith p slash then
      match components (drop_slashes p) with
      | inl e => inl e
      | inr cs =>
        match walk fs [] (removelast cs ++ [[]]) with
        | inl e => inl e
        | inr _ => inl IsADirectoryError
        end
      end
    else
      match locate fs p with
      | inl e => inl e
      | inr q =>
        match entry fs q with
        | Some Dir => inl IsADirectoryError
        | _ => inr (q, <[q := File []]> fs)
        end
      end
  end.

(** [open(p, mode='r')] and reading the whole file. *)
Definition open_r (fs : filesystem) (p : str) : error + bytes :=
  match locate fs p with
  | inl e => inl e
  | inr q =>
    match entry fs q with
    | Some (File c) => inr c
    | Some Dir => inl IsADirectoryError
    | None => inl FileNotFoundError
    end
  end.

(** [os.remove] *)
Definition remove (fs : filesystem) (p : str) : error + filesystem :=
  match locate fs p with
  | inl e => inl e
  | inr q =>
    match entry fs q with
    | Some (File _) => inr (delete q fs)
    | Some Dir => inl IsADirectoryError
    | None => inl FileNotFoundError
    end
  end.

(** [open(p, mode='r')]: the place of the open file and what it holds
    then. *)
Definition opened_r (fs : filesystem) (p : str) : error + (path * bytes) :=
  match locate fs p with
  | inl e => inl e
  | inr q =>
    match entry fs q with
    | Some (File c) => inr (q, c)
    | Some Dir => inl IsADirectoryError
    | None => inl FileNotFoundError
    end
  end.

(** Reading the whole of the file opened at [q] when it held [c]: what
    the file holds now or, removed meanwhile, what it held. *)
Definition reread (fs : filesystem) (q : path) (c : bytes) : bytes :=
  match entry fs q with
  | Some (File c') => c'
  | _ => c
  end.

(** Closing the file opened for writing at [q]: what was written reaches
    it, unless it was removed meanwhile. *)
Definition flush (fs : filesystem) (q : path) (content : bytes) : filesystem :=
  match entry fs q with
  | Some (File _) => <[q := File content]> fs
  | _ => fs
  end.

(** [fs'] has every directory of [fs]. *)
Definition keeps_dirs (fs fs' : filesystem) : Prop :=
  forall p, entry fs p = Some Dir -> entry fs' p = Some Dir.

End Os.

(** ** The server

    The network is what the server meets on it: a reader delivers chunks
    and then ends, stays silent or breaks; the connection to the
    validation server is made, refused or fails otherwise.  A peer is
    taken to stay connected while it is written to. *)

Module RKSOK.

Import Regex.

(** *** [custom_enums.py] *)

Inductive ValidationWords := IS_ALLOWED | ALLOWED | FORBIDDEN.
Inductive RequestVerbs := GET | DELETE | WRITE.
Inductive ResponseWords := INCORRECT | OK | NOT_FOUND.

Definition validation_value : ValidationWords -> str :=
  Eval vm_compute in fun v =>
  match v with
  | IS_ALLOWED => lit "АМОЖНА?"
  | ALLOWED => lit "МОЖНА"
  | FORBIDDEN => lit "НИЛЬЗЯ"
  end.

Definition verb_value : RequestVerbs -> str :=
  Eval vm_compute in fun v =>
  match v with
  | GET => lit "ОТДОВАЙ"
  | DELETE => lit "УДОЛИ"
  | WRITE => lit "ЗОПИШИ"
  end.

Definition response_value : ResponseWords -> str :=
  Eval vm_compute in fun v =>
  match v with
  | INCORRECT => lit "НИПОНЯЛ"
  | OK => lit "НОРМАЛДЫКС"
  | NOT_FOUND => lit "НИНАШОЛ"
  end.

(** The members of each [Enum], in definition order (the order of
    [for ... in Enum]). *)
Definition all_ValidationWords : list ValidationWords :=
  [IS_ALLOWED; ALLOWED; FORBIDDEN].
Definition all_RequestVerbs : list RequestVerbs := [GET; DELETE; WRITE].

Definition ALLOWED_NAME_LENGTH : nat := 30.

Definition SP : str := [32].

(** *** Exceptions

    The four exceptions [handle_echo] catches, and those that can be raised
    under it and are not caught.  [TimeoutError] is
    [asyncio.exceptions.TimeoutError].  [OSError] stands for the errors
    of the network that no [except] clause of the code names: the
    [ConnectionResetError] of a read on a connection the peer has reset,
    the [socket.gaierror] or other [OSError] of a connection that cannot
    be made. *)
Inductive exn :=
| TimeoutError
| CanNotParseRequestError
| CanNotParseResponseError
| CannotFetchDataFromValidationServer
| ConnectionRefusedError
| OSError
| AssertionError
| IndexError
| UnicodeDecodeError
| UnicodeEncodeError
| StorageError (e : Os.error).

(** *** The world of one connection

    The server object, the disk and the log of the calls made on it, and
    the two writers of the connection.  Every connection has writers of
    its own; the server object and the disk are the same for all. *)

(** What was done to an [asyncio.StreamWriter].  The peer is taken to
    stay connected while it is written to: [write] and [drain] do not
    fail. *)
Inductive wevent :=
| Written (b : bytes)
| Closed.

(** A file-system call of the record store. *)
Inductive fs_call :=
| Stat (p : str)
| Mkdir (p : str)
| OpenW (p : str)
| OpenR (p : str)
| Remove (p : str).

(** The attributes of the [RKSOKServer] instance.  The validator assigns
    [request_type], [name] and [phones] before the record store reads
    them. *)
Record server := Server {
  path_to_phonebook : str;
  name : str;
  request_type : RequestVerbs;
  phones : list str
}.

Record world := World {
  self : server;
  disk : gmap (list (list N)) Os.node;
  calls : list fs_call;
  client_out : list wevent;
  upstream_out : list wevent
}.

Definition set_name (n : str) (w : world) : world :=
  World (Server (path_to_phonebook (self w)) n (request_type (self w))
           (phones (self w)))
        (disk w) (calls w) (client_out w) (upstream_out w).

Definition set_request_type (v : RequestVerbs) (w : world) : world :=
  World (Server (path_to_phonebook (self w)) (name (self w)) v
           (phones (self w)))
        (disk w) (calls w) (client_out w) (upstream_out w).

Definition set_phones (l : list str) (w : world) : world :=
  World (Server (path_to_phonebook (self w)) (name (self w))
           (request_type (self w)) l)
        (disk w) (calls w) (client_out w) (upstream_out w).

Definition set_disk (d : gmap (list (list N)) Os.node) (w : world) : world :=
  World (self w) d (calls w) (client_out w) (upstream_out w).

Definition log_call (c : fs_call) (w : world) : world :=
  World (self w) (disk w) (calls w ++ [c]) (client_out w) (upstream_out w).

Definition to_client (e : wevent) (w : world) : world :=
  World (self w) (disk w) (calls w) (client_out w ++ [e]) (upstream_out w).

Definition to_upstream (e : wevent) (w : world) : world :=
  World (self w) (disk w) (calls w) (client_out w) (upstream_out w ++ [e]).

(** *** State and exceptions *)

Definition M (A : Type) : Type := world -> (exn + A) * world.

Definition ret {A} (a : A) : M A := fun w => (inr a, w).

Definition raise {A} (e : exn) : M A := fun w => (inl e, w).

Definition bind {A B} (m : M A) (k : A -> M B) : M B :=
  fun w =>
    match m w with
    | (inr a, w') => k a w'
    | (inl e, w') => (inl e, w')
    end.

Definition get : M server := fun w => (inr (self w), w).

Definition modify (f : world -> world) : M unit := fun w => (inr tt, f w).

(** [try: m except <caught>: h] *)
Definition try_except {A} (m : M A) (caught : exn -> bool) (h : M A) : M A :=
  fun w =>
    match m w with
    | (inl e, w') => if caught e then h w' else (inl e, w')
    | r => r
    end.

(** A call into the file system, logged; its error is raised. *)
Definition os_call {A} (c : fs_call)
    (f : gmap (list (list N)) Os.node -> Os.error + A) : M A :=
  fun w =>
    match f (disk w) with
    | inr a => (inr a, log_call c w)
    | inl e => (inl (StorageError e), log_call c w)
    end.

(** [x.decode(ENCODING)] and [x.encode(ENCODING)] *)
Definition decode (b : bytes) : M str :=
  match utf8_decode b with
  | Some s => ret s
  | None => raise UnicodeDecodeError
  end.

Definition encode (s : str) : M bytes :=
  match utf8_encode s with
  | Some b => ret b
  | None => raise UnicodeEncodeError
  end.

Declare Scope rksok_scope.
Delimit Scope rksok_scope with rksok.
Notation "'let*' x := m 'in' k" := (bind m (fun x => k))
  (at level 10, x name, m at level 100, k at level 200) : rksok_scope.
Notation "m >> k" := (bind m (fun _ => k))
  (at level 62, right associativity) : rksok_scope.
Local Open Scope rksok_scope.

(** *** The frame reader *)

(** What a [StreamReader] delivers before the deadline of the enclosing
    [asyncio.wait_for]: the results of the successive [read(4096)] calls,
    and then the end of the stream (the peer closed), or nothing more, or
    a read that raises (the connection broke). *)
Inductive stream_end := Eof | Silent | Broken.

Record reader := Reader {
  chunks : list bytes;
  ending : stream_end
}.

(** Outcome of a coroutine run under a deadline. *)
Inductive outcome (A : Type) :=
| Returned (a : A)
| Raised (e : exn)
| Pending.
Arguments Returned {A} a.
Arguments Raised {A} e.
Arguments Pending {A}.

(** [_receiving_data]: the loop, with [data] the buffer so far.  The end
    of the frame is looked for in the chunk just read
    ([chunk.decode().endswith(...)]), which is decoded on its own. *)
Fixpoint receiving_loop (cs : list bytes) (e : stream_end) (data : bytes)
    : outcome bytes :=
  match cs with
  | [] =>
    match e with
    | Eof => Returned data
    | Silent => Pending
    | Broken => Raised OSError
    end
  | chunk :: cs' =>
    let data := data ++ chunk in
    match chunk with
    | [] => Returned data
    | _ =>
      match utf8_decode chunk with
      | None => Raised UnicodeDecodeError
      | Some t =>
        if endswith t CRLFCRLF then Returned data
        else receiving_loop cs' e data
      end
    end
  end.

Definition _receiving_data (r : reader) : outcome bytes :=
  receiving_loop (chunks r) (ending r) [].

(** [await asyncio.wait_for(coro, timeout=5)] *)
Definition wait_for {A} (o : outcome A) : M A :=
  match o with
  | Returned a => ret a
  | Raised e => raise e
  | Pending => raise TimeoutError
  end.

(** *** The record store *)

(** [os.stat] answers, or raises one of the errors the method catches. *)
Definition _is_path_exists (p : str) : M bool :=
  fun w =>
    (inr (match Os.stat (disk w) p with inr _ => true | inl _ => false end),
     log_call (Stat p) w).

Definition response_line (v : ResponseWords) : str :=
  response_value v ++ SP ++ PROTOCOL.

(** [f'{self.path_to_phonebook}/{self.name}'] *)
Definition record_path (s : server) : str :=
  path_to_phonebook s ++ Os.slash ++ name s.

(** The file is opened, and so truncated, before the phones are joined
    and encoded. *)
Definition _write_phones : M str :=
  let* s := get in
  let* present := _is_path_exists (path_to_phonebook s) in
  (if present then ret tt
   else let* d := os_call (Mkdir (path_to_phonebook s))
                    (fun fs => Os.mkdir fs (path_to_phonebook s)) in
        modify (set_disk d)) >>
  let* f := os_call (OpenW (record_path s))
              (fun fs => Os.open_w fs (record_path s)) in
  modify (set_disk (snd f)) >>
  let* content := encode (join CRLF (phones s)) in
  modify (fun w => set_disk (<[fst f := Os.File content]> (disk w)) w) >>
  ret (response_line OK ++ CRLFCRLF).

Definition _read_phones : M str :=
  let* s := get in
  let* present := _is_path_exists (record_path s) in
  if negb present then ret (response_line NOT_FOUND ++ CRLFCRLF)
  else
    let* content := os_call (OpenR (record_path s))
                      (fun fs => Os.open_r fs (record_path s)) in
    let* text := decode content in
    let data := join CRLF (map strip (readlines text)) in
    ret (response_line OK ++ CRLF ++ data ++ CRLFCRLF).

Definition _delete_file : M str :=
  let* s := get in
  let* present := _is_path_exists (record_path s) in
  if negb present then ret (response_line NOT_FOUND ++ CRLFCRLF)
  else
    let* d := os_call (Remove (record_path s))
                (fun fs => Os.remove fs (record_path s)) in
    modify (set_disk d) >>
    ret (response_line OK ++ CRLFCRLF).

(** [self.crud_dict] *)
Definition crud_dict (v : RequestVerbs) : M str :=
  match v with
  | WRITE => _write_phones
  | GET => _read_phones
  | DELETE => _delete_file
  end.

(** *** The request grammar *)

(** The payload is kept in [self.phones] whatever the answer. *)
Definition _check_phones_in_request (request_payload : list str) : M bool :=
  modify (set_phones request_payload) >>
  let* s := get in
  ret (bool_decide
         (phones s
          = map strip (List.filter (fun l => nonempty (strip l)) request_payload))).

(** Without a match [assert name is not None] raises [AssertionError]
    (assertions are on unless Python runs with [-O]); the
    [except AttributeError] clause after it is then never entered. *)
Definition _check_request_body (raw_request : str) : M bool :=
  let request_payload := List.filter nonempty (split CRLF raw_request) in
  let elements := [13; 10] in
  match request_payload with
  | [] => raise IndexError
  | first :: rest =>
    if negb (endswith first (SP ++ PROTOCOL))
       || existsb (fun l => existsb (contains l) elements) request_payload
    then ret false
    else
      match re_search first with
      | None => raise AssertionError
      | Some m =>
        modify (set_name (slice_1_m1 (group m))) >>
        let* s := get in
        if Nat.leb (length (name s)) ALLOWED_NAME_LENGTH
        then _check_phones_in_request rest
        else ret false
      end
  end.

(** When no verb fits, both ways out of the loop's [else] clause raise
    [CanNotParseRequestError]. *)
Definition _is_valid_request (raw_request : str) : M bool :=
  match find (fun v => startswith raw_request (verb_value v ++ SP))
             all_RequestVerbs with
  | None => raise CanNotParseRequestError
  | Some request_verb =>
    modify (set_request_type request_verb) >>
    if (endswith raw_request (SP ++ PROTOCOL ++ CRLFCRLF)
        || endswith raw_request CRLFCRLF)
       && negb (endswith raw_request (SP ++ CRLFCRLF))
       && Nat.eqb (count raw_request CRLFCRLF) 1
    then
      let* ok := _check_request_body raw_request in
      if ok then
        let* s := get in
        modify (set_name (strip (name s))) >>
        ret true
      else raise CanNotParseRequestError
    else raise CanNotParseRequestError
  end.

(** *** Responses *)

Definition _write_and_close (response : str) : M unit :=
  let* b := encode response in
  modify (to_client (Written b)) >>
  modify (to_client Closed).

Definition _response_if_exception : M unit :=
  _write_and_close (response_line INCORRECT ++ CRLFCRLF).

(** *** The validation server *)

(** What [asyncio.open_connection] to the validation server meets: the
    connection is refused, it fails in another way (the name does not
    resolve, the network is unreachable), or it is made. *)
Inductive authority :=
| Refused
| Unreachable
| Connected (r : reader).

(** The reply is decoded once for the log line, inside the [try], before
    it is returned. *)
Definition _tcp_echo_client (auth : authority) (message_to_server : str)
    : M bytes :=
  try_except
    (match auth with
     | Refused => raise ConnectionRefusedError
     | Unreachable => raise OSError
     | Connected r =>
       let message :=
         validation_value IS_ALLOWED ++ SP ++ PROTOCOL ++ CRLF
         ++ message_to_server in
       let* b := encode message in
       modify (to_upstream (Written b)) >>
       let* data := wait_for (_receiving_data r) in
       let* logged := decode data in
       modify (to_upstream Closed) >>
       ret data
     end)
    (fun e =>
       match e with
       | TimeoutError | ConnectionRefusedError => true
       | _ => false
       end)
    (raise CannotFetchDataFromValidationServer).

(** *** One connection *)

(** The [except] clause of [handle_echo]. *)
Definition caught (e : exn) : bool :=
  match e with
  | TimeoutError | CanNotParseRequestError | CanNotParseResponseError
  | CannotFetchDataFromValidationServer => true
  | _ => false
  end.

(** The end of the [try] block of [handle_echo]: what is done with the
    decoded reply of the validation server. *)
Definition on_server_response (server_response : str) : M unit :=
  if existsb (fun v => startswith server_response (validation_value v ++ SP))
       all_ValidationWords
  then
    if negb (startswith server_response (validation_value ALLOWED ++ SP))
    then _write_and_close server_response
    else
      let* s := get in
      let* response_ := crud_dict (request_type s) in
      _write_and_close response_
  else raise CanNotParseResponseError.

(** The body of [handle_echo], run in one piece: from its first line to
    its last with nothing else run at its awaits.  This is how the server
    serves a connection while no other connection is open; [Async] below
    cuts the body at its awaits. *)
Definition handle_echo (client : reader) (auth : authority) : M unit :=
  try_except
    (let* data := wait_for (_receiving_data client) in
     let* message := decode data in
     _is_valid_request message >>
     let* server_response_coro := _tcp_echo_client auth message in
     let* server_response := decode server_response_coro in
     on_server_response server_response)
    caught
    _response_if_exception.

(** *** Vocabulary of the properties *)

(** The text of a request on the wire: the verb, one space, the run of
    characters [inner] up to the space before the protocol token, the
    payload lines, the terminator. *)
Definition first_line_text (v : RequestVerbs) (inner : str) : str :=
  verb_value v ++ SP ++ inner ++ SP ++ PROTOCOL.

Definition request_text (v : RequestVerbs) (inner : str)
    (payload : list str) : str :=
  join CRLF (first_line_text v inner :: payload) ++ CRLFCRLF.

(** No carriage return and no line feed. *)
Definition one_line (l : str) : bool :=
  negb (contains l 13) && negb (contains l 10).

(** A payload line as the grammar wants it: one line, not empty, equal to
    its trimmed form. *)
Definition phone_line (l : str) : bool :=
  one_line l && nonempty l && bool_decide (strip l = l).

(** The run between the verb and the protocol token holds a name. *)
Definition name_run (inner : str) : bool :=
  one_line inner && nonempty (strip inner).

(** What is before the first CR LF of a text. *)
Definition first_line (raw : str) : str := hd [] (split CRLF raw).

(** The name the grammar finds on the first line of a text, trimmed. *)
Definition request_name (raw : str) : option str :=
  match re_search (first_line raw) with
  | Some m => Some (strip (slice_1_m1 (group m)))
  | None => None
  end.

(** The bytes of the "could not understand" response. *)
Definition incorrect_response : bytes :=
  Eval vm_compute in
    default [] (utf8_encode (response_line INCORRECT ++ CRLFCRLF)).

(** The bytes of the response that carries nothing but the OK line. *)
Definition ok_response : bytes :=
  Eval vm_compute in default [] (utf8_encode (response_line OK ++ CRLFCRLF)).

(** The query sent to the validation server for a request. *)
Definition envelope (message : str) : str :=
  validation_value IS_ALLOWED ++ SP ++ PROTOCOL ++ CRLF ++ message.

(** Unicode scalar values: what [str.encode] accepts. *)
Definition scalar (c : N) : bool :=
  (c <? 0xD800) || ((0xDFFF <? c) && (c <? 0x110000)).

(** Control characters (general category Cc). *)
Definition control (c : N) : bool :=
  (c <? 0x20) || in_range 0x7F 0x9F c.

(** A name that is a single path component naming a file: not empty, no
    slash, no NUL, neither [.] nor [..], made of Unicode scalar values,
    and of at most [NAME_MAX] bytes in UTF-8. *)
Definition plain_name (n : str) : bool :=
  nonempty n && negb (contains n 47) && negb (contains n 0)
  && negb (Os.str_eqb n Os.dot) && negb (Os.str_eqb n Os.dotdot)
  && match utf8_encode n with
     | Some b => Nat.leb (length b) Os.NAME_MAX
     | None => false
     end.

(** The record of [n] can be stored under [root]: [root] is a directory or
    can be made one, the path name of the record is one the system takes,
    and no directory is in the place of the record. *)
Definition store_ready (fs : gmap (list (list N)) Os.node) (root n : str)
    : bool :=
  match Os.locate fs root, Os.pathname (root ++ Os.slash ++ n),
        Os.fsencode n with
  | inr q, inr _, Some bn =>
    match Os.entry fs q with
    | Some (Os.File _) => false
    | _ =>
      match Os.entry fs (q ++ [bn]) with
      | Some Os.Dir => false
      | _ => true
      end
    end
  | _, _, _ => false
  end.

(** The validator only assigns attributes of the server object. *)
Definition same_outside_self (w w' : world) : Prop :=
  disk w' = disk w /\ calls w' = calls w /\ client_out w' = client_out w
  /\ upstream_out w' = upstream_out w
  /\ path_to_phonebook (self w') = path_to_phonebook (self w).

(** A chunk after which [_receiving_data] reads on. *)
Definition goes_on (chunk : list N) : Prop :=
  chunk <> [] /\ exists t, utf8_decode chunk = Some t
                           /\ endswith t CRLFCRLF = false.

(** What a computation did to the client's writer. *)
Definition quiet {A} (m : M A) : Prop :=
  forall w, client_out (snd (m w)) = client_out w.

(** A computation that either answers the client once and closes, or
    raises without having written. *)
Definition answers_once {A} (m : M A) : Prop :=
  forall w,
    match m w with
    | (inr _, w') => exists b, client_out w' = client_out w ++ [Written b; Closed]
    | (inl _, w') => client_out w' = client_out w
    end.

(** [p] lies in the directory [dir] or below it. *)
Definition under (dir p : list (list N)) : bool :=
  bool_decide (take (length dir) p = dir).

End RKSOK.

(** ** The event loop

    [asyncio] runs the coroutines of all connections on one thread and
    on the one [RKSOKServer] object.  A coroutine runs until it awaits
    input or output; the loop may then run other coroutines before it
    resumes this one.  [RKSOK.handle_echo] above is the body of the
    handler run in one piece; here it is cut at its awaits.

    The reads of one frame are one await (they touch nothing the
    connections share), and every await of a file-system call or of
    [drain] is a point where the loop may switch, whether or not it
    does.  A file call takes effect when its coroutine is resumed.  What
    is written to a file reaches it when the file is closed (Python
    buffers it; a text longer than the buffer reaches the file in part
    at the write, and the file is the same once closed).  An open file
    is known by its place: one that is removed and made again while it
    is open is taken for the same file. *)

Module Async.

Import RKSOK.

(** A coroutine that was run on a world: it returned or raised, leaving
    the world [w], or it awaits, having left [w]; [k] then runs on the
    world as it is when the loop resumes the coroutine. *)
Inductive task (A : Type) : Type :=
| Return (a : A) (w : world)
| Raise (e : exn) (w : world)
| Await (w : world) (k : world -> task A).
Arguments Return {A} a w.
Arguments Raise {A} e w.
Arguments Await {A} w k.

Definition co (A : Type) : Type := world -> task A.

(** Code without an [await]. *)
Definition now {A} (m : M A) : co A :=
  fun w =>
    match m w with
    | (inr a, w') => Return a w'
    | (inl e, w') => Raise e w'
    end.

(** [await] of an operation of the loop, of the network or of a worker
    thread: [m] is what the operation does once the coroutine goes on. *)
Definition await {A} (m : M A) : co A := fun w => Await w (now m).

Fixpoint and_then {A B} (t : task A) (f : A -> co B) : task B :=
  match t with
  | Return a w => f a w
  | Raise e w => Raise e w
  | Await w k => Await w (fun w' => and_then (k w') f)
  end.

Definition bind {A B} (c : co A) (f : A -> co B) : co B :=
  fun w => and_then (c w) f.

(** [try: c except <caught>: h] *)
Fixpoint or_else {A} (t : task A) (caught : exn -> bool) (h : co A)
    : task A :=
  match t with
  | Return a w => Return a w
  | Raise e w => if caught e then h w else Raise e w
  | Await w k => Await w (fun w' => or_else (k w') caught h)
  end.

Definition try_except {A} (c : co A) (caught : exn -> bool) (h : co A)
    : co A :=
  fun w => or_else (c w) caught h.

Declare Scope async_scope.
Delimit Scope async_scope with async.
Notation "'let*' x := c 'in' k" := (bind c (fun x => k))
  (at level 10, x name, c at level 100, k at level 200) : async_scope.
Notation "c >> k" := (bind c (fun _ => k))
  (at level 62, right associativity) : async_scope.
Local Open Scope async_scope.

(** *** The record store *)

Definition _is_path_exists (p : str) : co bool :=
  await (RKSOK._is_path_exists p).

(** [self.name] is read when the file is opened and [self.phones] when
    it is written, each after an await.  An error of the write is raised
    once the [async with] block has closed the file. *)
Definition _write_phones : co str :=
  let* s := now get in
  let* present := _is_path_exists (path_to_phonebook s) in
  (if present then now (ret tt)
   else await (let* d := os_call (Mkdir (path_to_phonebook s))
                           (fun fs => Os.mkdir fs (path_to_phonebook s)) in
               modify (set_disk d))%rksok) >>
  let* s := now get in
  let* f := await (let* f := os_call (OpenW (record_path s))
                               (fun fs => Os.open_w fs (record_path s)) in
                   modify (set_disk (snd f)) >> ret f)%rksok in
  let* s := now get in
  let* written := await (ret (utf8_encode (join CRLF (phones s)))) in
  await (match written with
         | Some content =>
           modify (fun w => set_disk (Os.flush (disk w) (fst f) content) w)
         | None => raise UnicodeEncodeError
         end) >>
  now (ret (response_line OK ++ CRLFCRLF)).

(** [self.name] is read for [stat] and again when the file is opened.
    An error of [readlines] is raised once the file is closed. *)
Definition _read_phones : co str :=
  let* s := now get in
  let* present := _is_path_exists (record_path s) in
  if negb present then now (ret (response_line NOT_FOUND ++ CRLFCRLF))
  else
    let* s := now get in
    let* f := await (os_call (OpenR (record_path s))
                       (fun fs => Os.opened_r fs (record_path s))) in
    let* read := await (fun w =>
                          (inr (utf8_decode
                                  (Os.reread (disk w) (fst f) (snd f))), w)) in
    let* text := await (match read with
                        | Some text => ret text
                        | None => raise UnicodeDecodeError
                        end) in
    let data := join CRLF (map strip (readlines text)) in
    now (ret (response_line OK ++ CRLF ++ data ++ CRLFCRLF)).

Definition _delete_file : co str :=
  let* s := now get in
  let* present := _is_path_exists (record_path s) in
  if negb present then now (ret (response_line NOT_FOUND ++ CRLFCRLF))
  else
    let* s := now get in
    await (let* d := os_call (Remove (record_path s))
                       (fun fs => Os.remove fs (record_path s)) in
           modify (set_disk d))%rksok >>
    now (ret (response_line OK ++ CRLFCRLF)).

Definition crud_dict (v : RequestVerbs) : co str :=
  match v with
  | WRITE => _write_phones
  | GET => _read_phones
  | DELETE => _delete_file
  end.

(** *** Responses *)

(** [write], [await drain], [close] *)
Definition _write_and_close (response : str) : co unit :=
  now (let* b := encode response in modify (to_client (Written b)))%rksok >>
  await (ret tt) >>
  now (modify (to_client Closed)).

Definition _response_if_exception : co unit :=
  _write_and_close (response_line INCORRECT ++ CRLFCRLF).

(** *** The validation server *)

Definition _tcp_echo_client (auth : authority) (message_to_server : str)
    : co bytes :=
  try_except
    (let* r := await (match auth with
                      | Refused => raise ConnectionRefusedError
                      | Unreachable => raise OSError
                      | Connected r => ret r
                      end) in
     let message :=
       validation_value IS_ALLOWED ++ SP ++ PROTOCOL ++ CRLF
       ++ message_to_server in
     now (let* b := encode message in
          modify (to_upstream (Written b)))%rksok >>
     let* data := await (wait_for (_receiving_data r)) in
     now (let* logged := decode data in
          modify (to_upstream Closed))%rksok >>
     now (ret data))
    (fun e =>
       match e with
       | TimeoutError | ConnectionRefusedError => true
       | _ => false
       end)
    (now (raise CannotFetchDataFromValidationServer)).

(** *** One connection *)

(** [self.request_type] is read here, after the awaits of
    [_tcp_echo_client]. *)
Definition on_server_response (server_response : str) : co unit :=
  if existsb (fun v => startswith server_response (validation_value v ++ SP))
       all_ValidationWords
  then
    if negb (startswith server_response (validation_value ALLOWED ++ SP))
    then _write_and_close server_response
    else
      let* s := now get in
      let* response_ := crud_dict (request_type s) in
      _write_and_close response_
  else now (raise CanNotParseResponseError).

Definition handle_echo (client : reader) (auth : authority) : co unit :=
  try_except
    (let* data := await (wait_for (_receiving_data client)) in
     let* message := now (decode data) in
     now (_is_valid_request message) >>
     let* server_response_coro := _tcp_echo_client auth message in
     let* server_response := now (decode server_response_coro) in
     on_server_response server_response)
    caught
    _response_if_exception.

(** *** Running coroutines *)

(** The coroutine resumed at each of its awaits before anything else
    runs. *)
Fixpoint finish {A} (t : task A) : (exn + A) * world :=
  match t with
  | Return a w => (inr a, w)
  | Raise e w => (inl e, w)
  | Await w k => finish (k w)
  end.

Definition alone {A} (c : co A) : M A := fun w => finish (c w).

(** Where the handler of a connection is. *)
Inductive progress :=
| Waiting (k : co unit)
| Finished
| Failed (e : exn).

(** A connection: its handler, and what was written to its client and
    to the validation server on its behalf. *)
Record connection := Connection {
  handler : progress;
  to_its_client : list wevent;
  to_its_upstream : list wevent
}.

(** [asyncio.start_server] starts the handler of a new connection. *)
Definition accept (client : reader) (auth : authority) : connection :=
  Connection (Waiting (handle_echo client auth)) [] [].

(** The connections share the server object, the disk and the log of
    its calls; a handler runs on them and on the writers of its own
    connection. *)
Definition enter (c : connection) (w : world) : world :=
  World (self w) (disk w) (calls w) (to_its_client c) (to_its_upstream c).

Definition leave (w' w : world) : world :=
  World (self w') (disk w') (calls w') (client_out w) (upstream_out w).


(** The connection and the world once its handler has run up to [t]. *)
Definition park (t : task unit) (w : world) : connection * world :=
  let (p, w') := match t with
                 | Return _ w' => (Finished, w')
                 | Raise e w' => (Failed e, w')
                 | Await w' k => (Waiting k, w')
                 end in
  (Connection p (client_out w') (upstream_out w'), leave w' w).

(** The loop runs a connection up to its next await. *)
Definition resume (c : connection) (w : world) : connection * world :=
  match handler c with
  | Waiting k => park (k (enter c w)) w
  | _ => (c, w)
  end.

(** The loop resumes the connections in the order of [schedule], each
    named by its index. *)
Fixpoint run (schedule : list nat) (cs : list connection) (w : world)
    : list connection * world :=
  match schedule with
  | [] => (cs, w)
  | i :: rest =>
    match cs !! i with
    | Some c =>
      let (c', w') := resume c w in
      run rest (<[i := c']> cs) w'
    | None => run rest cs w
    end
  end.

End Async.

(** ** Scenarios

    Concrete worlds and messages on which the properties are exercised. *)

Module Scenario.

Import RKSOK.

(** The octets of a source-code literal. *)
Definition octets (s : string) : bytes :=
  map Byte.to_N (list_byte_of_string s).

Definition phonebook : str := Eval vm_compute in lit "/srv/rksok_phonebook".

(** A disk on which the phonebook directory has not been made yet. *)
Definition fresh_disk : gmap (list (list N)) Os.node :=
  {[ [octets "srv"] := Os.Dir ]}.

(** A disk with an empty phonebook directory. *)
Definition empty_book : gmap (list (list N)) Os.node :=
  <[ [octets "srv"; octets "rksok_phonebook"] := Os.Dir ]> fresh_disk.

Definition world_on (d : gmap (list (list N)) Os.node) : world :=
  World (Server phonebook [] GET []) d [] [] [].

(** A disk with one record. *)
Definition ivan_disk : gmap (list (list N)) Os.node :=
  <[ [octets "srv"; octets "rksok_phonebook"; octets "Ivan"]
     := Os.File (octets "+7123") ]> empty_book.

(** A client that sends its whole request in one chunk and waits. *)
Definition sends (request : bytes) : reader := Reader [request] Silent.

(** A validation server that answers with one chunk and closes. *)
Definition answers (reply : bytes) : authority :=
  Connected (Reader [reply] Eof).

Definition allowed_reply : bytes :=
  Eval vm_compute in octets "МОЖНА РКСОК/1.0" ++ CRLFCRLF.

Definition forbidden_reply : bytes :=
  Eval vm_compute in octets "НИЛЬЗЯ РКСОК/1.0" ++ CRLFCRLF.

(** The reply that repeats the query word of the envelope. *)
Definition query_reply : bytes :=
  Eval vm_compute in octets "АМОЖНА? РКСОК/1.0" ++ CRLFCRLF.

End Scenario.

(** ** Vocabulary of the further properties *)

Module More.

Import RKSOK Scenario.

(** Nothing was done to the record store or to the client's writer. *)
Definition untouched (w w' : world) : Prop :=
  disk w' = disk w /\ calls w' = calls w /\ client_out w' = client_out w.

(** The exceptions that can leave [handle_echo]. *)
Definition escapes (e : exn) : bool :=
  match e with
  | AssertionError | UnicodeDecodeError | StorageError _ | OSError => true
  | _ => false
  end.

(** The bytes put before the client's request in the query to the
    validation server. *)
Definition query_header : bytes :=
  Eval vm_compute in
    default []
      (utf8_encode (validation_value IS_ALLOWED ++ SP ++ PROTOCOL ++ CRLF)).

(** The bytes of the response that says the record was not found. *)
Definition not_found_response : bytes :=
  Eval vm_compute in
    default [] (utf8_encode (response_line NOT_FOUND ++ CRLFCRLF)).

(** The text of the client's frame, when one arrives and is UTF-8. *)
Definition request_of (client : reader) : option str :=
  match _receiving_data client with
  | Returned data => utf8_decode data
  | _ => None
  end.

(** The frame of the client when it is a request the validator accepts
    from [w], and the world the validator leaves. *)
Definition accepted (client : reader) (w : world) : option (bytes * world) :=
  match _receiving_data client with
  | Returned data =>
    match utf8_decode data with
    | Some message =>
      match _is_valid_request message w with
      | (inr true, w1) => Some (data, w1)
      | _ => None
      end
    | None => None
    end
  | _ => None
  end.

(** The reply of the validation server, decoded, when one arrives. *)
Definition verdict_of (auth : authority) : option str :=
  match auth with
  | Connected r =>
    match _receiving_data r with
    | Returned reply => utf8_decode reply
    | _ => None
    end
  | _ => None
  end.

(** The validation server gives its permission. *)
Definition allows (auth : authority) : bool :=
  match verdict_of auth with
  | Some verdict => startswith verdict (validation_value ALLOWED ++ SP)
  | None => false
  end.

End More.

(** * Facts *)

Import Regex RKSOK.

(** ** The UTF-8 codec *)

Module CodecFacts.

Example protocol_codepoints :
  PROTOCOL = [0x420; 0x41A; 0x421; 0x41E; 0x41A; 0x2F; 0x31; 0x2E; 0x30].
Proof. reflexivity. Qed.

Ltac boolN :=
  repeat match goal with
  | H : (_ && _)%bool = true |- _ => apply andb_true_iff in H; destruct H
  | H : (_ <? _) = true |- _ => apply N.ltb_lt in H
  | H : (_ <? _) = false |- _ => apply N.ltb_ge in H
  | H : (_ <=? _) = true |- _ => apply N.leb_le in H
  | H : (_ <=? _) = false |- _ => apply N.leb_gt in H
  | H : (_ =? _) = true |- _ => apply N.eqb_eq in H
  | H : (_ =? _) = false |- _ => apply N.eqb_neq in H
  end.

Lemma div_mod_pack (q r d : N) : r < d -> (q * d + r) / d = q /\ (q * d + r) mod d = r.
Proof.
  intros Hr. split.
  - symmetry. apply (N.div_unique _ d q r); lia.
  - symmetry. apply (N.mod_unique _ d q r); lia.
Qed.

Lemma encode_char2 (b0 b1 : N) :
  0xC2 <= b0 -> b0 < 0xE0 -> is_cont b1 = true ->
  utf8_encode_char ((b0 - 0xC0) * 64 + (b1 - 0x80)) = Some [b0; b1].
Proof.
  unfold is_cont. intros H0 H0' H1. boolN.
  destruct (div_mod_pack (b0 - 0xC0) (b1 - 0x80) 64) as [Hq Hr]; [lia|].
  unfold utf8_encode_char.
  set (c := (b0 - 0xC0) * 64 + (b1 - 0x80)) in *.
  assert (0x80 <= c < 0x800) by (subst c; lia).
  destruct (N.ltb_spec c 0x80); [lia|].
  destruct (N.ltb_spec c 0x800); [|lia].
  rewrite Hq, Hr. f_equal. f_equal; [lia|]. f_equal. lia.
Qed.

Lemma encode_char3 (b0 b1 b2 : N) :
  0xE0 <= b0 -> b0 < 0xF0 ->
  in_range (lo3 b0) (hi3 b0) b1 = true -> is_cont b2 = true ->
  utf8_encode_char ((b0 - 0xE0) * 4096 + (b1 - 0x80) * 64 + (b2 - 0x80))
  = Some [b0; b1; b2].
Proof.
  unfold is_cont, in_range, lo3, hi3. intros H0 H0' H1 H2. boolN.
  assert (0x80 <= b1 <= 0xBF)
    by (destruct (b0 =? 0xE0), (b0 =? 0xED); lia).
  set (x := b0 - 0xE0) in *. set (y := b1 - 0x80) in *. set (z := b2 - 0x80) in *.
  assert (Hx : x < 16) by (subst x; lia).
  assert (Hy : y < 64) by (subst y; lia).
  assert (Hz : z < 64) by (subst z; lia).
  destruct (div_mod_pack x (y * 64 + z) 4096) as [Hq1 _]; [lia|].
  destruct (div_mod_pack (x * 64 + y) z 64) as [Hq2 Hr2]; [lia|].
  destruct (div_mod_pack x y 64) as [_ Hr3]; [lia|].
  replace (x * 4096 + y * 64 + z) with (x * 4096 + (y * 64 + z)) by lia.
  unfold utf8_encode_char, in_range.
  set (c := x * 4096 + (y * 64 + z)) in *.
  assert (Hc2 : c = (x * 64 + y) * 64 + z) by (subst c; lia).
  assert (0x800 <= c < 0x10000 /\ (c < 0xD800 \/ 0xDFFF < c)).
  { subst c x y z.
    destruct (N.eqb_spec b0 0xE0), (N.eqb_spec b0 0xED); lia. }
  destruct (N.ltb_spec c 0x80); [lia|].
  destruct (N.ltb_spec c 0x800); [lia|].
  destruct (N.ltb_spec c 0x10000); [|lia].
  replace ((0xD800 <=? c) && (c <=? 0xDFFF)) with false
    by (symmetry; apply andb_false_iff;
        destruct (N.leb_spec 0xD800 c), (N.leb_spec c 0xDFFF); auto; lia).
  rewrite Hq1. rewrite Hc2, Hq2, Hr2, Hr3.
  subst x y z. repeat f_equal; lia.
Qed.

Lemma encode_char4 (b0 b1 b2 b3 : N) :
  0xF0 <= b0 -> b0 < 0xF5 ->
  in_range (lo4 b0) (hi4 b0) b1 = true -> is_cont b2 = true ->
  is_cont b3 = true ->
  utf8_encode_char ((b0 - 0xF0) * 262144 + (b1 - 0x80) * 4096
                    + (b2 - 0x80) * 64 + (b3 - 0x80))
  = Some [b0; b1; b2; b3].
Proof.
  unfold is_cont, in_range, lo4, hi4. intros H0 H0' H1 H2 H3. boolN.
  assert (0x80 <= b1 <= 0xBF)
    by (destruct (b0 =? 0xF0), (b0 =? 0xF4); lia).
  set (x := b0 - 0xF0) in *. set (y := b1 - 0x80) in *.
  set (z := b2 - 0x80) in *. set (t := b3 - 0x80) in *.
  assert (Hx : x < 5) by (subst x; lia).
  assert (Hy : y < 64) by (subst y; lia).
  assert (Hz : z < 64) by (subst z; lia).
  assert (Ht : t < 64) by (subst t; lia).
  destruct (div_mod_pack x (y * 4096 + z * 64 + t) 262144) as [Hq1 _]; [lia|].
  destruct (div_mod_pack (x * 64 + y) (z * 64 + t) 4096) as [Hq2 _]; [lia|].
  destruct (div_mod_pack ((x * 64 + y) * 64 + z) t 64) as [Hq3 Hr3]; [lia|].
  destruct (div_mod_pack x y 64) as [_ Hr4]; [lia|].
  destruct (div_mod_pack (x * 64 + y) z 64) as [_ Hr5]; [lia|].
  unfold utf8_encode_char.
  set (c := x * 262144 + y * 4096 + z * 64 + t) in *.
  assert (Hc1 : c = x * 262144 + (y * 4096 + z * 64 + t)) by (subst c; lia).
  assert (Hc2 : c = (x * 64 + y) * 4096 + (z * 64 + t)) by (subst c; lia).
  assert (Hc3 : c = ((x * 64 + y) * 64 + z) * 64 + t) by (subst c; lia).
  assert (0x10000 <= c < 0x110000).
  { subst c x y z t.
    destruct (N.eqb_spec b0 0xF0), (N.eqb_spec b0 0xF4); lia. }
  destruct (N.ltb_spec c 0x80); [lia|].
  destruct (N.ltb_spec c 0x800); [lia|].
  destruct (N.ltb_spec c 0x10000); [lia|].
  destruct (N.ltb_spec c 0x110000); [|lia].
  rewrite Hc1 at 1. rewrite Hq1.
  rewrite Hc2 at 1. rewrite Hq2, Hr4.
  rewrite Hc3 at 1. rewrite Hq3, Hr5.
  rewrite Hc3, Hr3.
  subst x y z t. repeat f_equal; lia.
Qed.

Lemma fmap_cons_Some (c : N) (o : option (list N)) (s : list N) :
  cons c <$> o = Some s -> exists s', o = Some s' /\ s = c :: s'.
Proof. destruct o; simpl; intros [= <-]; eauto. Qed.

Lemma utf8_encode_decode_aux (n : nat) :
  forall bs s, (length bs <= n)%nat ->
    utf8_decode bs = Some s -> utf8_encode s = Some bs.
Proof.
  induction n as [|n IH]; intros bs s Hlen.
  - destruct bs; [|simpl in Hlen; lia]. simpl. intros [= <-]. reflexivity.
  - destruct bs as [|b0 r0]; [simpl; intros [= <-]; reflexivity|].
    simpl in Hlen. cbn [utf8_decode].
    destruct (b0 <? 0x80) eqn:E1.
    { intros (s' & Hd & ->)%fmap_cons_Some.
      apply IH in Hd; [|lia]. cbn [utf8_encode]. rewrite Hd.
      unfold utf8_encode_char. rewrite E1. reflexivity. }
    destruct (b0 <? 0xC2) eqn:E2; [discriminate|].
    destruct (b0 <? 0xE0) eqn:E3.
    { destruct r0 as [|b1 r1]; [discriminate|].
      destruct (is_cont b1) eqn:C1; [|discriminate].
      intros (s' & Hd & ->)%fmap_cons_Some.
      apply IH in Hd; [|simpl in Hlen; lia]. cbn [utf8_encode]. rewrite Hd.
      boolN. rewrite encode_char2 by (auto; lia). reflexivity. }
    destruct (b0 <? 0xF0) eqn:E4.
    { destruct r0 as [|b1 [|b2 r2]]; try discriminate.
      destruct (in_range (lo3 b0) (hi3 b0) b1) eqn:C1; [|discriminate].
      destruct (is_cont b2) eqn:C2; [|discriminate]. cbn [andb].
      intros (s' & Hd & ->)%fmap_cons_Some.
      apply IH in Hd; [|simpl in Hlen; lia]. cbn [utf8_encode]. rewrite Hd.
      boolN. rewrite encode_char3 by (auto; lia). reflexivity. }
    destruct (b0 <? 0xF5) eqn:E5; [|discriminate].
    destruct r0 as [|b1 [|b2 [|b3 r3]]]; try discriminate.
    destruct (in_range (lo4 b0) (hi4 b0) b1) eqn:C1; [|discriminate].
    destruct (is_cont b2) eqn:C2; [|discriminate].
    destruct (is_cont b3) eqn:C3; [|discriminate]. cbn [andb].
    intros (s' & Hd & ->)%fmap_cons_Some.
    apply IH in Hd; [|simpl in Hlen; lia]. cbn [utf8_encode]. rewrite Hd.
    boolN. rewrite encode_char4 by (auto; lia). reflexivity.
Qed.

Lemma utf8_encode_decode (bs s : list N) :
  utf8_decode bs = Some s -> utf8_encode s = Some bs.
Proof. apply (utf8_encode_decode_aux (length bs)). lia. Qed.

Ltac Zify.zify_post_hook ::= Z.to_euclidean_division_equations.

Ltac same_char := match goal with |- cons ?x <$> _ = cons ?c <$> _ => replace x with c by lia; reflexivity end.

Lemma utf8_decode_encode_char (c : N) (b r : list N) :
  utf8_encode_char c = Some b ->
  utf8_decode (b ++ r) = cons c <$> utf8_decode r.
Proof.
  unfold utf8_encode_char, in_range.
  destruct (N.ltb_spec c 0x80).
  { intros [= <-]. cbn [app utf8_decode].
    destruct (N.ltb_spec c 0x80); [reflexivity | lia]. }
  destruct (N.ltb_spec c 0x800).
  { intros [= <-]. cbn [app utf8_decode]. unfold is_cont.
    destruct (N.ltb_spec (0xC0 + c / 64) 0x80); [lia|].
    destruct (N.ltb_spec (0xC0 + c / 64) 0xC2); [lia|].
    destruct (N.ltb_spec (0xC0 + c / 64) 0xE0); [|lia].
    destruct (N.leb_spec 0x80 (0x80 + c mod 64)); [|lia].
    destruct (N.leb_spec (0x80 + c mod 64) 0xBF); [|lia].
    cbn [andb]. same_char. }
  destruct (N.ltb_spec c 0x10000).
  { destruct (N.leb_spec 0xD800 c), (N.leb_spec c 0xDFFF); cbn [andb];
      try discriminate; intros [= <-]; cbn [app utf8_decode];
      unfold is_cont, in_range, lo3, hi3;
      (destruct (N.ltb_spec (0xE0 + c / 4096) 0x80); [lia|]);
      (destruct (N.ltb_spec (0xE0 + c / 4096) 0xC2); [lia|]);
      (destruct (N.ltb_spec (0xE0 + c / 4096) 0xE0); [lia|]);
      (destruct (N.ltb_spec (0xE0 + c / 4096) 0xF0); [|lia]);
      destruct (N.eqb_spec (0xE0 + c / 4096) 0xE0),
               (N.eqb_spec (0xE0 + c / 4096) 0xED);
      repeat match goal with
      | |- context [?a <=? ?b] => destruct (N.leb_spec a b); [|lia]
      end; cbn [andb]; same_char. }
  destruct (N.ltb_spec c 0x110000); [|discriminate].
  intros [= <-]; cbn [app utf8_decode];
  unfold is_cont, in_range, lo4, hi4.
  destruct (N.ltb_spec (0xF0 + c / 262144) 0x80); [lia|].
  destruct (N.ltb_spec (0xF0 + c / 262144) 0xC2); [lia|].
  destruct (N.ltb_spec (0xF0 + c / 262144) 0xE0); [lia|].
  destruct (N.ltb_spec (0xF0 + c / 262144) 0xF0); [lia|].
  destruct (N.ltb_spec (0xF0 + c / 262144) 0xF5); [|lia].
  destruct (N.eqb_spec (0xF0 + c / 262144) 0xF0),
           (N.eqb_spec (0xF0 + c / 262144) 0xF4);
  repeat match goal with
  | |- context [?a <=? ?b] => destruct (N.leb_spec a b); [|lia]
  end; cbn [andb]; same_char.
Qed.

Lemma utf8_decode_encode (s bs : list N) :
  utf8_encode s = Some bs -> utf8_decode bs = Some s.
Proof.
  revert bs. induction s as [|c s IH]; intros bs; cbn [utf8_encode].
  - intros [= <-]. reflexivity.
  - destruct (utf8_encode_char c) as [b|] eqn:Hc; [|discriminate].
    destruct (utf8_encode s) as [r|]; [|discriminate].
    intros [= <-]. rewrite (utf8_decode_encode_char _ _ _ Hc).
    rewrite (IH r eq_refl). reflexivity.
Qed.

End CodecFacts.

(** ** String methods *)

Module PyFacts.

Import CodecFacts.

(** *** [startswith] and [endswith] *)

Lemma startswith_app (p s : list N) : startswith (p ++ s) p = true.
Proof. induction p as [|c p IH]; simpl; [reflexivity|]. by rewrite N.eqb_refl. Qed.

Lemma startswith_inv (s p : list N) :
  startswith s p = true -> exists r, s = p ++ r.
Proof.
  revert s. induction p as [|c p IH]; intros s; simpl.
  - eauto.
  - destruct s as [|d s]; [discriminate|].
    intros [->%N.eqb_eq Hs]%andb_true_iff.
    destruct (IH _ Hs) as [r ->]. eauto.
Qed.

Lemma startswith_head (c d : N) (s p : list N) :
  c <> d -> startswith (c :: s) (d :: p) = false.
Proof. intros Hne. simpl. by apply N.eqb_neq in Hne as ->. Qed.

Lemma startswith_prefix (s p q : list N) :
  startswith s (p ++ q) = true -> startswith s p = true.
Proof.
  intros [r ->]%startswith_inv. rewrite <- app_assoc. apply startswith_app.
Qed.

Lemma endswith_app (s suf : list N) : endswith (s ++ suf) suf = true.
Proof. unfold endswith. rewrite rev_app_distr. apply startswith_app. Qed.

Lemma endswith_inv (s suf : list N) :
  endswith s suf = true -> exists r, s = r ++ suf.
Proof.
  unfold endswith. intros [r Hr]%startswith_inv. exists (rev r).
  apply (f_equal (@rev N)) in Hr.
  by rewrite rev_involutive, rev_app_distr, rev_involutive in Hr.
Qed.

Lemma endswith_suffix (s p q : list N) :
  endswith s (p ++ q) = true -> endswith s q = true.
Proof.
  intros [r ->]%endswith_inv. rewrite app_assoc. apply endswith_app.
Qed.

Lemma endswith_last (s suf : list N) (c d : N) :
  c <> d -> endswith (s ++ [c]) (suf ++ [d]) = false.
Proof.
  intros Hne. unfold endswith. rewrite !rev_app_distr. simpl.
  by apply N.eqb_neq in Hne as ->.
Qed.

(** *** [strip] *)

Lemma lstrip_length (s : list N) : (length (lstrip s) <= length s)%nat.
Proof. induction s as [|c s IH]; simpl; [lia|]. destruct (isspace c); simpl; lia. Qed.

Lemma strip_length (s : list N) : (length (strip s) <= length s)%nat.
Proof.
  unfold strip, rstrip. rewrite length_rev.
  etransitivity; [apply lstrip_length|]. rewrite length_rev. apply lstrip_length.
Qed.

Lemma lstrip_app (s t : list N) :
  lstrip (s ++ t) = match lstrip s with [] => lstrip t | _ => lstrip s ++ t end.
Proof.
  induction s as [|c s IH]; simpl.
  - by destruct (lstrip t).
  - destruct (isspace c); [apply IH | reflexivity].
Qed.

Lemma rstrip_snoc_space (s : list N) (c : N) :
  isspace c = true -> rstrip (s ++ [c]) = rstrip s.
Proof. intros Hc. unfold rstrip. rewrite rev_app_distr. simpl. by rewrite Hc. Qed.

Lemma strip_cons_space (c : N) (s : list N) :
  isspace c = true -> strip (c :: s) = strip s.
Proof. intros Hc. unfold strip. simpl. by rewrite Hc. Qed.

Lemma strip_snoc_space (s : list N) (c : N) :
  isspace c = true -> strip (s ++ [c]) = strip s.
Proof.
  intros Hc. unfold strip. rewrite lstrip_app.
  destruct (lstrip s) as [|d r] eqn:E.
  - simpl. by rewrite Hc.
  - by rewrite (rstrip_snoc_space (d :: r) c Hc).
Qed.

(** A string equal to its trimmed form has no white space at either end. *)
Lemma lstrip_fixed (c : N) (s : list N) :
  isspace c = false -> lstrip (c :: s) = c :: s.
Proof. intros Hc. simpl. by rewrite Hc. Qed.

Lemma rstrip_nonempty (s : list N) : rstrip s <> [] -> s <> [].
Proof. intros H ->. by apply H. Qed.

Lemma strip_fixed_head (c : N) (s : list N) :
  strip (c :: s) = c :: s -> isspace c = false.
Proof.
  intros H. destruct (isspace c) eqn:Hc; [|reflexivity].
  rewrite strip_cons_space in H by done.
  pose proof (strip_length s) as Hl. rewrite H in Hl. simpl in Hl. lia.
Qed.

(** *** [split] *)

Lemma split_go_nonnil (sep : list N) (k : nat) (s : list N) :
  split_go sep k s <> [].
Proof.
  revert k. induction s as [|c s IH]; intros k; simpl; [done|].
  destruct k; [|apply IH].
  destruct (startswith (c :: s) sep); [done|].
  destruct (split_go sep 0 s); done.
Qed.

Lemma split_go_skip (sep t rest : list N) :
  split_go sep (length t) (t ++ rest) = split_go sep 0 rest.
Proof. induction t as [|c t IH]; simpl; [reflexivity | apply IH]. Qed.

Lemma split_sep (c : N) (sep rest : list N) :
  split (c :: sep) ((c :: sep) ++ rest) = [] :: split (c :: sep) rest.
Proof.
  unfold split. cbn [app split_go].
  change (c :: sep ++ rest) with ((c :: sep) ++ rest).
  rewrite startswith_app. cbn [length pred]. by rewrite split_go_skip.
Qed.

Lemma split_cons_other (c d : N) (sep s : list N) :
  c <> d ->
  split (d :: sep) (c :: s)
  = (c :: hd [] (split (d :: sep) s)) :: tl (split (d :: sep) s).
Proof.
  intros Hne. unfold split. cbn [split_go].
  rewrite startswith_head by done.
  pose proof (split_go_nonnil (d :: sep) 0 s).
  by destruct (split_go (d :: sep) 0 s).
Qed.

(** A line that lacks the first character of the separator ends at the
    first separator. *)
Lemma split_line (d : N) (sep l rest : list N) :
  d ∉ l ->
  split (d :: sep) (l ++ (d :: sep) ++ rest) = l :: split (d :: sep) rest.
Proof.
  induction l as [|c l IH]; intros Hl.
  - apply split_sep.
  - apply not_elem_of_cons in Hl as [Hc Hl].
    change ((c :: l) ++ (d :: sep) ++ rest) with (c :: (l ++ (d :: sep) ++ rest)).
    rewrite split_cons_other by done. by rewrite IH.
Qed.

Lemma split_none (d : N) (sep l : list N) :
  d ∉ l -> split (d :: sep) l = [l].
Proof.
  induction l as [|c l IH]; intros Hl; [reflexivity|].
  apply not_elem_of_cons in Hl as [Hc Hl].
  rewrite split_cons_other by done. by rewrite IH.
Qed.

(** With a one-character separator [split] distributes over the
    separator. *)
Lemma split_char_app (c : N) (a b : list N) :
  split [c] (a ++ [c] ++ b) = split [c] a ++ split [c] b.
Proof.
  induction a as [|x a IH].
  - exact (split_sep c [] b).
  - change ((x :: a) ++ [c] ++ b) with (x :: (a ++ [c] ++ b)).
    destruct (N.eq_dec x c) as [->|Hne].
    + change (c :: a ++ [c] ++ b) with ([c] ++ (a ++ [c] ++ b)).
      change (c :: a) with ([c] ++ a).
      rewrite !(split_sep c []), IH. reflexivity.
    + rewrite !split_cons_other, IH by done.
      pose proof (split_go_nonnil [c] 0 a) as Hn. unfold split.
      by destruct (split_go [c] 0 a).
Qed.

(** *** [count] *)

Lemma count_line (d : N) (sub l rest : list N) :
  d ∉ l -> count (l ++ rest) (d :: sub) = count rest (d :: sub).
Proof.
  induction l as [|c l IH]; intros Hl; [reflexivity|].
  apply not_elem_of_cons in Hl as [Hc Hl].
  unfold count in *. cbn [app count_go].
  rewrite startswith_head by done. by apply IH.
Qed.

Lemma contains_false (s : list N) (c : N) : contains s c = false <-> c ∉ s.
Proof.
  unfold contains. induction s as [|d s IH]; simpl.
  - split; [intros _; apply not_elem_of_nil | done].
  - rewrite orb_false_iff, IH, not_elem_of_cons, N.eqb_neq. tauto.
Qed.

End PyFacts.

(** ** The regular expression *)

Module RegexFacts.

Import PyFacts.

(** A greedy run takes the whole run when the continuation accepts what
    follows it. *)
Lemma plus_class_run (p : N -> bool) (k : matcher) (run rest r : list N) :
  run <> [] -> forallb p run = true ->
  match rest with [] => True | c :: _ => p c = false end ->
  k rest = Some r ->
  plus_class p k (run ++ rest) = Some r.
Proof.
  intros Hne Hrun Hrest Hk.
  induction run as [|c run IH]; [done|].
  cbn [forallb] in Hrun. apply andb_true_iff in Hrun as [Hc Hrun].
  cbn [app plus_class]. rewrite Hc.
  destruct run as [|c' run'].
  - cbn [app]. destruct rest as [|d rest']; cbn [plus_class].
    + exact Hk.
    + rewrite Hrest. exact Hk.
  - rewrite IH; done.
Qed.

Lemma plus_class_reject (p : N -> bool) (k : matcher) (c : N) (s : list N) :
  p c = false -> plus_class p k (c :: s) = None.
Proof. intros H. cbn [plus_class]. by rewrite H. Qed.

(** The result of a greedy run depends on the continuation only at the
    proper suffixes of the subject. *)
Lemma plus_class_ext (p : N -> bool) (k1 k2 : matcher) (s : list N) :
  (forall s', (length s' < length s)%nat -> k1 s' = k2 s') ->
  plus_class p k1 s = plus_class p k2 s.
Proof.
  induction s as [|c s IH]; intros Hk; [reflexivity|].
  cbn [plus_class]. destruct (p c); [|reflexivity].
  rewrite IH by (intros s' Hs'; apply Hk; simpl; lia).
  rewrite (Hk s) by (simpl; lia). reflexivity.
Qed.

(** Any fuel that bounds the length of the subject gives the same answer. *)
Lemma tokens_fuel (s : list N) :
  forall f1 f2, (length s <= f1)%nat -> (length s <= f2)%nat ->
    tokens f1 s = tokens f2 s.
Proof.
  induction s as [s IH] using (induction_ltof1 _ (@length N)).
  unfold ltof in IH. intros f1 f2 H1 H2.
  destruct s as [|c s]; [by destruct f1, f2|].
  destruct f1 as [|f1]; [simpl in H1; lia|].
  destruct f2 as [|f2]; [simpl in H2; lia|].
  unfold tokens. cbn [plus_group].
  change (plus_group f1 token (lookahead PROTOCOL)) with (tokens f1).
  change (plus_group f2 token (lookahead PROTOCOL)) with (tokens f2).
  unfold token.
  apply plus_class_ext. intros s1 Hs1.
  apply plus_class_ext. intros s2 Hs2.
  rewrite (IH s2 ltac:(lia) f1 f2) by (simpl in *; lia). reflexivity.
Qed.

Lemma pattern_fuel (s : list N) (f1 f2 : nat) :
  (length s <= f1)%nat -> (length s <= f2)%nat ->
  pattern f1 s = pattern f2 s.
Proof.
  intros H1 H2. unfold pattern. apply plus_class_ext. intros s' Hs'.
  apply tokens_fuel; lia.
Qed.

Lemma search_fuel (s : list N) :
  forall f1 f2, (length s <= f1)%nat -> (length s <= f2)%nat ->
    search (pattern f1) s = search (pattern f2) s.
Proof.
  induction s as [|c s IH]; intros f1 f2 H1 H2; cbn [search];
    rewrite (pattern_fuel _ f1 f2) by done;
    destruct (pattern f2 _); try reflexivity.
  apply IH; simpl in *; lia.
Qed.

(** [re_search] does not depend on its choice of fuel: no match is ever
    missed for want of it. *)
Lemma re_search_fuel (s : list N) (f : nat) :
  (length s <= f)%nat -> search (pattern f) s = re_search s.
Proof. intros H. unfold re_search. by apply search_fuel. Qed.

Lemma tokens_at_protocol (f : nat) : tokens f PROTOCOL = None.
Proof. destruct f; reflexivity. Qed.

Lemma token_run_head (t : list N) :
  token_run t -> match t with [] => True | c :: _ => isspace c = false end.
Proof.
  assert (Hhd : forall tok r : list N, tok <> [] -> forallb nonspace tok = true ->
    match tok ++ r with [] => True | c :: _ => isspace c = false end).
  { intros [|c tok] r Hne Hall; [done|]. simpl in *.
    apply andb_true_iff in Hall as [Hc _]. unfold nonspace in Hc.
    by apply negb_true_iff in Hc. }
  intros [tok ws ? ? ? ? | tok ws t' ? ? ? ? ?]; by apply Hhd.
Qed.

(** The greedy loop runs through all the tokens before the final protocol
    token. *)
Lemma tokens_run (t : list N) :
  token_run t ->
  forall f, (length t <= f)%nat -> tokens f (t ++ PROTOCOL) = Some PROTOCOL.
Proof.
  induction 1 as [tok ws Htok Hns Hws Hsp | tok ws t Htok Hns Hws Hsp Ht IH];
    intros f Hf.
  - destruct f as [|f]; [destruct tok; [done | simpl in Hf; lia]|].
    unfold tokens. cbn [plus_group].
    change (plus_group f token (lookahead PROTOCOL)) with (tokens f).
    unfold token. rewrite <- app_assoc.
    apply plus_class_run; [done | done | |].
    { destruct ws as [|c ws]; [done|]. simpl in *.
      apply andb_true_iff in Hsp as [Hc _]. unfold nonspace. by rewrite Hc. }
    apply plus_class_run; [done | done | reflexivity |].
    rewrite tokens_at_protocol. reflexivity.
  - destruct f as [|f]; [destruct tok; [done | simpl in Hf; lia]|].
    unfold tokens. cbn [plus_group].
    change (plus_group f token (lookahead PROTOCOL)) with (tokens f).
    unfold token. rewrite <- !app_assoc.
    apply plus_class_run; [done | done | |].
    { destruct ws as [|c ws]; [done|]. simpl in *.
      apply andb_true_iff in Hsp as [Hc _]. unfold nonspace. by rewrite Hc. }
    apply plus_class_run; [done | done | |].
    { pose proof (token_run_head t Ht) as Hh.
      destruct t as [|c t']; [inversion Ht; by destruct tok0 |]. exact Hh. }
    rewrite IH; [reflexivity|].
    rewrite !length_app in Hf. destruct tok; [done|]. simpl in Hf. lia.
Qed.

End RegexFacts.

(** ** The name on the first line *)

Module NameFacts.

Import PyFacts RegexFacts.

Lemma span_run (p : N -> bool) (s : list N) :
  exists run rest, s = run ++ rest /\ forallb p run = true
    /\ match rest with [] => True | c :: _ => p c = false end.
Proof.
  induction s as [|c s (run & rest & -> & Hrun & Hrest)].
  - by exists [], [].
  - destruct (p c) eqn:Hc.
    + exists (c :: run), rest. simpl. by rewrite Hc, Hrun.
    + by exists [], (c :: run ++ rest).
Qed.

Lemma snoc_of_suffix (a t t0 : list N) (c : N) :
  a ++ t = t0 ++ [c] -> t <> [] -> exists t1, t = t1 ++ [c].
Proof.
  destruct t as [|x t _] using rev_ind; [done|].
  rewrite app_assoc. intros [_ ->]%app_inj_tail _. eauto.
Qed.

Lemma forallb_snoc_false (p : N -> bool) (t0 : list N) (c : N) :
  p c = false -> forallb p (t0 ++ [c]) = false.
Proof. intros Hc. rewrite forallb_app. simpl. rewrite Hc. apply andb_false_r. Qed.

(** A string that begins with a visible character and ends with white
    space is a run of tokens. *)
Lemma token_run_intro (n : nat) :
  forall t c t1 t0 d, (length t <= n)%nat ->
    t = c :: t1 -> isspace c = false ->
    t = t0 ++ [d] -> isspace d = true ->
    token_run t.
Proof.
  induction n as [|n IH]; intros t c t1 t0 d Hlen Hhd Hc Hlast Hd.
  { subst t. simpl in Hlen. lia. }
  destruct (span_run nonspace t) as (tok & rest & Ht & Htok & Hrest).
  assert (Htok_ne : tok <> []).
  { intros ->. simpl in Ht. subst rest. rewrite Hhd in Hrest.
    unfold nonspace in Hrest. by rewrite Hc in Hrest. }
  destruct rest as [|e rest'].
  { rewrite app_nil_r in Ht. subst tok. rewrite Hlast in Htok.
    rewrite forallb_snoc_false in Htok; [done|]. unfold nonspace. by rewrite Hd. }
  unfold nonspace in Hrest. apply negb_false_iff in Hrest.
  destruct (span_run isspace (e :: rest')) as (ws & t' & Hr & Hws & Ht').
  assert (Hws_ne : ws <> []).
  { intros ->. simpl in Hr. subst t'. by rewrite Hrest in Ht'. }
  rewrite Hr in Ht.
  destruct t' as [|x t''].
  { rewrite app_nil_r in Ht. rewrite Ht. by constructor. }
  rewrite Ht. apply token_run_more; try done.
  assert (Hsuf : exists t2, x :: t'' = t2 ++ [d]).
  { apply (snoc_of_suffix (tok ++ ws) _ t0); [|done].
    by rewrite <- app_assoc, <- Ht, <- Hlast. }
  destruct Hsuf as [t2 Ht2].
  apply (IH _ x t'' t2 d); try done.
  apply (f_equal (@length N)) in Ht. rewrite !length_app in Ht.
  destruct tok; [done|]. simpl in *. lia.
Qed.

Lemma lstrip_all_space (s : list N) : forallb isspace s = true -> lstrip s = [].
Proof.
  induction s as [|c s IH]; simpl; [done|].
  intros [-> Hs]%andb_true_iff. auto.
Qed.

Lemma search_skip (m : matcher) (pre rest : list N) :
  (forall c s, c ∈ pre -> m (c :: s) = None) ->
  search m (pre ++ rest) = search m rest.
Proof.
  induction pre as [|c pre IH]; intros Hm; [reflexivity|].
  cbn [app search]. rewrite Hm by left.
  apply IH. intros d s Hd. apply Hm. by right.
Qed.

Lemma search_hit (m : matcher) (s r : list N) :
  m s = Some r -> search m s = Some (s, r).
Proof. intros H. destruct s; simpl; by rewrite H. Qed.

Lemma group_prefix (x r : list N) : group (x ++ r, r) = x.
Proof.
  unfold group. cbn [fst snd]. rewrite length_app.
  replace (length x + length r - length r)%nat with (length x) by lia.
  by rewrite take_app_length.
Qed.

Lemma slice_1_m1_wrapped (c d : N) (s : list N) :
  slice_1_m1 ([c] ++ s ++ [d]) = s.
Proof. unfold slice_1_m1. cbn [app tail]. apply removelast_last. Qed.

(** The match on a first line: from the first space after the verb up to
    the protocol token. *)
Lemma re_search_first_line (pre inner : list N) :
  forallb nonspace pre = true -> strip inner <> [] ->
  re_search (pre ++ SP ++ inner ++ SP ++ PROTOCOL)
  = Some ((SP ++ inner ++ SP) ++ PROTOCOL, PROTOCOL).
Proof.
  intros Hpre Hinner. unfold re_search.
  set (f := length (pre ++ SP ++ inner ++ SP ++ PROTOCOL)).
  assert (Hf : (length (SP ++ inner ++ SP) <= f)%nat).
  { subst f. rewrite !length_app. lia. }
  rewrite search_skip.
  2:{ intros c s Hc. unfold pattern. apply plus_class_reject.
      rewrite forallb_forall in Hpre. apply list_elem_of_In in Hc.
      specialize (Hpre _ Hc). unfold nonspace in Hpre.
      by apply negb_true_iff in Hpre. }
  replace (SP ++ inner ++ SP ++ PROTOCOL) with ((SP ++ inner ++ SP) ++ PROTOCOL)
    by (by rewrite <- !app_assoc).
  destruct (span_run isspace (SP ++ inner ++ SP)) as (ws & t & Hsplit & Hws & Ht).
  assert (Hws_ne : ws <> []).
  { intros ->. simpl in Hsplit. subst t. simpl in Ht. done. }
  assert (Ht_ne : t <> []).
  { intros ->. rewrite app_nil_r in Hsplit. subst ws.
    apply Hinner. unfold strip. rewrite lstrip_all_space; [done|].
    rewrite forallb_forall in Hws. apply forallb_forall. intros x Hx.
    apply Hws. rewrite !in_app_iff. auto. }
  destruct t as [|c t1]; [done|].
  destruct (snoc_of_suffix ws (c :: t1) (SP ++ inner) 32) as [t0 Ht0];
    [by rewrite <- Hsplit, <- !app_assoc | done |].
  assert (Hrun : token_run (c :: t1))
    by (by apply (token_run_intro (length (c :: t1)) _ c t1 t0 32)).
  apply search_hit.
  assert (Hm : pattern f ((SP ++ inner ++ SP) ++ PROTOCOL) = Some PROTOCOL).
  { rewrite Hsplit, <- app_assoc. unfold pattern.
    apply plus_class_run; [done | done | exact Ht |].
    apply tokens_run; [done|].
    rewrite Hsplit, length_app in Hf. lia. }
  exact Hm.
Qed.

End NameFacts.

(** ** The shape of a request text *)

Module GrammarFacts.

Import PyFacts RegexFacts NameFacts.

Lemma one_line_inv (l : list N) : one_line l = true -> (13 ∉ l) /\ (10 ∉ l).
Proof.
  unfold one_line. intros [H1 H2]%andb_true_iff.
  apply negb_true_iff in H1, H2. by rewrite !contains_false in *.
Qed.

Lemma phone_line_inv (l : list N) :
  phone_line l = true -> one_line l = true /\ l <> [] /\ strip l = l.
Proof.
  unfold phone_line. intros [[H1 H2]%andb_true_iff H3]%andb_true_iff.
  apply bool_decide_eq_true in H3. split; [done|]. split; [|done].
  by destruct l.
Qed.

Lemma join_cons (sep x y : list N) (l : list (list N)) :
  join sep (x :: y :: l) = x ++ sep ++ join sep (y :: l).
Proof. reflexivity. Qed.

(** *** The shape of a request text *)

Lemma split_request (l : list N) (ls : list (list N)) :
  Forall (fun x => 13 ∉ x) (l :: ls) ->
  split CRLF (join CRLF (l :: ls) ++ CRLFCRLF) = (l :: ls) ++ [[]; []].
Proof.
  revert l. induction ls as [|l' ls IH]; intros l Hall.
  - apply Forall_cons in Hall as [Hl _]. cbn [join app].
    change CRLFCRLF with (CRLF ++ CRLF ++ []).
    rewrite (split_line 13 [10]) by done.
    by rewrite (split_sep 13 [10]).
  - apply Forall_cons in Hall as [Hl Hall].
    rewrite join_cons, <- !app_assoc.
    rewrite (split_line 13 [10]) by done.
    by rewrite IH.
Qed.

Lemma count_crlf_char (c : N) (s : list N) :
  c <> 13 -> count (CRLF ++ c :: s) CRLFCRLF = count (c :: s) CRLFCRLF.
Proof.
  intros Hc. unfold count, CRLF, CRLFCRLF. cbn [app].
  cbn [count_go startswith N.eqb Pos.eqb andb].
  by apply N.eqb_neq in Hc as ->.
Qed.

Lemma count_request (l : list N) (ls : list (list N)) :
  Forall (fun x => 13 ∉ x) (l :: ls) -> Forall (fun x => x <> []) ls ->
  count (join CRLF (l :: ls) ++ CRLFCRLF) CRLFCRLF = 1%nat.
Proof.
  revert l. induction ls as [|l' ls IH]; intros l Hall Hne.
  - apply Forall_cons in Hall as [Hl _]. cbn [join].
    by rewrite (count_line 13 [10; 13; 10]).
  - apply Forall_cons in Hall as [Hl Hall].
    apply Forall_cons in Hne as [Hl' Hne].
    rewrite join_cons, <- !app_assoc, (count_line 13 [10; 13; 10]) by done.
    specialize (IH l' Hall Hne).
    destruct l' as [|c l'']; [done|].
    assert (c <> 13).
    { apply Forall_cons in Hall as [Hc _]. by apply not_elem_of_cons in Hc as [? _]. }
    destruct ls as [|l2 ls'].
    + cbn [join] in *. change ((c :: l'') ++ CRLFCRLF) with (c :: l'' ++ CRLFCRLF) in *.
      by rewrite count_crlf_char.
    + rewrite join_cons in *. 
      change ((c :: l'') ++ ?x) with (c :: l'' ++ x) in *.
      change ((c :: ?y) ++ ?x) with (c :: y ++ x) in *.
      by rewrite count_crlf_char.
Qed.

Lemma startswith_app_both (p s q : list N) :
  startswith (p ++ s) (p ++ q) = startswith s q.
Proof. induction p as [|c p IH]; simpl; [done|]. by rewrite N.eqb_refl. Qed.

Lemma endswith_before (s t : list N) (c d : N) :
  c <> d -> endswith (s ++ [c] ++ t) ([d] ++ t) = false.
Proof.
  intros Hne. unfold endswith. rewrite !rev_app_distr. cbn [rev app].
  rewrite <- !app_assoc, startswith_app_both. cbn [app].
  by apply startswith_head.
Qed.

(** The last character of the last line. *)
Lemma join_last_char (sep : list N) (P : N -> Prop) (ls : list (list N)) :
  ls <> [] -> Forall (fun l => exists l0 c, l = l0 ++ [c] /\ P c) ls ->
  exists x c, join sep ls = x ++ [c] /\ P c.
Proof.
  induction ls as [|l ls IH]; [done|]. intros _ Hall.
  apply Forall_cons in Hall as [(l0 & c & -> & Hc) Hall].
  destruct ls as [|l' ls'].
  - exists l0, c. done.
  - destruct (IH ltac:(done) Hall) as (x & c' & Hx & Hc').
    exists ((l0 ++ [c]) ++ sep ++ x), c'. rewrite join_cons, Hx.
    by rewrite <- !app_assoc.
Qed.

Lemma trimmed_last (l : list N) :
  l <> [] -> strip l = l -> exists l0 c, l = l0 ++ [c] /\ c <> 32.
Proof.
  destruct l as [|x l _] using rev_ind; [done|]. intros _ Hs.
  exists l, x. split; [done|]. intros ->.
  rewrite strip_snoc_space in Hs by done.
  pose proof (strip_length l) as Hl. rewrite Hs, length_app in Hl. simpl in Hl. lia.
Qed.

End GrammarFacts.

(** ** The validator on a request text *)

Module ValidatorFacts.

Import PyFacts RegexFacts NameFacts GrammarFacts.

Lemma verb_nonspace (v : RequestVerbs) : forallb nonspace (verb_value v) = true.
Proof. by destruct v. Qed.

Lemma verb_one_line (v : RequestVerbs) : one_line (verb_value v) = true.
Proof. by destruct v. Qed.

Lemma find_verb (v : RequestVerbs) (rest : list N) :
  find (fun v' => startswith (verb_value v ++ SP ++ rest) (verb_value v' ++ SP))
       all_RequestVerbs = Some v.
Proof. destruct v; reflexivity. Qed.

Lemma one_line_app (a b : list N) :
  one_line (a ++ b) = one_line a && one_line b.
Proof.
  unfold one_line, contains. rewrite !existsb_app.
  destruct (existsb (N.eqb 13) a), (existsb (N.eqb 13) b),
    (existsb (N.eqb 10) a), (existsb (N.eqb 10) b); reflexivity.
Qed.

Lemma first_line_one_line (v : RequestVerbs) (inner : list N) :
  one_line inner = true -> one_line (first_line_text v inner) = true.
Proof.
  intros Hi. unfold first_line_text.
  rewrite !one_line_app, verb_one_line, Hi. reflexivity.
Qed.

Lemma first_line_nonempty (v : RequestVerbs) (inner : list N) :
  first_line_text v inner <> [].
Proof. by destruct v. Qed.

Lemma filter_nonempty_all (ls : list (list N)) :
  Forall (fun l => l <> []) ls -> List.filter nonempty ls = ls.
Proof.
  induction 1 as [|l ls Hl _ IH]; [done|].
  cbn. destruct l; [done|]. simpl. by rewrite IH.
Qed.

Lemma no_breaks (ls : list (list N)) :
  Forall (fun l => one_line l = true) ls ->
  existsb (fun l => existsb (contains l) [13; 10]) ls = false.
Proof.
  induction 1 as [|l ls Hl _ IH]; [done|].
  cbn [existsb] in *. rewrite IH.
  unfold one_line in Hl. apply andb_true_iff in Hl as [H1 H2].
  apply negb_true_iff in H1, H2. by rewrite H1, H2.
Qed.

Lemma phones_fixed (payload : list (list N)) :
  Forall (fun l => phone_line l = true) payload ->
  map strip (List.filter (fun l => nonempty (strip l)) payload) = payload.
Proof.
  induction 1 as [|l ls Hl _ IH]; [done|].
  apply phone_line_inv in Hl as (_ & Hne & Hs).
  cbn [List.filter]. rewrite Hs. destruct l as [|c l]; [done|].
  cbn [nonempty map]. by rewrite Hs, IH.
Qed.

Lemma check_phones_ok (payload : list (list N)) (w : world) :
  Forall (fun l => phone_line l = true) payload ->
  _check_phones_in_request payload w = (inr true, set_phones payload w).
Proof.
  intros Hp. unfold _check_phones_in_request, bind, modify, get, ret. cbn.
  rewrite phones_fixed by done. by rewrite bool_decide_eq_true_2.
Qed.

Lemma payload_lines (payload : list (list N)) :
  Forall (fun l => phone_line l = true) payload ->
  Forall (fun l => one_line l = true) payload
  /\ Forall (fun l => 13 ∉ l) payload
  /\ Forall (fun l => l <> []) payload.
Proof.
  induction 1 as [|l ls Hl _ (IH1 & IH2 & IH3)]; [done|].
  apply phone_line_inv in Hl as (H1 & H2 & _).
  pose proof (one_line_inv l H1) as [? _]. repeat split; by constructor.
Qed.

Lemma request_payload (v : RequestVerbs) (inner : list N)
    (payload : list (list N)) :
  one_line inner = true ->
  Forall (fun l => phone_line l = true) payload ->
  List.filter nonempty (split CRLF (request_text v inner payload))
  = first_line_text v inner :: payload.
Proof.
  intros Hi Hp. destruct (payload_lines payload Hp) as (_ & Hcr & Hne).
  pose proof (one_line_inv _ (first_line_one_line v inner Hi)) as [Hf _].
  unfold request_text. rewrite split_request by (by constructor).
  rewrite List.filter_app, filter_nonempty_all
    by (constructor; [apply first_line_nonempty | done]).
  cbn [List.filter nonempty]. apply app_nil_r.
Qed.

Lemma first_line_search (v : RequestVerbs) (inner : list N) :
  name_run inner = true ->
  re_search (first_line_text v inner)
  = Some ((SP ++ inner ++ SP) ++ PROTOCOL, PROTOCOL).
Proof.
  unfold name_run. intros [_ Hs]%andb_true_iff.
  apply re_search_first_line; [apply verb_nonspace|].
  by destruct (strip inner).
Qed.

Lemma check_body_ok (v : RequestVerbs) (inner : list N)
    (payload : list (list N)) (w : world) :
  name_run inner = true ->
  Forall (fun l => phone_line l = true) payload ->
  (length inner <= ALLOWED_NAME_LENGTH)%nat ->
  _check_request_body (request_text v inner payload) w
  = (inr true, set_phones payload (set_name inner w)).
Proof.
  intros Hn Hp Hlen. pose proof Hn as [Hi _]%andb_true_iff.
  unfold _check_request_body. rewrite request_payload by done.
  replace (endswith (first_line_text v inner) (SP ++ PROTOCOL)) with true.
  2:{ symmetry. unfold first_line_text.
      rewrite !app_assoc, <- (app_assoc _ SP PROTOCOL). apply endswith_app. }
  rewrite no_breaks.
  2:{ constructor; [by apply first_line_one_line | by apply payload_lines]. }
  cbn [negb orb]. rewrite first_line_search by done.
  rewrite group_prefix. rewrite (slice_1_m1_wrapped 32 32).
  unfold bind, modify, get. cbn [self set_name name].
  apply Nat.leb_le in Hlen. rewrite Hlen.
  by rewrite check_phones_ok.
Qed.

Lemma check_body_long (v : RequestVerbs) (inner : list N)
    (payload : list (list N)) (w : world) :
  name_run inner = true ->
  Forall (fun l => phone_line l = true) payload ->
  (ALLOWED_NAME_LENGTH < length inner)%nat ->
  _check_request_body (request_text v inner payload) w
  = (inr false, set_name inner w).
Proof.
  intros Hn Hp Hlen. pose proof Hn as [Hi _]%andb_true_iff.
  unfold _check_request_body. rewrite request_payload by done.
  replace (endswith (first_line_text v inner) (SP ++ PROTOCOL)) with true.
  2:{ symmetry. unfold first_line_text.
      rewrite !app_assoc, <- (app_assoc _ SP PROTOCOL). apply endswith_app. }
  rewrite no_breaks.
  2:{ constructor; [by apply first_line_one_line | by apply payload_lines]. }
  cbn [negb orb]. rewrite first_line_search by done.
  rewrite group_prefix. rewrite (slice_1_m1_wrapped 32 32).
  unfold bind, modify, get. cbn [self set_name name].
  apply Nat.leb_gt in Hlen. by rewrite Hlen.
Qed.

(** The three tests [_is_valid_request] makes on the end of the text. *)
Lemma request_ending (v : RequestVerbs) (inner : list N)
    (payload : list (list N)) :
  one_line inner = true ->
  Forall (fun l => phone_line l = true) payload ->
  (endswith (request_text v inner payload) (SP ++ PROTOCOL ++ CRLFCRLF)
   || endswith (request_text v inner payload) CRLFCRLF)
  && negb (endswith (request_text v inner payload) (SP ++ CRLFCRLF))
  && Nat.eqb (count (request_text v inner payload) CRLFCRLF) 1 = true.
Proof.
  intros Hi Hp. destruct (payload_lines payload Hp) as (_ & Hcr & Hne).
  pose proof (one_line_inv _ (first_line_one_line v inner Hi)) as [Hf _].
  unfold request_text.
  rewrite endswith_app, orb_true_r.
  rewrite count_request by (done || by constructor).
  destruct (join_last_char CRLF (fun c => c <> 32) (first_line_text v inner :: payload))
    as (x & c & Hx & Hc); [done | |].
  { constructor.
    - exists (verb_value v ++ SP ++ inner ++ SP ++ removelast PROTOCOL), 48.
      split; [|done]. unfold first_line_text. by rewrite <- !app_assoc.
    - clear -Hp. induction Hp as [|l ls Hl _ IH]; constructor; [|done].
      apply phone_line_inv in Hl as (_ & ? & ?). by apply trimmed_last. }
  change SP with [32].
  rewrite Hx, <- app_assoc, (endswith_before x CRLFCRLF c 32) by done.
  reflexivity.
Qed.

Lemma valid_request_ok (v : RequestVerbs) (inner : list N)
    (payload : list (list N)) (w : world) :
  name_run inner = true ->
  Forall (fun l => phone_line l = true) payload ->
  (length inner <= ALLOWED_NAME_LENGTH)%nat ->
  _is_valid_request (request_text v inner payload) w
  = (inr true,
     set_name (strip inner)
       (set_phones payload (set_name inner (set_request_type v w)))).
Proof.
  intros Hn Hp Hlen. pose proof Hn as [Hi _]%andb_true_iff.
  unfold _is_valid_request.
  replace (find _ all_RequestVerbs) with (Some v).
  2:{ symmetry. unfold request_text.
      destruct payload as [|p ps]; cbn [join]; unfold first_line_text;
        rewrite <- !app_assoc; apply find_verb. }
  rewrite request_ending by done.
  unfold bind at 1. unfold modify at 1.
  unfold bind at 1. rewrite check_body_ok by done.
  reflexivity.
Qed.

Lemma valid_request_long (v : RequestVerbs) (inner : list N)
    (payload : list (list N)) (w : world) :
  name_run inner = true ->
  Forall (fun l => phone_line l = true) payload ->
  (ALLOWED_NAME_LENGTH < length inner)%nat ->
  _is_valid_request (request_text v inner payload) w
  = (inl CanNotParseRequestError, set_name inner (set_request_type v w)).
Proof.
  intros Hn Hp Hlen. pose proof Hn as [Hi _]%andb_true_iff.
  unfold _is_valid_request.
  replace (find _ all_RequestVerbs) with (Some v).
  2:{ symmetry. unfold request_text.
      destruct payload as [|p ps]; cbn [join]; unfold first_line_text;
        rewrite <- !app_assoc; apply find_verb. }
  rewrite request_ending by done.
  unfold bind at 1. unfold modify at 1.
  unfold bind at 1. rewrite check_body_long by done.
  reflexivity.
Qed.

(** On a request text the name of [request_name] is the run between the
    verb and the protocol token, trimmed. *)
Lemma request_name_text (v : RequestVerbs) (inner : list N)
    (payload : list (list N)) :
  name_run inner = true ->
  Forall (fun l => phone_line l = true) payload ->
  request_name (request_text v inner payload) = Some (strip inner).
Proof.
  intros Hn Hp. pose proof Hn as [Hi _]%andb_true_iff.
  destruct (payload_lines payload Hp) as (_ & Hcr & _).
  pose proof (one_line_inv _ (first_line_one_line v inner Hi)) as [Hf _].
  unfold request_name, first_line, request_text.
  rewrite split_request by (by constructor). cbn [app hd].
  rewrite first_line_search by done.
  by rewrite group_prefix, (slice_1_m1_wrapped 32 32).
Qed.

End ValidatorFacts.

(** ** What the validator leaves alone, and what it rejects *)

Module RejectFacts.

Import PyFacts RegexFacts NameFacts GrammarFacts ValidatorFacts.

Lemma check_phones_frame (payload : list (list N)) (w : world) :
  same_outside_self w (snd (_check_phones_in_request payload w)).
Proof. by repeat split. Qed.

Lemma check_body_frame (raw : list N) (w : world) :
  same_outside_self w (snd (_check_request_body raw w)).
Proof.
  unfold _check_request_body.
  destruct (List.filter nonempty (split CRLF raw)) as [|first rest];
    [by repeat split|].
  destruct (negb _ || _); [by repeat split|].
  destruct (re_search first); [|by repeat split].
  unfold bind, modify, get. cbn [self set_name name].
  destruct (Nat.leb _ _); by repeat split.
Qed.

Lemma valid_request_frame (raw : list N) (w : world) :
  same_outside_self w (snd (_is_valid_request raw w)).
Proof.
  unfold _is_valid_request.
  destruct (find _ _) as [v|]; [|by repeat split].
  destruct (_ && _); [|by repeat split].
  unfold bind at 1. unfold modify at 1. unfold bind at 1.
  pose proof (check_body_frame raw (set_request_type v w)) as Hf.
  destruct (_check_request_body raw (set_request_type v w)) as [[e|[]] w1];
    exact Hf.
Qed.

(** What the validator does once [_check_request_body] has answered. *)
Lemma valid_request_body (raw : list N) (w : world) (v : RequestVerbs) :
  find (fun v => startswith raw (verb_value v ++ SP)) all_RequestVerbs = Some v ->
  _check_request_body raw (set_request_type v w)
  = (inr false, snd (_check_request_body raw (set_request_type v w))) ->
  fst (_is_valid_request raw w) = inl CanNotParseRequestError.
Proof.
  intros Hv Hb. unfold _is_valid_request. rewrite Hv.
  destruct (_ && _); [|reflexivity].
  unfold bind at 1. unfold modify at 1. unfold bind at 1.
  by rewrite Hb.
Qed.

Lemma verb_first_char (v : RequestVerbs) (raw : list N) :
  startswith raw (verb_value v ++ SP) = true ->
  exists c raw', raw = c :: raw' /\ c <> 13.
Proof.
  intros [r ->]%startswith_inv. destruct v; cbn; eauto.
Qed.

Lemma request_payload_head (raw : list N) (c : N) (raw' : list N) :
  raw = c :: raw' -> c <> 13 ->
  List.filter nonempty (split CRLF raw)
  = first_line raw :: List.filter nonempty (tl (split CRLF raw)).
Proof.
  intros -> Hc. unfold first_line, CRLF.
  rewrite split_cons_other by done. reflexivity.
Qed.

(** A text whose first line does not end with the protocol token, whose
    name is too long or which holds the terminator twice is not a
    request. *)
Lemma valid_request_rejects (raw : list N) (w : world) :
  endswith (first_line raw) PROTOCOL = false
  \/ (exists n, request_name raw = Some n /\ (ALLOWED_NAME_LENGTH < length n)%nat)
  \/ (1 < count raw CRLFCRLF)%nat ->
  fst (_is_valid_request raw w) = inl CanNotParseRequestError.
Proof.
  intros Hbad.
  destruct (find (fun v => startswith raw (verb_value v ++ SP)) all_RequestVerbs)
    as [v|] eqn:Hv; [|unfold _is_valid_request; by rewrite Hv].
  destruct ((endswith raw (SP ++ PROTOCOL ++ CRLFCRLF) || endswith raw CRLFCRLF)
            && negb (endswith raw (SP ++ CRLFCRLF))
            && Nat.eqb (count raw CRLFCRLF) 1) eqn:Hend;
    [|unfold _is_valid_request; by rewrite Hv, Hend].
  apply (valid_request_body raw w v Hv).
  apply find_some in Hv as [_ Hv].
  destruct (verb_first_char v raw Hv) as (c & raw' & Hraw & Hc).
  unfold _check_request_body.
  rewrite (request_payload_head raw c raw') by done.
  destruct (negb (endswith (first_line raw) (SP ++ PROTOCOL)) || _) eqn:Hline;
    [reflexivity|].
  apply orb_false_iff in Hline as [Hline _]. apply negb_false_iff in Hline.
  destruct Hbad as [Hbad | [(n & Hn & Hlen) | Hbad]].
  - by rewrite (endswith_suffix _ SP PROTOCOL) in Hbad.
  - unfold request_name in Hn.
    destruct (re_search (first_line raw)) as [m|]; [|done].
    injection Hn as <-.
    unfold bind, modify, get. cbn [self set_name name].
    pose proof (strip_length (slice_1_m1 (group m))) as Hs.
    destruct (Nat.leb_spec (length (slice_1_m1 (group m))) ALLOWED_NAME_LENGTH);
      [lia | reflexivity].
  - apply andb_true_iff in Hend as [_ Hcount]. apply Nat.eqb_eq in Hcount. lia.
Qed.

End RejectFacts.

(** ** The file system *)

Module OsFacts.

Import Os CodecFacts PyFacts.

Lemma entry_insert_eq (fs : gmap (list (list N)) node) (q : list (list N)) (n : node) :
  q <> [] -> entry (<[q := n]> fs) q = Some n.
Proof. intros Hq. destruct q; [done|]. apply lookup_insert_eq. Qed.

Lemma entry_insert_ne (fs : gmap (list (list N)) node) (p q : list (list N)) (n : node) :
  p <> q -> entry (<[q := n]> fs) p = entry fs p.
Proof. intros Hq. destruct p; [done|]. by apply lookup_insert_ne. Qed.

Lemma entry_delete_eq (fs : gmap (list (list N)) node) (q : list (list N)) :
  q <> [] -> entry (delete q fs) q = None.
Proof. intros Hq. destruct q; [done|]. apply lookup_delete_eq. Qed.

Lemma entry_delete_ne (fs : gmap (list (list N)) node) (p q : list (list N)) :
  p <> q -> entry (delete q fs) p = entry fs p.
Proof. intros Hq. destruct p; [done|]. by apply lookup_delete_ne. Qed.

Lemma keeps_dirs_insert (fs : gmap (list (list N)) node) (q : list (list N)) (n : node) :
  entry fs q <> Some Dir -> keeps_dirs fs (<[q := n]> fs).
Proof.
  intros Hq p Hp. rewrite entry_insert_ne; [done|]. by intros ->.
Qed.

Lemma keeps_dirs_delete (fs : gmap (list (list N)) node) (q : list (list N)) :
  entry fs q <> Some Dir -> keeps_dirs fs (delete q fs).
Proof.
  intros Hq p Hp. rewrite entry_delete_ne; [done|]. by intros ->.
Qed.

Lemma keeps_dirs_trans (a b c : gmap (list (list N)) node) :
  keeps_dirs a b -> keeps_dirs b c -> keeps_dirs a c.
Proof. intros H1 H2 p Hp. auto. Qed.

(** Path resolution only looks at directories. *)
Lemma walk_keeps (fs fs' : gmap (list (list N)) node) (cs : list (list N)) :
  keeps_dirs fs fs' ->
  forall cur r, walk fs cur cs = inr r -> walk fs' cur cs = inr r.
Proof.
  intros Hk. induction cs as [|c cs IH]; intros cur r; cbn [walk]; [done|].
  destruct (entry fs cur) as [[|]|] eqn:E; try done.
  rewrite (Hk _ E). destruct (NAME_MAX <? length c)%nat; [done|]. apply IH.
Qed.

Lemma locate_keeps (fs fs' : gmap (list (list N)) node) (p : list N) (q : list (list N)) :
  keeps_dirs fs fs' -> locate fs p = inr q -> locate fs' p = inr q.
Proof.
  intros Hk. unfold locate. destruct (components p); [done|]. by apply walk_keeps.
Qed.

Lemma walk_app (fs : gmap (list (list N)) node) (a b : list (list N)) :
  forall cur,
    walk fs cur (a ++ b)
    = match walk fs cur a with
      | inr q => walk fs q b
      | inl e => inl e
      end.
Proof.
  induction a as [|c a IH]; intros cur; cbn [app walk]; [done|].
  destruct (entry fs cur) as [[|]|]; auto.
  destruct (NAME_MAX <? length c)%nat; auto.
Qed.

(** A path name with a slash at its end leads to a directory. *)
Lemma walk_last_empty (fs : gmap (list (list N)) node) (cs : list (list N))
    (cur q : list (list N)) :
  walk fs cur (cs ++ [[]]) = inr q -> entry fs q = Some Dir.
Proof.
  rewrite walk_app. destruct (walk fs cur cs) as [|r]; [done|].
  cbn [walk]. destruct (entry fs r) as [[|]|] eqn:E; try done.
  cbn. by intros [= <-].
Qed.

Lemma contains_app (a b : list N) (c : N) :
  contains (a ++ b) c = contains a c || contains b c.
Proof. unfold contains. apply existsb_app. Qed.

Lemma str_eqb_false (a b : list N) : str_eqb a b = false -> a <> b.
Proof. unfold str_eqb. apply bool_decide_eq_false. Qed.

Lemma str_eqb_ne (a b : list N) : a <> b -> str_eqb a b = false.
Proof. unfold str_eqb. apply bool_decide_eq_false. Qed.

(** *** The file-system encoding *)

(** What UTF-8 encodes, the file-system encoding encodes alike. *)
Lemma fsencode_char_utf8 (c : N) (b : list N) :
  utf8_encode_char c = Some b -> fsencode_char c = Some b.
Proof.
  unfold fsencode_char, utf8_encode_char, in_range. intros H.
  destruct (N.leb_spec 0xDC80 c), (N.leb_spec c 0xDCFF); cbn [andb]; try done.
  exfalso. revert H.
  destruct (N.ltb_spec c 0x80); [lia|]. destruct (N.ltb_spec c 0x800); [lia|].
  destruct (N.ltb_spec c 0x10000); [|lia].
  destruct (N.leb_spec 0xD800 c), (N.leb_spec c 0xDFFF); cbn [andb];
    try done; lia.
Qed.

Lemma fsencode_utf8 (s b : list N) :
  utf8_encode s = Some b -> fsencode s = Some b.
Proof.
  revert b. induction s as [|c s IH]; intros b; cbn [utf8_encode fsencode];
    [done|].
  destruct (utf8_encode_char c) as [bc|] eqn:Hc; [|done].
  destruct (utf8_encode s) as [r|]; [|done].
  intros [= <-]. by rewrite (fsencode_char_utf8 _ _ Hc), (IH r).
Qed.

Lemma fsencode_app (a b : list N) :
  fsencode (a ++ b)
  = match fsencode a, fsencode b with
    | Some x, Some y => Some (x ++ y)
    | _, _ => None
    end.
Proof.
  induction a as [|c a IH]; cbn [app fsencode].
  - by destruct (fsencode b).
  - rewrite IH. destruct (fsencode_char c), (fsencode a), (fsencode b);
      try done. by rewrite app_assoc.
Qed.

(** An ASCII character is in the encoded text where it is in the text. *)
Lemma utf8_char_ascii (c x : N) (b : list N) :
  utf8_encode_char c = Some b -> x < 128 -> contains b x = (x =? c).
Proof.
  unfold utf8_encode_char, contains. intros H Hx.
  destruct (N.ltb_spec c 0x80).
  { injection H as <-. cbn. apply orb_false_r. }
  assert (Hne : (x =? c) = false) by (apply N.eqb_neq; lia).
  rewrite Hne.
  destruct (N.ltb_spec c 0x800).
  { injection H as <-. cbn [existsb].
    repeat match goal with
    | |- context [x =? ?t] =>
      replace (x =? t) with false by (symmetry; apply N.eqb_neq; lia)
    end. reflexivity. }
  destruct (N.ltb_spec c 0x10000).
  { destruct (in_range 0xD800 0xDFFF c); [done|].
    injection H as <-. cbn [existsb].
    repeat match goal with
    | |- context [x =? ?t] =>
      replace (x =? t) with false by (symmetry; apply N.eqb_neq; lia)
    end. reflexivity. }
  destruct (N.ltb_spec c 0x110000); [|done].
  injection H as <-. cbn [existsb].
  repeat match goal with
  | |- context [x =? ?t] =>
    replace (x =? t) with false by (symmetry; apply N.eqb_neq; lia)
  end. reflexivity.
Qed.

Lemma utf8_ascii (s b : list N) (x : N) :
  utf8_encode s = Some b -> x < 128 -> contains b x = contains s x.
Proof.
  intros H Hx. revert b H.
  induction s as [|c s IH]; intros b; cbn [utf8_encode].
  - by intros [= <-].
  - destruct (utf8_encode_char c) as [bc|] eqn:Hc; [|done].
    destruct (utf8_encode s) as [r|]; [|done].
    intros [= <-]. rewrite contains_app, (utf8_char_ascii _ _ _ Hc Hx), (IH r eq_refl).
    reflexivity.
Qed.

(** *** Path names *)

Lemma pathname_inv (p b : list N) :
  pathname p = inr b ->
  fsencode p = Some b /\ contains b 0 = false
  /\ (length b < PATH_MAX)%nat.
Proof.
  unfold pathname. destruct (fsencode p) as [b'|]; [|done].
  destruct (contains b' 0) eqn:H0; [done|].
  destruct (Nat.leb_spec PATH_MAX (length b')); [done|].
  intros [= <-]. auto.
Qed.

Lemma locate_inv (fs : gmap (list (list N)) node) (p : list N)
    (q : list (list N)) :
  locate fs p = inr q ->
  exists b, pathname p = inr b /\ b <> []
            /\ walk fs [] (split slash b) = inr q.
Proof.
  unfold locate, components. destruct (pathname p) as [|b]; [done|].
  destruct b as [|c b]; [done|]. intros H. by exists (c :: b).
Qed.

Lemma locate_intro (fs : gmap (list (list N)) node) (p b : list N) :
  pathname p = inr b -> b <> [] ->
  locate fs p = walk fs [] (split slash b).
Proof.
  unfold locate, components. intros -> Hb. by destruct b.
Qed.

(** The bytes of a record's path name: those of the root, a slash, those
    of the name. *)
Lemma pathname_record (root n b : list N) :
  pathname (root ++ slash ++ n) = inr b ->
  exists br bn, fsencode root = Some br /\ fsencode n = Some bn
                /\ b = br ++ slash ++ bn.
Proof.
  intros (Hb & _)%pathname_inv. rewrite !fsencode_app in Hb.
  destruct (fsencode root) as [br|]; [|done].
  change (fsencode slash) with (Some slash) in Hb.
  destruct (fsencode n) as [bn|]; [|done].
  injection Hb as <-. by exists br, bn.
Qed.

(** A component that names an entry of its directory. *)
Lemma step_plain (cur : list (list N)) (c : list N) :
  c <> [] -> c <> dot -> c <> dotdot -> step cur c = cur ++ [c].
Proof.
  intros H0 H1 H2. unfold step.
  by rewrite !str_eqb_ne.
Qed.

(** Where a record lies: in the directory the root resolves to, under the
    bytes of its own name. *)
Lemma locate_record (fs : gmap (list (list N)) node) (root n b bn : list N)
    (q : list (list N)) :
  locate fs root = inr q -> entry fs q = Some Dir ->
  pathname (root ++ slash ++ n) = inr b -> fsencode n = Some bn ->
  bn <> [] -> contains bn 47 = false -> bn <> dot -> bn <> dotdot ->
  (length bn <= NAME_MAX)%nat ->
  locate fs (root ++ slash ++ n) = inr (q ++ [bn]).
Proof.
  intros (br & Hbr & Hne & Hwalk)%locate_inv Hq Hb Hn H0 Hsl H1 H2 Hlen.
  destruct (pathname_record _ _ _ Hb) as (br' & bn' & Hr' & Hn' & ->).
  apply pathname_inv in Hbr as (Hfr & _).
  assert (br' = br) as -> by congruence.
  assert (bn' = bn) as -> by congruence.
  rewrite (locate_intro _ _ _ Hb) by (by destruct br).
  unfold slash in *. rewrite split_char_app, walk_app, Hwalk.
  rewrite (split_none 47 []) by (by apply contains_false).
  cbn [walk]. rewrite Hq.
  destruct (Nat.ltb_spec NAME_MAX (length bn)); [lia|].
  by rewrite step_plain.
Qed.

(** A path name that leads to a place where nothing is has no slash at
    its end. *)
Lemma endswith_snoc (s : list N) :
  endswith s slash = true -> exists s', s = s' ++ slash.
Proof.
  intros H. apply endswith_inv in H as [s' ->]. by exists s'.
Qed.

Lemma locate_nothing_no_slash (fs : gmap (list (list N)) node) (p : list N)
    (q : list (list N)) :
  locate fs p = inr q -> entry fs q = None -> endswith p slash = false.
Proof.
  intros (b & Hb & Hne & Hwalk)%locate_inv Hq.
  destruct (endswith p slash) eqn:He; [|done].
  apply endswith_snoc in He as [p' ->].
  apply pathname_inv in Hb as (Hb & _). rewrite fsencode_app in Hb.
  destruct (fsencode p') as [b'|]; [|done].
  change (fsencode slash) with (Some slash) in Hb. injection Hb as <-.
  unfold slash in Hwalk. rewrite <- (app_nil_r [47]) in Hwalk at 2.
  rewrite (split_char_app 47 b' []) in Hwalk.
  change (split [47] []) with [@nil N] in Hwalk.
  apply walk_last_empty in Hwalk. congruence.
Qed.

Lemma drop_slashes_id (p : list N) :
  p <> [] -> endswith p slash = false -> drop_slashes p = p.
Proof.
  intros Hne He. unfold drop_slashes.
  destruct p as [|c p _] using rev_ind; [done|].
  rewrite rev_app_distr. cbn [rev app dropwhile].
  destruct (N.eqb_spec 47 c) as [<-|Hc].
  { by rewrite endswith_app in He. }
  change (c :: rev p) with (rev [c] ++ rev p).
  rewrite <- rev_app_distr, rev_involutive. by destruct p.
Qed.

Lemma locate_nonempty (fs : gmap (list (list N)) node) (p : list N)
    (q : list (list N)) :
  locate fs p = inr q -> p <> [].
Proof. intros H ->. done. Qed.

(** Making the directory a path name leads to, where nothing is yet. *)
Lemma mkdir_nothing (fs : gmap (list (list N)) node) (p : list N)
    (q : list (list N)) :
  locate fs p = inr q -> entry fs q = None ->
  mkdir fs p = inr (<[q := Dir]> fs).
Proof.
  intros Hloc Hq. unfold mkdir.
  destruct (locate_inv _ _ _ Hloc) as (b & -> & _).
  rewrite drop_slashes_id, Hloc, Hq; [done| |].
  - by eapply locate_nonempty.
  - by eapply locate_nothing_no_slash.
Qed.

End OsFacts.

(** ** Text files *)

Module StoreFacts.

Import CodecFacts PyFacts GrammarFacts.

(** *** Reading back what was written *)

Lemma universal_newlines_line (l rest : list N) :
  13 ∉ l -> universal_newlines (l ++ rest) = l ++ universal_newlines rest.
Proof.
  induction l as [|c l IH]; intros Hl; [done|].
  apply not_elem_of_cons in Hl as [Hc Hl]. cbn [app universal_newlines].
  apply N.eqb_neq in Hc. rewrite N.eqb_sym in Hc. rewrite Hc. by rewrite IH.
Qed.

Lemma universal_newlines_crlf (rest : list N) :
  universal_newlines (CRLF ++ rest) = 10 :: universal_newlines rest.
Proof. reflexivity. Qed.

Lemma keepends_line (l rest : list N) :
  10 ∉ l -> keepends (l ++ 10 :: rest) = (l ++ [10]) :: keepends rest.
Proof.
  induction l as [|c l IH]; intros Hl; [done|].
  apply not_elem_of_cons in Hl as [Hc Hl]. cbn [app keepends].
  apply N.eqb_neq in Hc. rewrite N.eqb_sym in Hc. rewrite Hc. by rewrite IH.
Qed.

Lemma keepends_last (l : list N) : 10 ∉ l -> l <> [] -> keepends l = [l].
Proof.
  induction l as [|c l IH]; intros Hl Hne; [done|].
  apply not_elem_of_cons in Hl as [Hc Hl]. cbn [keepends].
  apply N.eqb_neq in Hc. rewrite N.eqb_sym in Hc. rewrite Hc.
  destruct l as [|d l']; [done|]. by rewrite IH.
Qed.

Lemma readlines_join (P : list (list N)) :
  Forall (fun l => phone_line l = true) P ->
  map strip (readlines (join CRLF P)) = P.
Proof.
  unfold readlines. induction 1 as [|p ps Hp Hps IH]; [done|].
  apply phone_line_inv in Hp as (Hl & Hne & Hs).
  apply one_line_inv in Hl as [Hcr Hlf].
  destruct ps as [|p' ps'].
  - cbn [join]. rewrite <- (app_nil_r p) at 1.
    rewrite universal_newlines_line by done. cbn [universal_newlines].
    rewrite app_nil_r, keepends_last by done. cbn [map]. by rewrite Hs.
  - rewrite join_cons, universal_newlines_line, universal_newlines_crlf by done.
    rewrite keepends_line by done. cbn [map]. rewrite IH.
    by rewrite strip_snoc_space, Hs.
Qed.

(** *** Texts that can be encoded *)

Lemma encode_char_scalar (c : N) :
  scalar c = true -> exists b, utf8_encode_char c = Some b.
Proof.
  unfold scalar, utf8_encode_char, in_range. intros H.
  destruct (N.ltb_spec c 0x80); [eauto|].
  destruct (N.ltb_spec c 0x800); [eauto|].
  destruct (N.ltb_spec c 0xD800), (N.ltb_spec 0xDFFF c), (N.ltb_spec c 0x110000);
    cbn [andb orb] in H; try discriminate;
    destruct (N.ltb_spec c 0x10000);
    destruct (N.leb_spec 0xD800 c), (N.leb_spec c 0xDFFF);
    cbn [andb]; eauto; lia.
Qed.

Lemma encode_scalar (s : list N) :
  forallb scalar s = true -> exists b, utf8_encode s = Some b.
Proof.
  induction s as [|c s IH]; [by exists []|].
  cbn [forallb utf8_encode]. intros [Hc Hs]%andb_true_iff.
  destruct (encode_char_scalar c Hc) as [b ->].
  destruct (IH Hs) as [r ->]. eauto.
Qed.

Lemma scalar_join (P : list (list N)) :
  Forall (fun l => forallb scalar l = true) P ->
  forallb scalar (join CRLF P) = true.
Proof.
  induction 1 as [|p ps Hp _ IH]; [done|].
  destruct ps as [|p' ps']; [done|].
  rewrite join_cons, !forallb_app, Hp, IH. reflexivity.
Qed.

End StoreFacts.

(** ** The record store *)

Module CrudFacts.

Import CodecFacts PyFacts GrammarFacts OsFacts StoreFacts.

Lemma plain_name_inv (n : list N) :
  plain_name n = true ->
  nonempty n = true /\ contains n 47 = false /\ contains n 0 = false
  /\ Os.str_eqb n Os.dot = false /\ Os.str_eqb n Os.dotdot = false.
Proof.
  unfold plain_name.
  intros [[[[[H1 H2]%andb_true_iff H0]%andb_true_iff H3]%andb_true_iff
            H4]%andb_true_iff _]%andb_true_iff.
  apply negb_true_iff in H0, H2, H3, H4. done.
Qed.

(** The bytes of a plain name are one component that names an entry. *)
Lemma plain_name_bytes (n : list N) :
  plain_name n = true ->
  exists bn,
    utf8_encode n = Some bn /\ Os.fsencode n = Some bn
    /\ bn <> [] /\ contains bn 47 = false /\ contains bn 0 = false
    /\ bn <> Os.dot /\ bn <> Os.dotdot
    /\ (length bn <= Os.NAME_MAX)%nat.
Proof.
  intros H. pose proof (plain_name_inv n H) as (Hne & Hsl & Hnul & Hdot & Hdd).
  unfold plain_name in H. apply andb_true_iff in H as [_ H].
  destruct (utf8_encode n) as [bn|] eqn:He; [|done].
  apply Nat.leb_le in H. exists bn.
  pose proof (utf8_decode_encode _ _ He) as Hd.
  split; [done|]. split; [by apply fsencode_utf8|].
  split; [intros ->; by injection Hd as <-|].
  split; [by rewrite (utf8_ascii n)|].
  split; [by rewrite (utf8_ascii n)|].
  split; [intros ->; injection Hd as <-; done|].
  split; [intros ->; injection Hd as <-; done|]. done.
Qed.

(** UTF-8 gives different names different bytes. *)
Lemma utf8_encode_inj (a b x : list N) :
  utf8_encode a = Some x -> utf8_encode b = Some x -> a = b.
Proof.
  intros Ha%utf8_decode_encode Hb%utf8_decode_encode. congruence.
Qed.

Lemma snoc_ne {A} (q : list A) (x : A) : q ++ [x] <> q.
Proof.
  intros H. apply (f_equal (@length A)) in H. rewrite length_app in H. simpl in H. lia.
Qed.

Lemma snoc_nonnil {A} (q : list A) (x : A) : q ++ [x] <> [].
Proof. by destruct q. Qed.

Lemma record_path_no_slash (a n : list N) :
  nonempty n = true -> contains n 47 = false ->
  endswith (a ++ Os.slash ++ n) Os.slash = false.
Proof.
  intros Hne Hsl. destruct n as [|c n _] using rev_ind; [done|].
  apply contains_false in Hsl. rewrite !app_assoc.
  apply (endswith_last _ [] c 47). intros ->. apply Hsl.
  apply elem_of_app. right. by left.
Qed.

(** What [store_ready] says. *)
Lemma store_ready_inv (fs : gmap (list (list N)) Os.node) (root n : list N) :
  store_ready fs root n = true ->
  exists q b bn,
    Os.locate fs root = inr q /\ Os.pathname (root ++ Os.slash ++ n) = inr b
    /\ Os.fsencode n = Some bn
    /\ (Os.entry fs q = Some Os.Dir \/ Os.entry fs q = None)
    /\ Os.entry fs (q ++ [bn]) <> Some Os.Dir.
Proof.
  unfold store_ready.
  destruct (Os.locate fs root) as [|q]; [done|].
  destruct (Os.pathname _) as [|b]; [done|].
  destruct (Os.fsencode n) as [bn|]; [|done].
  intros H. exists q, b, bn. repeat split.
  - destruct (Os.entry fs q) as [[|]|]; auto. done.
  - destruct (Os.entry fs q) as [[|]|]; try done;
      by destruct (Os.entry fs (q ++ [bn])) as [[|]|].
Qed.

(** The record of a plain name lies in the directory of the phonebook. *)
Lemma locate_plain_record (fs : gmap (list (list N)) Os.node)
    (root n b bn : list N) (q : list (list N)) :
  plain_name n = true -> Os.fsencode n = Some bn ->
  Os.locate fs root = inr q -> Os.entry fs q = Some Os.Dir ->
  Os.pathname (root ++ Os.slash ++ n) = inr b ->
  Os.locate fs (root ++ Os.slash ++ n) = inr (q ++ [bn]).
Proof.
  intros (bn' & _ & Hf & H0 & Hsl & _ & H1 & H2 & Hlen)%plain_name_bytes Hn
    Hroot Hq Hb.
  assert (bn' = bn) as -> by congruence.
  by apply (locate_record fs root n b bn q).
Qed.

(** The state of the disk after a successful [_write_phones]. *)
Lemma write_phones_ok (w : world) (content : list N) :
  plain_name (name (self w)) = true ->
  store_ready (disk w) (path_to_phonebook (self w)) (name (self w)) = true ->
  utf8_encode (join CRLF (phones (self w))) = Some content ->
  exists w1,
    _write_phones w = (inr (response_line OK ++ CRLFCRLF), w1)
    /\ self w1 = self w /\ client_out w1 = client_out w
    /\ upstream_out w1 = upstream_out w
    /\ Os.stat (disk w1) (record_path (self w)) = inr (Os.File content)
    /\ Os.open_r (disk w1) (record_path (self w)) = inr content.
Proof.
  intros Hplain Hready Henc.
  pose proof (plain_name_inv _ Hplain) as (Hne & Hsl & Hnul & Hdot & Hdd).
  apply store_ready_inv in Hready
    as (q & b & bn & Hroot & Hb & Hbn & Hq & Hnd0).
  set (n := name (self w)) in *. set (q' := q ++ [bn]) in *.
  assert (Hfinal : forall fs1,
    Os.locate fs1 (record_path (self w)) = inr q' ->
    Os.entry fs1 q' <> Some Os.Dir ->
    let fs2 := <[q' := Os.File content]> (<[q' := Os.File []]> fs1) in
    Os.open_w fs1 (record_path (self w)) = inr (q', <[q' := Os.File []]> fs1)
    /\ Os.stat fs2 (record_path (self w)) = inr (Os.File content)
    /\ Os.open_r fs2 (record_path (self w)) = inr content).
  { intros fs1 Hloc Hnd fs2.
    assert (Hloc2 : Os.locate fs2 (record_path (self w)) = inr q').
    { apply (locate_keeps fs1); [|done].
      apply (keeps_dirs_trans _ (<[q' := Os.File []]> fs1)).
      - by apply keeps_dirs_insert.
      - apply keeps_dirs_insert. by rewrite entry_insert_eq by apply snoc_nonnil. }
    unfold Os.open_w, Os.stat, Os.open_r.
    unfold record_path at 1 2. fold n. rewrite Hb.
    rewrite record_path_no_slash by done.
    fold (record_path (self w)). rewrite Hloc, Hloc2.
    subst fs2. rewrite entry_insert_eq by apply snoc_nonnil.
    destruct (Os.entry fs1 q') as [[|]|]; done. }
  unfold _write_phones, bind, get, _is_path_exists, os_call, modify, encode, ret.
  unfold Os.stat at 1. cbn [self disk log_call set_disk fst snd]. rewrite Hroot.
  destruct Hq as [Hq|Hq]; rewrite Hq.
  - (* the directory is there *)
    assert (Hloc : Os.locate (disk w) (record_path (self w)) = inr q')
      by (by apply (locate_plain_record _ _ _ b)).
    edestruct (Hfinal (disk w)) as (Ho & Hs & Hr); [done | done |].
    cbn [self disk log_call set_disk]. rewrite Ho.
    cbn [fst snd self disk log_call set_disk]. rewrite Henc.
    eexists. split; [reflexivity|]. cbn [self disk client_out upstream_out].
    done.
  - (* the directory is made first *)
    rewrite (mkdir_nothing _ _ q) by done.
    cbn [self disk log_call set_disk].
    assert (Hq_ne : q <> []) by (intros ->; done).
    assert (Hloc : Os.locate (<[q := Os.Dir]> (disk w)) (record_path (self w)) = inr q').
    { apply (locate_plain_record _ _ _ b); try done.
      - apply (locate_keeps (disk w)); [|done].
        apply keeps_dirs_insert. by rewrite Hq.
      - by apply entry_insert_eq. }
    assert (Hnd : Os.entry (<[q := Os.Dir]> (disk w)) q' <> Some Os.Dir).
    { by rewrite entry_insert_ne by apply snoc_ne. }
    edestruct (Hfinal (<[q := Os.Dir]> (disk w))) as (Ho & Hs & Hr); [done | done |].
    rewrite Ho. cbn [fst snd self disk log_call set_disk]. rewrite Henc.
    eexists. split; [reflexivity|]. cbn [self disk client_out upstream_out]. done.
Qed.

Lemma read_phones_absent (w : world) (e : Os.error) :
  Os.stat (disk w) (record_path (self w)) = inl e ->
  _read_phones w
  = (inr (response_line NOT_FOUND ++ CRLFCRLF),
     log_call (Stat (record_path (self w))) w).
Proof.
  intros H. unfold _read_phones, bind, get, _is_path_exists, ret.
  cbn [self log_call]. by rewrite H.
Qed.

Lemma read_phones_found (w : world) (content text : list N) :
  Os.open_r (disk w) (record_path (self w)) = inr content ->
  utf8_decode content = Some text ->
  _read_phones w
  = (inr (response_line OK ++ CRLF
          ++ join CRLF (map strip (readlines text)) ++ CRLFCRLF),
     log_call (OpenR (record_path (self w)))
       (log_call (Stat (record_path (self w))) w)).
Proof.
  intros Hr Hd.
  assert (Hs : Os.stat (disk w) (record_path (self w)) = inr (Os.File content)).
  { unfold Os.open_r, Os.stat in *.
    destruct (Os.locate _ _); [done|].
    by destruct (Os.entry _ _) as [[|]|]; simplify_eq. }
  unfold _read_phones, bind, get, _is_path_exists, os_call, decode, ret.
  cbn [self disk log_call]. rewrite Hs. cbn [negb self disk log_call].
  rewrite Hr, Hd. reflexivity.
Qed.

Lemma delete_file_absent (w : world) (e : Os.error) :
  Os.stat (disk w) (record_path (self w)) = inl e ->
  _delete_file w
  = (inr (response_line NOT_FOUND ++ CRLFCRLF),
     log_call (Stat (record_path (self w))) w).
Proof.
  intros H. unfold _delete_file, bind, get, _is_path_exists, ret.
  cbn [self log_call]. by rewrite H.
Qed.

Lemma delete_file_found (w : world) (content : list N) :
  Os.open_r (disk w) (record_path (self w)) = inr content ->
  exists w1,
    _delete_file w = (inr (response_line OK ++ CRLFCRLF), w1)
    /\ self w1 = self w /\ client_out w1 = client_out w
    /\ Os.stat (disk w1) (record_path (self w)) = inl Os.FileNotFoundError.
Proof.
  intros Hr. unfold Os.open_r in Hr.
  destruct (Os.locate (disk w) (record_path (self w))) as [|q] eqn:Hloc; [done|].
  destruct (Os.entry (disk w) q) as [[|c]|] eqn:Hq; try done.
  assert (Hq_ne : q <> []) by (intros ->; done).
  unfold _delete_file, bind, get, _is_path_exists, os_call, modify, ret.
  unfold Os.stat at 1, Os.remove. cbn [self disk log_call set_disk].
  rewrite Hloc, Hq. cbn [negb self disk log_call set_disk].
  rewrite Hloc, Hq.
  eexists. split; [reflexivity|]. cbn [self disk client_out set_disk log_call].
  repeat split. unfold Os.stat.
  rewrite (locate_keeps (disk w) _ _ q); [|by apply keeps_dirs_delete; rewrite Hq|done].
  by rewrite entry_delete_eq.
Qed.

End CrudFacts.

(** ** Running a connection *)

Module ConnectionFacts.

Import CodecFacts PyFacts ValidatorFacts RejectFacts.

Lemma utf8_encode_app (a b : list N) :
  utf8_encode (a ++ b)
  = match utf8_encode a, utf8_encode b with
    | Some x, Some y => Some (x ++ y)
    | _, _ => None
    end.
Proof.
  induction a as [|c a IH]; cbn [app utf8_encode].
  - by destruct (utf8_encode b).
  - rewrite IH. destruct (utf8_encode_char c), (utf8_encode a), (utf8_encode b);
      try reflexivity. by rewrite app_assoc.
Qed.

Lemma response_if_exception_run (w : world) :
  _response_if_exception w
  = (inr tt, to_client Closed (to_client (Written incorrect_response) w)).
Proof. reflexivity. Qed.

Lemma write_and_close_run (response b : list N) (w : world) :
  utf8_encode response = Some b ->
  _write_and_close response w
  = (inr tt, to_client Closed (to_client (Written b) w)).
Proof.
  intros H. unfold _write_and_close, bind, encode, modify, ret. by rewrite H.
Qed.

(** A connection whose request does not pass the validator. *)
Lemma handle_echo_invalid (client : reader) (auth : authority) (w : world)
    (data message : list N) :
  _receiving_data client = Returned data ->
  utf8_decode data = Some message ->
  fst (_is_valid_request message w) = inl CanNotParseRequestError ->
  handle_echo client auth w
  = _response_if_exception (snd (_is_valid_request message w)).
Proof.
  intros Hrx Hdec Hbad.
  unfold handle_echo, try_except, bind at 1 2 3, wait_for, decode.
  rewrite Hrx. unfold ret at 1. rewrite Hdec. unfold ret at 1.
  destruct (_is_valid_request message w) as [[e|b] w1]; cbn [fst snd] in *;
    [|done].
  by injection Hbad as ->.
Qed.

(** A connection whose request passes the validator and whose validation
    server answers with a decodable reply. *)
Lemma handle_echo_answered (client r : reader) (w w1 : world)
    (data message reply verdict : list N) (b : bool) :
  _receiving_data client = Returned data ->
  utf8_decode data = Some message ->
  _is_valid_request message w = (inr b, w1) ->
  _receiving_data r = Returned reply ->
  utf8_decode reply = Some verdict ->
  exists env,
    utf8_encode (envelope message) = Some env
    /\ handle_echo client (Connected r) w
       = try_except (on_server_response verdict) caught _response_if_exception
           (to_upstream Closed (to_upstream (Written env) w1)).
Proof.
  intros Hrx Hdec Hval Hrx' Hdec'.
  pose proof (utf8_encode_decode _ _ Hdec) as Henc.
  assert (Henv : exists env, utf8_encode (envelope message) = Some env).
  { unfold envelope. rewrite !utf8_encode_app, Henc. by eexists. }
  destruct Henv as [env Henv]. exists env. split; [done|].
  unfold handle_echo, try_except.
  unfold bind at 1. unfold wait_for. rewrite Hrx. unfold ret at 1.
  unfold bind at 1. unfold decode at 1. rewrite Hdec. unfold ret at 1.
  unfold bind at 1. rewrite Hval.
  unfold bind at 1. unfold _tcp_echo_client, try_except.
  fold (envelope message).
  unfold bind at 1. unfold encode. rewrite Henv. unfold ret at 1.
  unfold bind at 1. unfold modify at 1.
  unfold bind at 1. unfold wait_for. rewrite Hrx'. unfold ret at 1.
  unfold bind at 1. unfold decode at 1. rewrite Hdec'. unfold ret at 1.
  unfold bind at 1. unfold modify at 1. unfold ret at 1.
  unfold bind at 1. unfold decode at 1. rewrite Hdec'. unfold ret at 1.
  reflexivity.
Qed.

(** An allowed request is executed. *)
Lemma on_server_response_allowed (verdict : list N) (w : world) :
  startswith verdict (validation_value ALLOWED ++ SP) = true ->
  on_server_response verdict w
  = bind get (fun s => bind (crud_dict (request_type s)) _write_and_close) w.
Proof.
  intros H. unfold on_server_response. cbn [existsb all_ValidationWords].
  rewrite H. cbn [negb]. by rewrite orb_true_r.
Qed.

End ConnectionFacts.

(** ** The frame reader *)

Module FrameFacts.

Import PyFacts.

Lemma receiving_loop_goes_on (cs rest : list (list N)) (e : stream_end)
    (data : list N) :
  Forall goes_on cs ->
  receiving_loop (cs ++ rest) e data
  = receiving_loop rest e (data ++ concat cs).
Proof.
  intros H. revert data. induction H as [|c cs (Hne & t & Hd & He) _ IH];
    intros data.
  - by rewrite app_nil_r.
  - cbn [app receiving_loop concat]. destruct c as [|b c]; [done|].
    rewrite Hd, He, IH. by rewrite app_assoc.
Qed.

(** The source closes: all that was read is returned. *)
Lemma receiving_data_eof (cs : list (list N)) :
  Forall goes_on cs -> _receiving_data (Reader cs Eof) = Returned (concat cs).
Proof.
  intros H. unfold _receiving_data. cbn [chunks ending].
  rewrite <- (app_nil_r cs) at 1. by rewrite receiving_loop_goes_on.
Qed.

(** A chunk ends with the terminator: all that was read up to it is
    returned. *)
Lemma receiving_data_terminated (cs rest : list (list N)) (c t : list N)
    (e : stream_end) :
  Forall goes_on cs -> utf8_decode c = Some t ->
  endswith t CRLFCRLF = true ->
  _receiving_data (Reader (cs ++ c :: rest) e) = Returned (concat cs ++ c).
Proof.
  intros H Hd He. unfold _receiving_data. cbn [chunks ending].
  rewrite receiving_loop_goes_on by done. cbn [receiving_loop app].
  rewrite Hd, He. by destruct c.
Qed.

(** Neither happens before the deadline: the read is still pending, and
    [wait_for] raises. *)
Lemma receiving_data_silent (cs : list (list N)) :
  Forall goes_on cs -> _receiving_data (Reader cs Silent) = Pending.
Proof.
  intros H. unfold _receiving_data. cbn [chunks ending].
  rewrite <- (app_nil_r cs) at 1. by rewrite receiving_loop_goes_on.
Qed.

Lemma wait_for_pending {A} (w : world) :
  wait_for (@Pending A) w = (inl TimeoutError, w).
Proof. reflexivity. Qed.

(** A chunk that ends inside a character cannot be decoded: the loop
    raises. *)
Example split_character_raises :
  _receiving_data
    (Reader [Scenario.octets "ОТДОВАЙ Iva" ++ [0xD0];
             [0xBD] ++ Scenario.octets " РКСОК/1.0" ++ CRLFCRLF] Silent)
  = Raised UnicodeDecodeError.
Proof. vm_compute. reflexivity. Qed.

End FrameFacts.

(** ** The outcome of a connection *)

Module OutcomeFacts.

Import CodecFacts PyFacts RejectFacts ConnectionFacts.

Lemma quiet_bind {A B} (m : M A) (k : A -> M B) :
  quiet m -> (forall a, quiet (k a)) -> quiet (bind m k).
Proof.
  intros Hm Hk w. unfold bind. specialize (Hm w).
  destruct (m w) as [[e|a] w1]; cbn [snd] in *; [done|].
  by rewrite Hk.
Qed.

Lemma quiet_ret {A} (a : A) : quiet (ret a).
Proof. done. Qed.

Lemma quiet_raise {A} (e : exn) : quiet (@raise A e).
Proof. done. Qed.

Lemma quiet_get : quiet get.
Proof. done. Qed.

Lemma quiet_modify (f : world -> world) :
  (forall w, client_out (f w) = client_out w) -> quiet (modify f).
Proof. intros H w. apply H. Qed.

Lemma quiet_os_call {A} (c : fs_call)
    (f : gmap (list (list N)) Os.node -> Os.error + A) :
  quiet (os_call c f).
Proof. intros w. unfold os_call. by destruct (f (disk w)). Qed.

Lemma quiet_try {A} (m h : M A) (c : exn -> bool) :
  quiet m -> quiet h -> quiet (try_except m c h).
Proof.
  intros Hm Hh w. unfold try_except. specialize (Hm w).
  destruct (m w) as [[e|a] w1]; cbn [snd] in *; [|done].
  destruct (c e); [by rewrite Hh | done].
Qed.

Lemma quiet_decode (b : list N) : quiet (decode b).
Proof. unfold decode. destruct (utf8_decode b); done. Qed.

Lemma quiet_encode (s : list N) : quiet (encode s).
Proof. unfold encode. destruct (utf8_encode s); done. Qed.

Lemma quiet_wait_for {A} (o : outcome A) : quiet (wait_for o).
Proof. by destruct o. Qed.

Lemma quiet_is_path_exists (p : list N) : quiet (_is_path_exists p).
Proof. done. Qed.

Ltac quiet :=
  repeat first
    [ apply quiet_ret | apply quiet_raise | apply quiet_get
    | apply quiet_os_call | apply quiet_decode | apply quiet_encode
    | apply quiet_wait_for | apply quiet_is_path_exists
    | apply quiet_modify; intros; reflexivity
    | apply quiet_bind; [|intros]
    | match goal with |- quiet (if ?b then _ else _) => destruct b end ].

Lemma quiet_crud (v : RequestVerbs) : quiet (crud_dict v).
Proof. destruct v; cbn [crud_dict]; quiet. Qed.

Lemma quiet_tcp_echo_client (auth : authority) (m : list N) :
  quiet (_tcp_echo_client auth m).
Proof.
  unfold _tcp_echo_client. apply quiet_try; [|quiet].
  destruct auth; quiet.
Qed.

Lemma quiet_valid_request (raw : list N) : quiet (_is_valid_request raw).
Proof. intros w. by destruct (valid_request_frame raw w) as (_ & _ & ? & _). Qed.

Lemma answers_once_bind {A B} (m : M A) (k : A -> M B) :
  quiet m -> (forall a, answers_once (k a)) -> answers_once (bind m k).
Proof.
  intros Hm Hk w. unfold bind. specialize (Hm w).
  destruct (m w) as [[e|a] w1]; cbn [snd] in *; [done|].
  specialize (Hk a w1). destruct (k a w1) as [[e|b] w2]; by rewrite <- Hm.
Qed.

Lemma answers_once_raise {A} (e : exn) : answers_once (@raise A e).
Proof. done. Qed.

Lemma answers_once_write_and_close (response : list N) :
  answers_once (_write_and_close response).
Proof.
  intros w. unfold _write_and_close, bind, encode, modify.
  destruct (utf8_encode response) as [b|]; cbn; [|done].
  exists b. by rewrite <- app_assoc.
Qed.

Lemma answers_once_on_server_response (verdict : list N) :
  answers_once (on_server_response verdict).
Proof.
  unfold on_server_response.
  destruct (existsb _ _); [|apply answers_once_raise].
  destruct (negb _); [apply answers_once_write_and_close|].
  apply answers_once_bind; [apply quiet_get|]. intros s.
  apply answers_once_bind; [apply quiet_crud|]. intros r.
  apply answers_once_write_and_close.
Qed.

(** Every connection is either answered exactly once and then closed, or
    ends in an exception [handle_echo] does not catch, with nothing
    written. *)
Lemma connection_outcome (client : reader) (auth : authority) (w : world) :
  match handle_echo client auth w with
  | (inr _, w') => exists b, client_out w' = client_out w ++ [Written b; Closed]
  | (inl e, w') => caught e = false /\ client_out w' = client_out w
  end.
Proof.
  unfold handle_echo, try_except.
  match goal with |- context [match ?m w with _ => _ end] =>
    assert (Hbody : answers_once m) end.
  { apply answers_once_bind; [apply quiet_wait_for|]. intros data.
    apply answers_once_bind; [apply quiet_decode|]. intros message.
    apply answers_once_bind; [apply quiet_valid_request|]. intros _.
    apply answers_once_bind; [apply quiet_tcp_echo_client|]. intros reply.
    apply answers_once_bind; [apply quiet_decode|]. intros verdict.
    apply answers_once_on_server_response. }
  specialize (Hbody w).
  match goal with |- context [match ?m w with _ => _ end] =>
    destruct (m w) as [[e|[]] w1] end; [|done].
  destruct (caught e) eqn:He; [|done].
  rewrite response_if_exception_run. cbn [client_out to_client].
  exists incorrect_response. by rewrite Hbody, <- app_assoc.
Qed.

(** Each failure [handle_echo] catches gets the one fixed response. *)
Lemma caught_failure_answered (client : reader) (auth : authority)
    (w : world) :
  (_receiving_data client = Pending
   \/ (exists data message,
         _receiving_data client = Returned data
         /\ utf8_decode data = Some message
         /\ (fst (_is_valid_request message w) = inl CanNotParseRequestError
             \/ (fst (_is_valid_request message w) = inr true
                 /\ (auth = Refused
                     \/ (exists r, auth = Connected r
                                   /\ _receiving_data r = Pending)
                     \/ (exists r reply verdict,
                           auth = Connected r
                           /\ _receiving_data r = Returned reply
                           /\ utf8_decode reply = Some verdict
                           /\ existsb (fun v => startswith verdict
                                                  (validation_value v ++ SP))
                                all_ValidationWords = false)))))) ->
  exists w',
    handle_echo client auth w = (inr tt, w')
    /\ client_out w' = client_out w ++ [Written incorrect_response; Closed].
Proof.
  intros Hcase.
  unfold handle_echo, try_except, bind at 1.
  destruct Hcase as [Hp | (data & message & Hrx & Hdec & Hcase)].
  { rewrite Hp. cbn. eexists. split; [reflexivity|]. cbn.
    by rewrite <- app_assoc. }
  rewrite Hrx. unfold wait_for, ret at 1, bind at 1, decode at 1.
  rewrite Hdec. unfold ret at 1, bind at 1.
  pose proof (quiet_valid_request message w) as Hq.
  destruct (_is_valid_request message w) as [[e|b] w1]; cbn [fst snd] in *.
  { destruct Hcase as [[= ->] | [[=] _]]. cbn [caught].
    rewrite response_if_exception_run. eexists. split; [reflexivity|].
    cbn [client_out to_client]. by rewrite Hq, <- app_assoc. }
  destruct Hcase as [[=] | [_ Hcase]].
  pose proof (utf8_encode_decode _ _ Hdec) as Henc.
  assert (Henv : exists env, utf8_encode (envelope message) = Some env).
  { unfold envelope. rewrite !utf8_encode_app, Henc. by eexists. }
  destruct Henv as [env Henv].
  unfold bind at 1, _tcp_echo_client, try_except.
  destruct Hcase as [-> | [(r & -> & Hp) | (r & reply & verdict & -> & Hr & Hd & Hv)]].
  - cbn. eexists. split; [reflexivity|]. cbn. by rewrite Hq, <- app_assoc.
  - fold (envelope message). unfold bind at 1, encode. rewrite Henv.
    unfold ret at 1, bind at 1, modify at 1, bind at 1. rewrite Hp.
    cbn. eexists. split; [reflexivity|]. cbn. by rewrite Hq, <- app_assoc.
  - fold (envelope message). unfold bind at 1, encode. rewrite Henv.
    unfold ret at 1, bind at 1, modify at 1, bind at 1. rewrite Hr.
    unfold wait_for, ret at 1, bind at 1, decode at 1. rewrite Hd.
    unfold ret at 1, bind at 1, modify at 1, ret at 1.
    unfold bind at 1, decode at 1. rewrite Hd. unfold ret at 1.
    unfold on_server_response. rewrite Hv. cbn.
    eexists. split; [reflexivity|]. cbn. by rewrite Hq, <- app_assoc.
Qed.

(** Bytes that are not UTF-8 end the connection without an answer. *)
Example undecodable_request_escapes :
  let r := handle_echo (Scenario.sends ([0xFF] ++ CRLFCRLF))
             (Scenario.answers Scenario.allowed_reply)
             (Scenario.world_on Scenario.empty_book) in
  fst r = inl UnicodeDecodeError /\ client_out (snd r) = [].
Proof. split; vm_compute; reflexivity. Qed.

End OutcomeFacts.

(** * Properties of the server *)

(** Closed statements about scenarios are settled by evaluation. *)
Ltac evaluate :=
  intros; repeat split;
  match goal with
  | |- @eq (gmap _ _) _ _ =>
    apply (bool_decide_unpack _); vm_compute; exact I
  | |- _ <> _ => vm_compute; discriminate
  | |- _ => vm_compute; reflexivity
  end.

Import CodecFacts PyFacts RegexFacts NameFacts GrammarFacts ValidatorFacts RejectFacts
  OsFacts StoreFacts CrudFacts ConnectionFacts FrameFacts OutcomeFacts Scenario.

(** ** C1: store, then retrieve

    C1, as amended.  Let [n] be a name of 1 to 30 characters, none of them
    a control character, that is a plain file name: no slash, neither [.]
    nor [..], made of characters UTF-8 encodes (no lone surrogate), and so
    of at most 120 bytes, within the 255 a file name may have.  Let [P]
    be a non-empty list of phone lines: each one line, not empty, equal to
    its trimmed form, made of characters UTF-8 encodes.  On a disk where
    the phonebook directory exists or can be made, the system takes the
    path name of the record (the file-system encoding encodes it, and it
    is shorter than 4096 bytes), and no directory is in the place of the
    record, [_write_phones] with name [n] and phones [P] returns the OK
    response, and [_read_phones] run afterwards returns the OK response
    that carries exactly the lines of [P], in order, joined by CR LF. *)
Theorem store_then_retrieve (w : world) (n : list N) (P : list (list N)) :
  (1 <= length n <= ALLOWED_NAME_LENGTH)%nat ->
  forallb (fun c => negb (control c)) n = true ->
  plain_name n = true ->
  P <> [] ->
  Forall (fun l => phone_line l = true) P ->
  Forall (fun l => forallb scalar l = true) P ->
  store_ready (disk w) (path_to_phonebook (self w)) n = true ->
  exists w1 w2,
    _write_phones (set_phones P (set_name n w))
    = (inr (response_line OK ++ CRLFCRLF), w1)
    /\ name (self w1) = n
    /\ _read_phones w1
       = (inr (response_line OK ++ CRLF ++ join CRLF P ++ CRLFCRLF), w2).
Proof.
  intros _ _ Hplain _ Hlines Hscalar Hready.
  destruct (encode_scalar _ (scalar_join P Hscalar)) as [content Henc].
  destruct (write_phones_ok (set_phones P (set_name n w)) content)
    as (w1 & Hw & Hself & _ & _ & _ & Hopen); try done.
  exists w1. eexists. split; [exact Hw|]. split; [by rewrite Hself|].
  rewrite (read_phones_found w1 content (join CRLF P)).
  - by rewrite readlines_join.
  - by rewrite Hself.
  - by apply utf8_decode_encode.
Qed.

(** The round trip on a fresh disk, for the record [Ivan] with two
    phones. *)
Lemma store_then_retrieve_witness :
  exists w1 w2,
    _write_phones
      (set_phones [lit "+7123"; lit "+7456"]
         (set_name (lit "Ivan") (world_on fresh_disk)))
    = (inr (response_line OK ++ CRLFCRLF), w1)
    /\ name (self w1) = lit "Ivan"
    /\ _read_phones w1
       = (inr (response_line OK ++ CRLF
               ++ join CRLF [lit "+7123"; lit "+7456"] ++ CRLFCRLF), w2).
Proof.
  apply (store_then_retrieve (world_on fresh_disk) (lit "Ivan")
           [lit "+7123"; lit "+7456"]).
  - vm_compute. lia.
  - reflexivity.
  - reflexivity.
  - discriminate.
  - repeat constructor.
  - repeat constructor.
  - reflexivity.
Defined.

(** C1 as stated fails for the one-character name [.]: its path is the
    phonebook directory itself, [open] raises [IsADirectoryError], and
    neither the store nor the retrieve after it returns a response. *)
Lemma store_dot_counterexample :
  let w := set_phones [lit "1"] (set_name (lit ".") (world_on fresh_disk)) in
  (length (lit ".") = 1%nat
   /\ forallb (fun c => negb (control c)) (lit ".") = true
   /\ phone_line (lit "1") = true)
  /\ fst (_write_phones w) = inl (StorageError Os.IsADirectoryError)
  /\ fst (_read_phones (snd (_write_phones w)))
     = inl (StorageError Os.IsADirectoryError).
Proof. evaluate. Qed.

(** ** C2: one response per connection

    C2 at its failing input.  The request [ЗОПИШИ РКСОК/1.0] followed by
    the terminator has no name between the verb and the protocol token:
    the regular expression finds no match, [assert name is not None]
    raises [AssertionError], which [handle_echo] does not catch; nothing
    is written to the client and the transport is not closed.  (The four
    failures [handle_echo] does catch get the fixed response:
    [OutcomeFacts.caught_failure_answered]; every connection that does
    not end in an uncaught exception is answered exactly once and closed:
    [OutcomeFacts.connection_outcome].) *)
Theorem blank_name_connection_unanswered :
  let request := octets "ЗОПИШИ РКСОК/1.0" ++ CRLFCRLF in
  let w' := snd (handle_echo (sends request) (answers allowed_reply)
                   (world_on empty_book)) in
  utf8_decode request = Some (lit "ЗОПИШИ РКСОК/1.0" ++ CRLFCRLF)
  /\ fst (handle_echo (sends request) (answers allowed_reply)
            (world_on empty_book)) = inl AssertionError
  /\ client_out w' = [].
Proof. evaluate. Qed.

(** ** C3: a forbidden verdict is relayed

    C3.  When the request of the client passes the validator and the
    reply of the validation server decodes to a text that begins with
    [НИЛЬЗЯ] and a space, [handle_echo] writes exactly the bytes of that
    reply to the client, closes, and makes no call into the file system:
    the disk and the log of file-system calls are unchanged. *)
Theorem forbidden_verdict_relayed (client r : reader) (w w1 : world)
    (data message reply verdict : list N) :
  _receiving_data client = Returned data ->
  utf8_decode data = Some message ->
  _is_valid_request message w = (inr true, w1) ->
  _receiving_data r = Returned reply ->
  utf8_decode reply = Some verdict ->
  startswith verdict (validation_value FORBIDDEN ++ SP) = true ->
  exists w',
    handle_echo client (Connected r) w = (inr tt, w')
    /\ client_out w' = client_out w ++ [Written reply; Closed]
    /\ disk w' = disk w
    /\ calls w' = calls w.
Proof.
  intros Hrx Hdec Hval Hrx' Hdec' Hno.
  destruct (handle_echo_answered client r w w1 data message reply verdict true)
    as (env & _ & ->); try done.
  pose proof (valid_request_frame message w) as Hframe.
  rewrite Hval in Hframe. unfold same_outside_self in Hframe.
  cbn [snd] in Hframe. destruct Hframe as (Hd & Hc & Ho & _ & _).
  apply startswith_inv in Hno as [rest ->].
  unfold try_except, on_server_response.
  replace (existsb _ all_ValidationWords) with true by reflexivity.
  replace (negb _) with true by reflexivity.
  rewrite (write_and_close_run _ reply) by (by apply utf8_encode_decode).
  eexists. split; [reflexivity|].
  cbn [client_out disk calls to_client to_upstream].
  rewrite Ho, Hd, Hc, <- app_assoc. done.
Qed.

(** A delete request for [Ivan], forbidden. *)
Lemma forbidden_verdict_relayed_witness :
  exists w',
    handle_echo
      (sends (octets "УДОЛИ Ivan РКСОК/1.0" ++ CRLFCRLF))
      (answers forbidden_reply) (world_on empty_book)
    = (inr tt, w')
    /\ client_out w' = [] ++ [Written forbidden_reply; Closed]
    /\ disk w' = empty_book
    /\ calls w' = [].
Proof.
  eapply (forbidden_verdict_relayed
            (sends (octets "УДОЛИ Ivan РКСОК/1.0" ++ CRLFCRLF))
            (Reader [forbidden_reply] Eof) (world_on empty_book)).
  - reflexivity.
  - reflexivity.
  - reflexivity.
  - reflexivity.
  - reflexivity.
  - reflexivity.
Defined.

(** ** C4: the verdict vocabulary

    C4 at its failing input.  The loop over [ValidationWords] also accepts
    the query word [АМОЖНА?] of the envelope: a reply that begins with it
    is neither allowed nor forbidden, yet it is not rejected as
    unparsable; it is relayed to the client like a forbidden verdict, and
    the client does not get the incorrect-request response.  (A reply that
    begins with none of the three words does get it:
    [OutcomeFacts.caught_failure_answered].) *)
Theorem query_word_reply_relayed :
  let request := octets "ОТДОВАЙ Ivan РКСОК/1.0" ++ CRLFCRLF in
  let r := handle_echo (sends request) (answers query_reply)
             (world_on empty_book) in
  fst r = inr tt
  /\ client_out (snd r) = [Written query_reply; Closed]
  /\ query_reply <> incorrect_response.
Proof. evaluate. Qed.

(** ** C5: the frame reader

    C5 at its failing input.  The terminator arrives split across two
    chunks: the first chunk ends with CR LF, the second is CR LF.  The
    buffer then ends with CR LF CR LF, but [_receiving_data] tests the
    last chunk only, reads on, and the read ends in the timeout of
    [wait_for].  (What the loop does return, and when:
    [FrameFacts.receiving_data_eof], [FrameFacts.receiving_data_terminated],
    [FrameFacts.receiving_data_silent].) *)
Theorem split_terminator_not_seen :
  let first := octets "ОТДОВАЙ Ivan РКСОК/1.0" ++ CRLF in
  let r := Reader [first; CRLF] Silent in
  endswith (concat (chunks r)) CRLFCRLF = true
  /\ _receiving_data r = Pending
  /\ fst (wait_for (_receiving_data r) (world_on empty_book))
     = inl TimeoutError.
Proof. evaluate. Qed.

(** ** C6: rejected requests

    C6, as amended.  Let the client's frame decode to a text whose first
    line does not end with the protocol token, or on whose first line the
    grammar finds a name that is, trimmed, longer than 30 characters, or
    in which the terminator occurs more than once when its occurrences
    are counted from the left without overlap, as [str.count] counts
    them.  Then the validator raises [CanNotParseRequestError], the
    client gets the incorrect-request response and the connection is
    closed, and the disk and the log of file-system calls are
    unchanged. *)
Theorem malformed_request_rejected (client : reader) (auth : authority)
    (w : world) (data message : list N) :
  _receiving_data client = Returned data ->
  utf8_decode data = Some message ->
  endswith (first_line message) PROTOCOL = false
  \/ (exists n, request_name message = Some n
                /\ (ALLOWED_NAME_LENGTH < length n)%nat)
  \/ (1 < count message CRLFCRLF)%nat ->
  fst (_is_valid_request message w) = inl CanNotParseRequestError
  /\ exists w',
       handle_echo client auth w = (inr tt, w')
       /\ client_out w' = client_out w ++ [Written incorrect_response; Closed]
       /\ disk w' = disk w
       /\ calls w' = calls w.
Proof.
  intros Hrx Hdec Hbad.
  pose proof (valid_request_rejects message w Hbad) as Hrej.
  split; [exact Hrej|].
  rewrite (handle_echo_invalid client auth w data message) by done.
  rewrite response_if_exception_run.
  destruct (valid_request_frame message w) as (Hd & Hc & Ho & _ & _).
  eexists. split; [reflexivity|].
  cbn [client_out disk calls to_client].
  rewrite Ho, Hd, Hc, <- app_assoc. done.
Qed.

(** A request with the wrong protocol version. *)
Lemma malformed_request_rejected_witness :
  fst (_is_valid_request (lit "ЗОПИШИ Ivan РКСОК/2.0" ++ CRLFCRLF)
         (world_on empty_book)) = inl CanNotParseRequestError
  /\ exists w',
       handle_echo (sends (octets "ЗОПИШИ Ivan РКСОК/2.0" ++ CRLFCRLF))
         (answers allowed_reply) (world_on empty_book) = (inr tt, w')
       /\ client_out w' = [] ++ [Written incorrect_response; Closed]
       /\ disk w' = empty_book
       /\ calls w' = [].
Proof.
  apply (malformed_request_rejected
           (sends (octets "ЗОПИШИ Ivan РКСОК/2.0" ++ CRLFCRLF))
           (answers allowed_reply) (world_on empty_book)
           (octets "ЗОПИШИ Ivan РКСОК/2.0" ++ CRLFCRLF)).
  - reflexivity.
  - reflexivity.
  - left. reflexivity.
Defined.

(** C6 as stated fails for a store request that ends with three CR LF.
    The terminator is in its text twice, at the offsets 21 and 23; the
    two occurrences overlap and [str.count] finds one.  The first line
    ends with the protocol token and the name has four characters.  The
    validator accepts the request and, the validation server allowing it,
    the record is written. *)
Lemma overlapping_terminator_counterexample :
  let request := octets "ЗОПИШИ Ivan РКСОК/1.0" ++ CRLFCRLF ++ CRLF in
  let text := lit "ЗОПИШИ Ivan РКСОК/1.0" ++ CRLFCRLF ++ CRLF in
  let r := handle_echo (sends request) (answers allowed_reply)
             (world_on empty_book) in
  utf8_decode request = Some text
  /\ (startswith (drop 21 text) CRLFCRLF = true
      /\ startswith (drop 23 text) CRLFCRLF = true)
  /\ count text CRLFCRLF = 1%nat
  /\ endswith (first_line text) PROTOCOL = true
  /\ request_name text = Some (lit "Ivan")
  /\ fst (_is_valid_request text (world_on empty_book)) = inr true
  /\ fst r = inr tt
  /\ client_out (snd r) = [Written ok_response; Closed]
  /\ Os.open_r empty_book (phonebook ++ Os.slash ++ lit "Ivan")
     = inl Os.FileNotFoundError
  /\ Os.open_r (disk (snd r)) (phonebook ++ Os.slash ++ lit "Ivan") = inr [].
Proof. evaluate. Qed.

(** ** C7: the name and its length bound

    C7, as amended.  In a request text whose first line is the verb, one
    space, the run [inner], one space and the protocol token, where
    [inner] is one line and holds a visible character, and whose payload
    lines are phone lines, the validator accepts exactly when [inner]
    itself, before trimming, has at most 30 characters; the name of the
    accepted request is [inner] trimmed. *)
Theorem name_bound_before_trimming (v : RequestVerbs) (inner : list N)
    (payload : list (list N)) (w : world) :
  name_run inner = true ->
  Forall (fun l => phone_line l = true) payload ->
  let r := _is_valid_request (request_text v inner payload) w in
  fst r = (if Nat.leb (length inner) ALLOWED_NAME_LENGTH
           then inr true else inl CanNotParseRequestError)
  /\ ((length inner <= ALLOWED_NAME_LENGTH)%nat ->
      name (self (snd r)) = strip inner
      /\ request_type (self (snd r)) = v
      /\ phones (self (snd r)) = payload).
Proof.
  intros Hn Hp r. subst r.
  destruct (Nat.leb_spec (length inner) ALLOWED_NAME_LENGTH) as [Hle|Hgt].
  - rewrite valid_request_ok by done. done.
  - rewrite valid_request_long by done. split; [done|]. lia.
Qed.

(** A two-word name with some white space around and inside it. *)
Lemma name_bound_before_trimming_witness :
  let r := _is_valid_request
             (request_text WRITE (lit "  Ivan   Petrov ") [lit "+7123"])
             (world_on empty_book) in
  fst r = inr true
  /\ name (self (snd r)) = lit "Ivan   Petrov"
  /\ request_type (self (snd r)) = WRITE
  /\ phones (self (snd r)) = [lit "+7123"].
Proof.
  destruct (name_bound_before_trimming WRITE (lit "  Ivan   Petrov ")
              [lit "+7123"] (world_on empty_book)) as [Hf Hs].
  - reflexivity.
  - repeat constructor.
  - split; [exact Hf|]. apply Hs. vm_compute. lia.
Defined.

(** C7 as stated fails: with two spaces after the verb, a name of 30
    characters makes a run of 31, and the request is rejected although
    the name trims to 30 characters. *)
Lemma padded_name_counterexample :
  let inner := SP ++ repeat 97 30 in
  let r := _is_valid_request (request_text GET inner []) (world_on empty_book) in
  (name_run inner = true
   /\ length (strip inner) = 30%nat)
  /\ fst r = inl CanNotParseRequestError.
Proof. evaluate. Qed.

(** ** C8: delete

    C8, as amended.  For every name: when nothing exists at the path of
    its record, [_delete_file] returns the not-found response and leaves
    the disk as it is; when a regular file exists there, [_delete_file]
    returns the OK response, the file is gone, and [_read_phones] run
    afterwards returns the not-found response. *)
Theorem delete_semantics (w : world) :
  (forall e, Os.stat (disk w) (record_path (self w)) = inl e ->
     fst (_delete_file w) = inr (response_line NOT_FOUND ++ CRLFCRLF)
     /\ disk (snd (_delete_file w)) = disk w)
  /\ (forall content,
        Os.open_r (disk w) (record_path (self w)) = inr content ->
        exists w1 w2,
          _delete_file w = (inr (response_line OK ++ CRLFCRLF), w1)
          /\ Os.stat (disk w1) (record_path (self w))
             = inl Os.FileNotFoundError
          /\ _read_phones w1
             = (inr (response_line NOT_FOUND ++ CRLFCRLF), w2)).
Proof.
  split.
  - intros e He. by rewrite (delete_file_absent w e He).
  - intros content Hc.
    destruct (delete_file_found w content Hc) as (w1 & Hdel & Hself & _ & Hgone).
    exists w1. eexists. split; [exact Hdel|]. split; [exact Hgone|].
    apply (read_phones_absent w1 Os.FileNotFoundError). by rewrite Hself.
Qed.

(** Deleting [Ivan] from an empty phonebook, and from one that holds
    it. *)
Lemma delete_semantics_witness :
  (fst (_delete_file (set_name (lit "Ivan") (world_on empty_book)))
   = inr (response_line NOT_FOUND ++ CRLFCRLF))
  /\ exists w1 w2,
       _delete_file (set_name (lit "Ivan") (world_on ivan_disk))
       = (inr (response_line OK ++ CRLFCRLF), w1)
       /\ Os.stat (disk w1) (lit "/srv/rksok_phonebook/Ivan")
          = inl Os.FileNotFoundError
       /\ _read_phones w1 = (inr (response_line NOT_FOUND ++ CRLFCRLF), w2).
Proof.
  split.
  - apply (proj1 (delete_semantics (set_name (lit "Ivan") (world_on empty_book)))
             Os.FileNotFoundError).
    reflexivity.
  - apply (proj2 (delete_semantics (set_name (lit "Ivan") (world_on ivan_disk)))
             (octets "+7123")).
    reflexivity.
Defined.

(** C8 as stated fails for the name [.]: no record of that name exists
    (its path is the phonebook directory), yet [_delete_file] does not
    return the not-found response: [os.remove] raises
    [IsADirectoryError]. *)
Lemma delete_dot_counterexample :
  let w := set_name (lit ".") (world_on empty_book) in
  Os.open_r (disk w) (record_path (self w)) = inl Os.IsADirectoryError
  /\ fst (_delete_file w) = inl (StorageError Os.IsADirectoryError).
Proof. evaluate. Qed.

(** ** C9: paths outside the phonebook

    C9.  The path of a record is the phonebook path, a slash and the name,
    concatenated; the grammar accepts the name [../stray]; and an accepted
    and authorized store, retrieve and delete of that name write, read and
    remove the file [/srv/stray], which is not under the phonebook
    directory [/srv/rksok_phonebook]. *)
Theorem record_path_leaves_phonebook :
  (forall s, record_path s = path_to_phonebook s ++ Os.slash ++ name s)
  /\ (let book := [lit "srv"; lit "rksok_phonebook"] in
      let outside := [lit "srv"; lit "stray"] in
      let store :=
        handle_echo
          (sends (octets "ЗОПИШИ ../stray РКСОК/1.0" ++ CRLF
                  ++ octets "+7123" ++ CRLFCRLF))
          (answers allowed_reply) (world_on empty_book) in
      let retrieve :=
        handle_echo (sends (octets "ОТДОВАЙ ../stray РКСОК/1.0" ++ CRLFCRLF))
          (answers allowed_reply) (snd store) in
      let delete :=
        handle_echo (sends (octets "УДОЛИ ../stray РКСОК/1.0" ++ CRLFCRLF))
          (answers allowed_reply) (snd retrieve) in
      Os.locate empty_book phonebook = inr book
      /\ under book outside = false
      /\ name (self (snd store)) = lit "../stray"
      /\ client_out (snd store) = [Written ok_response; Closed]
      /\ disk (snd store) !! outside = Some (Os.File (octets "+7123"))
      /\ client_out (snd retrieve)
         = [Written ok_response; Closed;
            Written (octets "НОРМАЛДЫКС РКСОК/1.0" ++ CRLF ++ octets "+7123"
                     ++ CRLFCRLF);
            Closed]
      /\ disk (snd delete) !! outside = None
      /\ disk (snd delete) = empty_book).
Proof.
  split; [reflexivity|]. evaluate.
Qed.

(** ** C10: a store without phones

    C10, as amended.  The payload check answers yes to an empty payload
    and leaves an empty list of phones; so a store request that is just a
    well-formed first line and the terminator passes the validator, with
    an empty list of phones, whatever its name.  When, further, the name
    is a plain file name, the disk is ready for the record and the
    validation server allows the request, a server that serves this
    connection in one piece, with no other connection served in between,
    writes a record file with empty content and answers with the OK
    response. *)
Theorem empty_payload_stored (client r : reader) (w : world)
    (data reply verdict inner : list N) :
  name_run inner = true ->
  (length inner <= ALLOWED_NAME_LENGTH)%nat ->
  _check_phones_in_request [] w = (inr true, set_phones [] w)
  /\ (exists w1,
        _is_valid_request (request_text WRITE inner []) w = (inr true, w1)
        /\ request_type (self w1) = WRITE
        /\ name (self w1) = strip inner
        /\ phones (self w1) = [])
  /\ (plain_name (strip inner) = true ->
      store_ready (disk w) (path_to_phonebook (self w)) (strip inner) = true ->
      _receiving_data client = Returned data ->
      utf8_decode data = Some (request_text WRITE inner []) ->
      _receiving_data r = Returned reply ->
      utf8_decode reply = Some verdict ->
      startswith verdict (validation_value ALLOWED ++ SP) = true ->
      exists w',
        handle_echo client (Connected r) w = (inr tt, w')
        /\ phones (self w') = []
        /\ Os.open_r (disk w')
             (path_to_phonebook (self w) ++ Os.slash ++ strip inner) = inr []
        /\ client_out w' = client_out w ++ [Written ok_response; Closed]).
Proof.
  intros Hn Hlen.
  pose proof (valid_request_ok WRITE inner [] w Hn (List.Forall_nil _) Hlen)
    as Hval.
  split; [reflexivity|]. split.
  { eexists. split; [exact Hval|]. done. }
  intros Hplain Hready Hrx Hdec Hrx' Hdec' Hyes.
  destruct (handle_echo_answered client r w _ data _ reply verdict true
              Hrx Hdec Hval Hrx' Hdec') as (env & _ & ->).
  set (w2 := to_upstream Closed (to_upstream (Written env) _)).
  destruct (write_phones_ok w2 []) as (w3 & Hw & Hself & Hout & _ & _ & Hopen);
    try done.
  unfold try_except. rewrite on_server_response_allowed by done.
  unfold bind at 1, get. cbn [self w2 to_upstream set_name set_phones
    set_request_type request_type crud_dict].
  unfold bind at 1. fold w2. rewrite Hw.
  rewrite (write_and_close_run _ ok_response) by reflexivity.
  eexists. split; [reflexivity|].
  cbn [self disk client_out to_client]. rewrite Hself, Hout.
  cbn [self w2 to_upstream set_name set_phones set_request_type phones
    client_out]. rewrite <- app_assoc. done.
Qed.

(** A store of [Ivan] without phones on a fresh disk. *)
Lemma empty_payload_stored_witness :
  (exists w1,
     _is_valid_request (request_text WRITE (lit "Ivan") [])
       (world_on fresh_disk) = (inr true, w1)
     /\ request_type (self w1) = WRITE
     /\ name (self w1) = strip (lit "Ivan")
     /\ phones (self w1) = [])
  /\ exists w',
       handle_echo (sends (octets "ЗОПИШИ Ivan РКСОК/1.0" ++ CRLFCRLF))
         (Connected (Reader [allowed_reply] Eof)) (world_on fresh_disk)
       = (inr tt, w')
       /\ phones (self w') = []
       /\ Os.open_r (disk w')
            (path_to_phonebook (self (world_on fresh_disk)) ++ Os.slash
             ++ strip (lit "Ivan")) = inr []
       /\ client_out w'
          = client_out (world_on fresh_disk) ++ [Written ok_response; Closed].
Proof.
  destruct (empty_payload_stored
              (sends (octets "ЗОПИШИ Ivan РКСОК/1.0" ++ CRLFCRLF))
              (Reader [allowed_reply] Eof) (world_on fresh_disk)
              (octets "ЗОПИШИ Ivan РКСОК/1.0" ++ CRLFCRLF) allowed_reply
              (lit "МОЖНА РКСОК/1.0" ++ CRLFCRLF) (lit "Ivan"))
    as (_ & Hvalid & Hstored).
  - reflexivity.
  - vm_compute. lia.
  - split; [exact Hvalid|]. apply Hstored; reflexivity.
Defined.

(** C10 as stated fails for the name [.]: the request has no payload
    lines, passes the validator and is allowed, but no file is written
    and no response is sent: [open] raises [IsADirectoryError]. *)
Lemma empty_payload_dot_counterexample :
  let r := handle_echo (sends (octets "ЗОПИШИ . РКСОК/1.0" ++ CRLFCRLF))
             (answers allowed_reply) (world_on empty_book) in
  utf8_decode (octets "ЗОПИШИ . РКСОК/1.0" ++ CRLFCRLF)
  = Some (request_text WRITE (lit ".") [])
  /\ fst (_is_valid_request (request_text WRITE (lit ".") [])
            (world_on empty_book)) = inr true
  /\ fst r = inl (StorageError Os.IsADirectoryError)
  /\ client_out (snd r) = []
  /\ disk (snd r) = empty_book.
Proof. evaluate. Qed.

(** * Further facts *)

Import More.

(** ** What a match of the regular expression is made of *)

Module MatchFacts.

(** What a successful match has consumed. *)
Lemma plus_class_inv (p : N -> bool) (k : matcher) (s r : list N) :
  plus_class p k s = Some r ->
  exists run s', s = run ++ s' /\ run <> [] /\ forallb p run = true
                 /\ k s' = Some r.
Proof.
  induction s as [|c s IH]; cbn [plus_class]; [done|].
  destruct (p c) eqn:Hc; [|done].
  destruct (plus_class p k s) as [r'|] eqn:Hs.
  - intros [= ->]. destruct (IH eq_refl) as (run & s' & -> & _ & Hrun & Hk).
    exists (c :: run), s'. cbn [forallb]. by rewrite Hc, Hrun.
  - intros Hk. exists [c], s. cbn [forallb]. by rewrite Hc.
Qed.

Lemma tokens_inv (f : nat) :
  forall s r, tokens f s = Some r ->
    exists t, s = t ++ r /\ token_run t /\ startswith r PROTOCOL = true.
Proof.
  induction f as [|f IH]; intros s r; [done|].
  unfold tokens. cbn [plus_group].
  change (plus_group f token (lookahead PROTOCOL)) with (tokens f).
  unfold token.
  intros (tok & s1 & -> & Htok & Hns & H1)%plus_class_inv.
  apply plus_class_inv in H1 as (ws & s2 & -> & Hws & Hsp & H2).
  destruct (tokens f s2) as [r'|] eqn:Hmore.
  - injection H2 as ->. destruct (IH _ _ Hmore) as (t & -> & Ht & Hr).
    exists (tok ++ ws ++ t). rewrite <- !app_assoc. split; [done|].
    split; [by constructor | done].
  - unfold lookahead in H2. destruct (startswith s2 PROTOCOL) eqn:Hl; [|done].
    injection H2 as ->. exists (tok ++ ws). rewrite <- app_assoc.
    split; [done|]. split; [by constructor | done].
Qed.

Lemma search_inv (m : matcher) (s a r : list N) :
  search m s = Some (a, r) -> exists pre, s = pre ++ a /\ m a = Some r.
Proof.
  induction s as [|c s IH]; cbn [search].
  - destruct (m []) eqn:E; [|done]. intros [= <- <-]. by exists [].
  - destruct (m (c :: s)) eqn:E.
    + intros [= <- <-]. by exists [].
    + intros (pre & -> & Hm)%IH. by exists (c :: pre).
Qed.

(** A match of the server's pattern: white space, a run of tokens, and the
    protocol token next. *)
Lemma re_search_inv (s a r : list N) :
  re_search s = Some (a, r) ->
  exists pre ws t,
    s = pre ++ ws ++ t ++ r /\ a = ws ++ t ++ r
    /\ ws <> [] /\ forallb isspace ws = true /\ token_run t
    /\ startswith r PROTOCOL = true.
Proof.
  unfold re_search. intros (pre & -> & Hm)%search_inv.
  unfold pattern in Hm.
  apply plus_class_inv in Hm as (ws & s1 & -> & Hws & Hsp & Ht).
  apply tokens_inv in Ht as (t & -> & Ht & Hr).
  by exists pre, ws, t.
Qed.

Lemma token_run_shape (t : list N) :
  token_run t ->
  exists c t0 d, t = c :: t0 ++ [d] /\ isspace c = false /\ isspace d = true.
Proof.
  assert (Hone : forall tok ws r : list N,
    tok <> [] -> forallb nonspace tok = true ->
    exists c tok', tok = c :: tok' /\ isspace c = false).
  { intros [|c tok'] _ _ Hne Hall; [done|]. exists c, tok'. split; [done|].
    cbn in Hall. apply andb_true_iff in Hall as [Hc _].
    by apply negb_true_iff in Hc. }
  assert (Hend : forall ws : list N,
    ws <> [] -> forallb isspace ws = true ->
    exists ws' d, ws = ws' ++ [d] /\ isspace d = true).
  { intros ws Hne Hall. destruct ws as [|d ws' _] using rev_ind; [done|].
    exists ws', d. split; [done|]. rewrite forallb_app in Hall.
    apply andb_true_iff in Hall as [_ Hd]. cbn in Hd. by destruct (isspace d). }
  induction 1 as [tok ws Htok Hns Hws Hsp | tok ws t Htok Hns Hws Hsp Ht IH].
  - destruct (Hone tok ws [] Htok Hns) as (c & tok' & -> & Hc).
    destruct (Hend ws Hws Hsp) as (ws' & d & -> & Hd).
    exists c, (tok' ++ ws'), d. by rewrite <- !app_assoc.
  - destruct (Hone tok ws [] Htok Hns) as (c & tok' & -> & Hc).
    destruct IH as (c' & t0 & d & -> & _ & Hd).
    exists c, (tok' ++ ws ++ c' :: t0), d.
    split; [|done]. cbn. by rewrite <- !app_assoc.
Qed.

End MatchFacts.

Import MatchFacts.

(** ** Trimming, and what the validator has checked *)

Module TrimFacts.

Lemma lstrip_suffix (x : list N) : exists pre, x = pre ++ lstrip x.
Proof.
  induction x as [|c x [pre IH]]; [by exists []|]. cbn [lstrip].
  destruct (isspace c); [|by exists []].
  exists (c :: pre). cbn. by rewrite <- IH.
Qed.

Lemma rstrip_prefix (x : list N) : exists post, x = rstrip x ++ post.
Proof.
  unfold rstrip. destruct (lstrip_suffix (rev x)) as [pre Hpre].
  exists (rev pre). apply (f_equal (@rev N)) in Hpre.
  by rewrite rev_involutive, rev_app_distr in Hpre.
Qed.

(** Trimming only removes characters, at the two ends. *)
Lemma strip_middle (x : list N) : exists pre post, x = pre ++ strip x ++ post.
Proof.
  unfold strip. destruct (lstrip_suffix x) as [pre Hpre].
  destruct (rstrip_prefix (lstrip x)) as [post Hpost].
  exists pre, post. by rewrite <- Hpost.
Qed.

Lemma strip_subset (x : list N) (c : N) : c ∈ strip x -> c ∈ x.
Proof.
  destruct (strip_middle x) as (pre & post & Hx). intros Hc. rewrite Hx.
  rewrite !elem_of_app. auto.
Qed.

Lemma lstrip_head (x : list N) :
  match lstrip x with [] => True | c :: _ => isspace c = false end.
Proof.
  induction x as [|c x IH]; cbn [lstrip]; [done|].
  destruct (isspace c) eqn:Hc; done.
Qed.

Lemma lstrip_trimmed (x : list N) :
  match x with [] => True | c :: _ => isspace c = false end -> lstrip x = x.
Proof. destruct x as [|c x]; [done|]. cbn. by intros ->. Qed.

Lemma lstrip_idem (x : list N) : lstrip (lstrip x) = lstrip x.
Proof. apply lstrip_trimmed, lstrip_head. Qed.

Lemma rstrip_idem (x : list N) : rstrip (rstrip x) = rstrip x.
Proof. unfold rstrip. by rewrite rev_involutive, lstrip_idem. Qed.

Lemma rstrip_head (c : N) (x : list N) :
  isspace c = false -> exists y, rstrip (c :: x) = c :: y.
Proof.
  intros Hc. unfold rstrip. cbn [rev]. rewrite lstrip_app.
  destruct (lstrip (rev x)) as [|d l].
  - cbn. rewrite Hc. by exists [].
  - rewrite rev_app_distr. cbn. eauto.
Qed.

Lemma strip_idem (x : list N) : strip (strip x) = strip x.
Proof.
  unfold strip at 1. 
  assert (H : lstrip (strip x) = strip x).
  { unfold strip. pose proof (lstrip_head x) as Hh.
    destruct (lstrip x) as [|c y] eqn:E; [done|].
    destruct (rstrip_head c y Hh) as [z ->]. cbn. by rewrite Hh. }
  rewrite H. unfold strip. apply rstrip_idem.
Qed.

Lemma lstrip_visible (x : list N) (c : N) :
  c ∈ x -> isspace c = false -> c ∈ lstrip x.
Proof.
  intros Hin Hc. induction x as [|d x IH]; [by apply elem_of_nil in Hin|].
  cbn [lstrip]. destruct (isspace d) eqn:Hd; [|done].
  apply elem_of_cons in Hin as [->|Hin]; [congruence | auto].
Qed.

Lemma elem_of_rev (x : list N) (c : N) : c ∈ rev x <-> c ∈ x.
Proof. rewrite !list_elem_of_In. symmetry. apply in_rev. Qed.

(** Trimming keeps every visible character. *)
Lemma strip_visible (x : list N) (c : N) :
  c ∈ x -> isspace c = false -> c ∈ strip x.
Proof.
  intros Hin Hc. unfold strip, rstrip. rewrite elem_of_rev.
  apply lstrip_visible; [|done]. rewrite elem_of_rev.
  by apply lstrip_visible.
Qed.

End TrimFacts.

Module AcceptFacts.

Import TrimFacts.

(** Everything [_is_valid_request] has checked when it answers. *)
Lemma valid_request_inv (raw : list N) (w w' : world) (b : bool) :
  _is_valid_request raw w = (inr b, w') ->
  exists v first rest m,
    b = true
    /\ startswith raw (verb_value v ++ SP) = true
    /\ endswith raw CRLFCRLF = true
    /\ endswith raw (SP ++ CRLFCRLF) = false
    /\ count raw CRLFCRLF = 1%nat
    /\ List.filter nonempty (split CRLF raw) = first :: rest
    /\ endswith first (SP ++ PROTOCOL) = true
    /\ existsb (fun l => existsb (contains l) [13; 10]) (first :: rest) = false
    /\ re_search first = Some m
    /\ (length (slice_1_m1 (group m)) <= ALLOWED_NAME_LENGTH)%nat
    /\ rest = map strip (List.filter (fun l => nonempty (strip l)) rest)
    /\ w' = set_name (strip (slice_1_m1 (group m)))
              (set_phones rest
                 (set_name (slice_1_m1 (group m)) (set_request_type v w))).
Proof.
  unfold _is_valid_request.
  destruct (find _ all_RequestVerbs) as [v|] eqn:Hv; [|done].
  apply find_some in Hv as [_ Hv].
  destruct (_ && _) eqn:Hend; [|done].
  apply andb_true_iff in Hend as [[He1 He2]%andb_true_iff He3].
  apply negb_true_iff in He2. apply Nat.eqb_eq in He3.
  assert (He : endswith raw CRLFCRLF = true).
  { apply orb_true_iff in He1 as [He1|]; [|done].
    by apply (endswith_suffix raw (SP ++ PROTOCOL) CRLFCRLF);
      rewrite <- app_assoc. }
  unfold bind at 1, modify at 1, bind at 1, _check_request_body.
  destruct (List.filter nonempty (split CRLF raw)) as [|first rest] eqn:Hp;
    [done|].
  destruct (negb (endswith first (SP ++ PROTOCOL)) || _) eqn:Hline; [done|].
  apply orb_false_iff in Hline as [Hl1 Hl2]. apply negb_false_iff in Hl1.
  destruct (re_search first) as [m|] eqn:Hm; [|done].
  unfold bind at 1, modify at 1, bind at 1, get at 1.
  cbn [self set_name name].
  destruct (Nat.leb_spec (length (slice_1_m1 (group m))) ALLOWED_NAME_LENGTH)
    as [Hlen|Hlen]; [|done].
  unfold _check_phones_in_request, bind, modify, get, ret.
  cbn [self set_phones phones set_name name].
  case_bool_decide as Hph; [|done].
  intros [= <- <-]. exists v, first, rest, m. done.
Qed.

Lemma phones_fixed_inv (rest : list (list N)) :
  rest = map strip (List.filter (fun l => nonempty (strip l)) rest) ->
  Forall (fun l => l <> [] /\ strip l = l) rest.
Proof.
  induction rest as [|p rest IH]; [constructor|].
  cbn [List.filter]. destruct (nonempty (strip p)) eqn:Hp.
  - cbn [map]. intros [= H1 H2]. constructor; [|by apply IH].
    split; [|done]. intros ->. by rewrite <- H1 in Hp.
  - intros H. apply (f_equal (@length (list N))) in H.
    rewrite length_map in H.
    pose proof (List.filter_length_le (fun l => nonempty (strip l)) rest).
    simpl in H. lia.
Qed.

Lemma no_breaks_inv (ls : list (list N)) :
  existsb (fun l => existsb (contains l) [13; 10]) ls = false ->
  Forall (fun l => one_line l = true) ls.
Proof.
  induction ls as [|l ls IH]; [constructor|]. cbn [existsb].
  intros [[H13 [H10 _]%orb_false_iff]%orb_false_iff Hls]%orb_false_iff.
  constructor; [|by apply IH]. unfold one_line. by rewrite H13, H10.
Qed.

(** The name cut out of a match: part of the line, with a visible
    character in it. *)
Lemma match_name (first : list N) (m : list N * list N) :
  re_search first = Some m ->
  (exists c, c ∈ slice_1_m1 (group m) /\ isspace c = false)
  /\ (forall c, c ∈ slice_1_m1 (group m) -> c ∈ first).
Proof.
  destruct m as [a r].
  intros (pre & ws & t & -> & -> & Hws & Hsp & Ht & Hr)%re_search_inv.
  destruct (token_run_shape t Ht) as (c & t0 & d & -> & Hc & Hd).
  destruct ws as [|c0 ws']; [done|].
  replace ((c0 :: ws') ++ (c :: t0 ++ [d]) ++ r)
    with (((c0 :: ws') ++ c :: t0 ++ [d]) ++ r) by (by rewrite <- !app_assoc).
  rewrite group_prefix.
  replace ((c0 :: ws') ++ c :: t0 ++ [d])
    with ([c0] ++ (ws' ++ c :: t0) ++ [d]) by (cbn; by rewrite <- !app_assoc).
  rewrite slice_1_m1_wrapped. split.
  - exists c. split; [|done]. rewrite elem_of_app. right. by left.
  - intros x Hx. apply elem_of_app. right. apply elem_of_app. left.
    apply elem_of_app. right. apply elem_of_app. by left.
Qed.

Lemma one_line_subset (x y : list N) :
  (forall c, c ∈ x -> c ∈ y) -> one_line y = true -> one_line x = true.
Proof.
  intros Hsub [H13 H10]%one_line_inv. unfold one_line.
  apply andb_true_iff. split; apply negb_true_iff, contains_false; auto.
Qed.

(** What holds of every request the validator accepts. *)
Lemma accepted_invariant (raw : list N) (w w' : world) (b : bool) :
  _is_valid_request raw w = (inr b, w') ->
  b = true
  /\ name (self w') <> []
  /\ strip (name (self w')) = name (self w')
  /\ (length (name (self w')) <= ALLOWED_NAME_LENGTH)%nat
  /\ one_line (name (self w')) = true
  /\ Forall (fun l => phone_line l = true) (phones (self w'))
  /\ startswith raw (verb_value (request_type (self w')) ++ SP) = true
  /\ endswith raw CRLFCRLF = true
  /\ count raw CRLFCRLF = 1%nat.
Proof.
  intros (v & first & rest & m & -> & Hv & He & _ & Hc & _ & _ & Hbr & Hm
          & Hlen & Hph & ->)%valid_request_inv.
  cbn [self name phones request_type set_name set_phones set_request_type].
  destruct (match_name first m Hm) as [(c & Hin & Hvis) Hsub].
  apply no_breaks_inv in Hbr. apply Forall_cons in Hbr as [Hfirst Hrest].
  repeat split; try done.
  - intros Hnil. apply (strip_visible _ c Hin) in Hvis.
    rewrite Hnil in Hvis. by apply elem_of_nil in Hvis.
  - apply strip_idem.
  - etransitivity; [apply strip_length | done].
  - apply (one_line_subset _ first); [|done].
    intros x Hx. by apply Hsub, strip_subset.
  - apply phones_fixed_inv in Hph.
    induction Hph as [|p ps [Hne Hs] _ IH]; [constructor|].
    apply Forall_cons in Hrest as [Hp Hps]. constructor; [|by apply IH].
    unfold phone_line. rewrite Hp. destruct p; [done|].
    by rewrite bool_decide_eq_true_2.
Qed.

End AcceptFacts.

Import TrimFacts AcceptFacts.

(** ** Texts of Unicode scalar values *)

Module ScalarFacts.

Lemma encode_char_scalar_inv (c : N) (b : list N) :
  utf8_encode_char c = Some b -> scalar c = true.
Proof.
  unfold utf8_encode_char, scalar, in_range.
  destruct (N.ltb_spec c 0x80), (N.ltb_spec c 0x800), (N.ltb_spec c 0x10000),
    (N.ltb_spec c 0x110000), (N.leb_spec 0xD800 c), (N.leb_spec c 0xDFFF),
    (N.ltb_spec c 0xD800), (N.ltb_spec 0xDFFF c);
    cbn [andb orb]; try done; lia.
Qed.

Lemma encode_scalar_inv (s b : list N) :
  utf8_encode s = Some b -> forallb scalar s = true.
Proof.
  revert b. induction s as [|c s IH]; intros b; [done|].
  cbn [utf8_encode forallb].
  destruct (utf8_encode_char c) as [x|] eqn:Hc; [|done].
  destruct (utf8_encode s) as [y|]; [|done]. intros _.
  by rewrite (encode_char_scalar_inv _ _ Hc), (IH y).
Qed.

(** Decoded text is made of scalar values. *)
Lemma decode_scalar (b s : list N) :
  utf8_decode b = Some s -> forallb scalar s = true.
Proof. intros H. by apply (encode_scalar_inv s b), utf8_encode_decode. Qed.

Lemma forallb_subset (P : N -> bool) (x y : list N) :
  (forall c, c ∈ x -> c ∈ y) -> forallb P y = true -> forallb P x = true.
Proof.
  rewrite !forallb_forall. intros Hsub Hy c Hc.
  apply Hy. apply list_elem_of_In, Hsub. by apply list_elem_of_In.
Qed.

Lemma split_go_all (P : N -> bool) (sep : list N) (s : list N) :
  forallb P s = true ->
  forall k, Forall (fun l => forallb P l = true) (split_go sep k s).
Proof.
  induction s as [|c s IH]; intros Hs k; cbn [split_go].
  - by repeat constructor.
  - cbn [forallb] in Hs. apply andb_true_iff in Hs as [Hc Hs].
    destruct k; [|by apply IH].
    destruct (startswith (c :: s) sep).
    + constructor; [done | by apply IH].
    + specialize (IH Hs O). destruct (split_go sep 0 s) as [|l ls].
      * by repeat constructor; cbn; rewrite Hc.
      * apply Forall_cons in IH as [Hl Hls]. constructor; [|done].
        cbn. by rewrite Hc.
Qed.

Lemma filter_all {A} (P : A -> Prop) (f : A -> bool) (ls : list A) :
  Forall P ls -> Forall P (List.filter f ls).
Proof.
  induction 1 as [|l ls Hl _ IH]; [constructor|]. cbn.
  destruct (f l); [by constructor | done].
Qed.

Lemma universal_newlines_all (P : N -> bool) (s : list N) :
  P 10 = true -> forallb P s = true -> forallb P (universal_newlines s) = true.
Proof.
  intros H10. induction s as [s IH] using (induction_ltof1 _ (@length N)).
  unfold ltof in IH. destruct s as [|c s]; [done|].
  cbn [forallb universal_newlines]. intros [Hc Hs]%andb_true_iff.
  destruct (c =? 13).
  - cbn [forallb]. rewrite H10. destruct s as [|d s']; [done|].
    cbn [forallb] in Hs. apply andb_true_iff in Hs as [Hd Hs'].
    destruct (d =? 10).
    + apply IH; [simpl; lia | done].
    + apply IH; [simpl; lia |]. cbn. by rewrite Hd, Hs'.
  - cbn [forallb]. rewrite Hc. apply IH; [simpl; lia | done].
Qed.

Lemma keepends_all (P : N -> bool) (s : list N) :
  forallb P s = true -> Forall (fun l => forallb P l = true) (keepends s).
Proof.
  induction s as [|c s IH]; [constructor|].
  cbn [forallb keepends]. intros [Hc Hs]%andb_true_iff. specialize (IH Hs).
  destruct (c =? 10).
  - constructor; [|done]. cbn. by rewrite Hc.
  - destruct (keepends s) as [|l ls].
    + repeat constructor. cbn. by rewrite Hc.
    + apply Forall_cons in IH as [Hl Hls]. constructor; [|done].
      cbn. by rewrite Hc.
Qed.

Lemma join_all (P : N -> bool) (sep : list N) (ls : list (list N)) :
  forallb P sep = true -> Forall (fun l => forallb P l = true) ls ->
  forallb P (join sep ls) = true.
Proof.
  intros Hsep. induction 1 as [|l ls Hl _ IH]; [done|].
  destruct ls as [|l' ls']; [done|].
  rewrite join_cons, !forallb_app, Hl, Hsep, IH. reflexivity.
Qed.

Lemma map_strip_all (P : N -> bool) (ls : list (list N)) :
  Forall (fun l => forallb P l = true) ls ->
  Forall (fun l => forallb P l = true) (map strip ls).
Proof.
  induction 1 as [|l ls Hl _ IH]; constructor; [|done].
  apply (forallb_subset P _ l); [apply strip_subset | done].
Qed.

(** The response of a retrieve can be encoded. *)
Lemma read_response_scalar (text : list N) :
  forallb scalar text = true ->
  forallb scalar
    (response_line OK ++ CRLF ++ join CRLF (map strip (readlines text))
     ++ CRLFCRLF) = true.
Proof.
  intros Ht. rewrite !forallb_app.
  rewrite (join_all scalar CRLF); [done | done |].
  apply map_strip_all, keepends_all, universal_newlines_all; done.
Qed.

End ScalarFacts.

Import ScalarFacts.

(** ** The course of a connection *)

Module CaseFacts.

Lemma receiving_loop_raised (cs : list (list N)) (e : stream_end) :
  forall data x,
    receiving_loop cs e data = Raised x ->
    x = UnicodeDecodeError \/ x = OSError.
Proof.
  induction cs as [|c cs IH]; intros data x; cbn [receiving_loop].
  - destruct e; try done. intros [= <-]. by right.
  - destruct c as [|b c]; [done|].
    destruct (utf8_decode (b :: c)); [|intros [= <-]; by left].
    destruct (endswith _ _); [done|]. apply IH.
Qed.

(** The validator raises its own error or, without a name, the assertion
    error; the index error of an empty payload list cannot occur after the
    verb has been found. *)
Lemma valid_request_raises (raw : list N) (w w' : world) (e : exn) :
  _is_valid_request raw w = (inl e, w') ->
  e = CanNotParseRequestError
  \/ (e = AssertionError /\ request_name raw = None).
Proof.
  unfold _is_valid_request.
  destruct (find _ all_RequestVerbs) as [v|] eqn:Hv; [|intros [= <- _]; by left].
  apply find_some in Hv as [_ Hv].
  destruct (verb_first_char v raw Hv) as (c & raw' & Hraw & Hc).
  destruct (_ && _); [|intros [= <- _]; by left].
  unfold bind at 1, modify at 1, bind at 1, _check_request_body.
  rewrite (request_payload_head raw c raw') by done.
  destruct (negb _ || _); [intros [= <- _]; by left|].
  unfold request_name.
  destruct (re_search (first_line raw)) as [m|]; [|intros [= <- _]; by right].
  unfold bind at 1, modify at 1, bind at 1, get at 1.
  cbn [self set_name name].
  destruct (Nat.leb _ _); [|intros [= <- _]; by left].
  unfold _check_phones_in_request, bind, modify, get, ret.
  case_bool_decide; [done|]. intros [= <- _]. by left.
Qed.

Lemma untouched_valid_request (raw : list N) (w : world) :
  untouched w (snd (_is_valid_request raw w)).
Proof. destruct (valid_request_frame raw w) as (? & ? & ? & _). by repeat split. Qed.

Lemma envelope_encodes (data message : list N) :
  utf8_decode data = Some message ->
  exists env, utf8_encode (envelope message) = Some env.
Proof.
  intros Hdec. pose proof (utf8_encode_decode _ _ Hdec) as Henc.
  unfold envelope. rewrite !utf8_encode_app, Henc. by eexists.
Qed.

(** [handle_echo] and [_tcp_echo_client], step by step. *)
Lemma handle_echo_run (client : reader) (auth : authority) (w : world) :
  handle_echo client auth w
  = match _receiving_data client with
    | Returned data =>
      match utf8_decode data with
      | Some message =>
        match _is_valid_request message w with
        | (inr _, w1) =>
          match _tcp_echo_client auth message w1 with
          | (inr reply, w2) =>
            match utf8_decode reply with
            | Some verdict =>
              try_except (on_server_response verdict) caught
                _response_if_exception w2
            | None => (inl UnicodeDecodeError, w2)
            end
          | (inl e, w2) =>
            if caught e then _response_if_exception w2 else (inl e, w2)
          end
        | (inl e, w1) =>
          if caught e then _response_if_exception w1 else (inl e, w1)
        end
      | None => (inl UnicodeDecodeError, w)
      end
    | Raised e => if caught e then _response_if_exception w else (inl e, w)
    | Pending => _response_if_exception w
    end.
Proof.
  unfold handle_echo, try_except, bind at 1, wait_for.
  destruct (_receiving_data client) as [data|e|]; [|done..].
  unfold ret at 1, bind at 1, decode at 1.
  destruct (utf8_decode data) as [message|]; [|done].
  unfold ret at 1, bind at 1.
  destruct (_is_valid_request message w) as [[e|b] w1]; [done|].
  unfold bind at 1.
  destruct (_tcp_echo_client auth message w1) as [[e|reply] w2]; [done|].
  unfold bind at 1, decode at 1.
  destruct (utf8_decode reply) as [verdict|]; done.
Qed.

Lemma tcp_echo_client_run (auth : authority) (message : list N) (w : world) :
  _tcp_echo_client auth message w
  = match auth with
    | Refused => (inl CannotFetchDataFromValidationServer, w)
    | Unreachable => (inl OSError, w)
    | Connected r =>
      match utf8_encode (envelope message) with
      | None => (inl UnicodeEncodeError, w)
      | Some env =>
        let w1 := to_upstream (Written env) w in
        match _receiving_data r with
        | Returned reply =>
          match utf8_decode reply with
          | Some _ => (inr reply, to_upstream Closed w1)
          | None => (inl UnicodeDecodeError, w1)
          end
        | Raised UnicodeDecodeError => (inl UnicodeDecodeError, w1)
        | Raised OSError => (inl OSError, w1)
        | _ => (inl CannotFetchDataFromValidationServer, w1)
        end
      end
    end.
Proof.
  unfold _tcp_echo_client, try_except. destruct auth as [| |r]; [done..|].
  fold (envelope message). unfold bind at 1, encode.
  destruct (utf8_encode (envelope message)) as [env|]; [|done].
  unfold ret at 1, bind at 1, modify at 1, bind at 1, wait_for.
  pose proof (receiving_loop_raised (chunks r) (ending r) []) as Hr.
  fold (_receiving_data r) in Hr.
  destruct (_receiving_data r) as [reply|e|]; [| |done].
  - unfold ret at 1, bind at 1, decode.
    by destruct (utf8_decode reply).
  - by destruct (Hr e eq_refl) as [-> | ->].
Qed.

(** The ways a connection can go up to the verdict of the validation
    server. *)
Lemma handle_echo_cases (client : reader) (auth : authority) (w : world) :
  (exists w1,
      untouched w w1
      /\ handle_echo client auth w
         = (inr tt, to_client Closed (to_client (Written incorrect_response) w1)))
  \/ (exists e w1,
        untouched w w1
        /\ (e = UnicodeDecodeError \/ e = AssertionError \/ e = OSError)
        /\ handle_echo client auth w = (inl e, w1))
  \/ (exists data message w1 r reply verdict env,
        _receiving_data client = Returned data
        /\ utf8_decode data = Some message
        /\ _is_valid_request message w = (inr true, w1)
        /\ auth = Connected r
        /\ _receiving_data r = Returned reply
        /\ utf8_decode reply = Some verdict
        /\ utf8_encode (envelope message) = Some env
        /\ handle_echo client auth w
           = try_except (on_server_response verdict) caught
               _response_if_exception
               (to_upstream Closed (to_upstream (Written env) w1))).
Proof.
  rewrite handle_echo_run.
  pose proof (receiving_loop_raised (chunks client) (ending client) []) as Hr.
  fold (_receiving_data client) in Hr.
  destruct (_receiving_data client) as [data|e|] eqn:Hrx.
  2:{ right. left. exists e, w.
      destruct (Hr e eq_refl) as [-> | ->]; repeat split; auto. }
  2:{ left. by exists w. }
  clear Hr. pose proof (envelope_encodes data) as Henv.
  destruct (utf8_decode data) as [message|] eqn:Hdec.
  2:{ right. left. exists UnicodeDecodeError, w. repeat split; auto. }
  destruct (Henv message eq_refl) as [env Henc]. clear Henv.
  pose proof (untouched_valid_request message w) as Hu.
  pose proof (valid_request_raises message w) as Hraise.
  pose proof (valid_request_inv message w) as Hinv.
  destruct (_is_valid_request message w) as [[e|b] w1] eqn:Hval; cbn [snd] in Hu.
  { destruct (Hraise _ _ eq_refl) as [-> | [-> _]].
    - left. by exists w1.
    - right. left. exists AssertionError, w1. repeat split; try apply Hu.
      auto. }
  destruct (Hinv _ _ eq_refl) as (_ & _ & _ & _ & -> & _). clear Hraise Hinv.
  rewrite tcp_echo_client_run, Henc. cbv zeta.
  assert (Hu' : untouched w (to_upstream (Written env) w1)) by apply Hu.
  destruct auth as [| |r]; [left; by exists w1| |].
  { right. left. exists OSError, w1. repeat split; try apply Hu. auto. }
  pose proof (receiving_loop_raised (chunks r) (ending r) []) as Hr.
  fold (_receiving_data r) in Hr.
  destruct (_receiving_data r) as [reply|e|] eqn:Hrx'.
  - destruct (utf8_decode reply) as [verdict|] eqn:Hdec'.
    + right. right. exists data, message, w1, r, reply, verdict, env.
      repeat split; try done. by rewrite Hdec'.
    + right. left. exists UnicodeDecodeError, (to_upstream (Written env) w1).
      repeat split; try apply Hu. auto.
  - right. left. exists e, (to_upstream (Written env) w1).
    destruct (Hr e eq_refl) as [-> | ->]; repeat split; try apply Hu; auto.
  - left. by exists (to_upstream (Written env) w1).
Qed.

End CaseFacts.

Import CaseFacts.

(** ** Permitted and other verdicts *)

Module WireFacts.

(** The phones of an accepted request come out of a decoded text. *)
Lemma accepted_phones_scalar (raw : list N) (w w1 : world) (b : bool) :
  forallb scalar raw = true ->
  _is_valid_request raw w = (inr b, w1) ->
  Forall (fun l => forallb scalar l = true) (phones (self w1)).
Proof.
  intros Hs (v & first & rest & m & _ & _ & _ & _ & _ & Hf & _ & _ & _ & _ & _ & ->)
    %valid_request_inv.
  cbn [self phones set_name set_phones].
  pose proof (filter_all (fun l => forallb scalar l = true) nonempty
                (split CRLF raw) (split_go_all scalar CRLF raw Hs 0%nat)) as H.
  rewrite Hf in H. by apply Forall_cons in H as [_ H].
Qed.

(** What the record store answers or raises. *)
Lemma crud_outcome (v : RequestVerbs) (w : world) :
  Forall (fun l => forallb scalar l = true) (phones (self w)) ->
  match crud_dict v w with
  | (inr resp, w') => forallb scalar resp = true
  | (inl e, w') => escapes e = true
  end.
Proof.
  intros Hp. destruct v; cbn [crud_dict].
  - (* _read_phones *)
    unfold _read_phones, bind, get, _is_path_exists, os_call, decode, ret, raise.
    cbn [self disk log_call].
    destruct (Os.stat _ _); cbn [negb]; [reflexivity|].
    destruct (Os.open_r _ _) as [e|content]; [done|].
    destruct (utf8_decode content) as [text|] eqn:Hd; [|done].
    apply read_response_scalar. by apply (decode_scalar content).
  - (* _delete_file *)
    unfold _delete_file, bind, get, _is_path_exists, os_call, modify, ret.
    cbn [self disk log_call].
    destruct (Os.stat _ _); cbn [negb]; [reflexivity|].
    by destruct (Os.remove _ _).
  - (* _write_phones *)
    destruct (encode_scalar (join CRLF (phones (self w)))) as [content Hc].
    { by apply join_all. }
    unfold _write_phones, bind, get, _is_path_exists, os_call, modify, encode,
      ret, raise.
    cbn [self disk log_call set_disk].
    destruct (Os.stat _ _); cbn [self disk log_call set_disk].
    + destruct (Os.mkdir _ _) as [e'|d]; [done|].
      cbn [self disk log_call set_disk].
      destruct (Os.open_w _ _) as [e'|f]; [done|].
      cbn [self disk log_call set_disk]. by rewrite Hc.
    + destruct (Os.open_w _ _) as [e|f]; [done|].
      cbn [self disk log_call set_disk]. by rewrite Hc.
Qed.

(** The query for a request is the fixed header and the client's own
    bytes. *)
Lemma envelope_bytes (data message env : list N) :
  utf8_decode data = Some message ->
  utf8_encode (envelope message) = Some env ->
  env = query_header ++ data.
Proof.
  intros Hdec. pose proof (utf8_encode_decode _ _ Hdec) as Henc.
  unfold envelope.
  change (validation_value IS_ALLOWED ++ SP ++ PROTOCOL ++ CRLF ++ message)
    with ((validation_value IS_ALLOWED ++ SP ++ PROTOCOL ++ CRLF) ++ message).
  rewrite utf8_encode_app, Henc.
  change (utf8_encode (validation_value IS_ALLOWED ++ SP ++ PROTOCOL ++ CRLF))
    with (Some query_header).
  by intros [= <-].
Qed.

Lemma accepted_inv (client : reader) (w w1 : world) (data : list N) :
  accepted client w = Some (data, w1) ->
  exists message,
    _receiving_data client = Returned data
    /\ utf8_decode data = Some message
    /\ _is_valid_request message w = (inr true, w1).
Proof.
  unfold accepted.
  destruct (_receiving_data client) as [data'| |] eqn:Hrx; try done.
  destruct (utf8_decode data') as [message|] eqn:Hdec; try done.
  destruct (_is_valid_request message w) as [[e|[]] w1'] eqn:Hval; try done.
  intros [= <- <-]. by exists message.
Qed.

Lemma accepted_intro (client : reader) (w w1 : world) (data message : list N) :
  _receiving_data client = Returned data ->
  utf8_decode data = Some message ->
  _is_valid_request message w = (inr true, w1) ->
  accepted client w = Some (data, w1).
Proof. intros H1 H2 H3. unfold accepted. by rewrite H1, H2, H3. Qed.

Lemma allows_inv (auth : authority) :
  allows auth = true ->
  exists r reply verdict,
    auth = Connected r
    /\ _receiving_data r = Returned reply
    /\ utf8_decode reply = Some verdict
    /\ startswith verdict (validation_value ALLOWED ++ SP) = true.
Proof.
  unfold allows, verdict_of. destruct auth as [| |r]; [done..|].
  destruct (_receiving_data r) as [reply| |] eqn:Hr; try done.
  destruct (utf8_decode reply) as [verdict|] eqn:Hd; [|done].
  intros H. by exists r, reply, verdict.
Qed.

(** An accepted and permitted request is carried out; its response goes
    to the client unless the record store raises. *)
Lemma handle_echo_permitted (client : reader) (auth : authority)
    (w w1 : world) (data : list N) :
  accepted client w = Some (data, w1) ->
  allows auth = true ->
  match crud_dict (request_type (self w1))
          (to_upstream Closed
             (to_upstream (Written (query_header ++ data)) w1)) with
  | (inr resp, w3) =>
    exists b, utf8_encode resp = Some b
              /\ handle_echo client auth w
                 = (inr tt, to_client Closed (to_client (Written b) w3))
  | (inl e, w3) =>
    escapes e = true /\ handle_echo client auth w = (inl e, w3)
  end.
Proof.
  intros (message & Hrx & Hdec & Hval)%accepted_inv
         (r & reply & verdict & -> & Hrx' & Hdec' & Hok)%allows_inv.
  destruct (handle_echo_answered client r w w1 data message reply verdict true
              Hrx Hdec Hval Hrx' Hdec') as (env & Henv & ->).
  rewrite <- (envelope_bytes data message env Hdec Henv).
  set (w2 := to_upstream Closed (to_upstream (Written env) w1)).
  assert (Hrun : try_except (on_server_response verdict) caught
                   _response_if_exception w2
                 = match crud_dict (request_type (self w1)) w2 with
                   | (inr resp, w3) =>
                     try_except (_write_and_close resp) caught
                       _response_if_exception w3
                   | (inl e, w3) =>
                     if caught e then _response_if_exception w3 else (inl e, w3)
                   end).
  { unfold try_except. rewrite on_server_response_allowed by done.
    unfold bind at 1, get at 1. change (self w2) with (self w1).
    unfold bind at 1. by destruct (crud_dict _ _) as [[e|resp] w3]. }
  rewrite Hrun. clear Hrun.
  assert (Hp : Forall (fun l => forallb scalar l = true) (phones (self w2))).
  { apply (accepted_phones_scalar message w w1 true); [|done].
    by apply (decode_scalar data). }
  pose proof (crud_outcome (request_type (self w1)) w2 Hp) as Hc.
  destruct (crud_dict _ _) as [[e|resp] w3].
  - split; [done|]. by destruct e.
  - destruct (encode_scalar resp Hc) as [b Hb].
    exists b. split; [done|]. unfold try_except.
    by rewrite (write_and_close_run resp b).
Qed.

(** A reply that is not a permission is relayed or, when it begins with
    none of the words, answered with the fixed response. *)
Lemma handle_echo_not_permitted (client : reader) (r : reader)
    (w w1 : world) (data reply verdict : list N) :
  accepted client w = Some (data, w1) ->
  _receiving_data r = Returned reply ->
  utf8_decode reply = Some verdict ->
  startswith verdict (validation_value ALLOWED ++ SP) = false ->
  handle_echo client (Connected r) w
  = (inr tt,
     to_client Closed
       (to_client
          (Written (if existsb (fun v => startswith verdict
                                           (validation_value v ++ SP))
                         all_ValidationWords
                    then reply else incorrect_response))
          (to_upstream Closed
             (to_upstream (Written (query_header ++ data)) w1)))).
Proof.
  intros (message & Hrx & Hdec & Hval)%accepted_inv Hrx' Hdec' Hno.
  destruct (handle_echo_answered client r w w1 data message reply verdict true
              Hrx Hdec Hval Hrx' Hdec') as (env & Henv & ->).
  rewrite <- (envelope_bytes data message env Hdec Henv).
  unfold try_except, on_server_response. rewrite Hno. cbn [negb].
  destruct (existsb _ _); [|reflexivity].
  by rewrite (write_and_close_run verdict reply)
    by (by apply utf8_encode_decode).
Qed.

End WireFacts.

Import WireFacts.

(** ** What is sent to the validation server *)

Module UpstreamFacts.

(** The record store does not write to the validation server. *)
Lemma crud_upstream (v : RequestVerbs) (w : world) :
  upstream_out (snd (crud_dict v w)) = upstream_out w.
Proof.
  destruct v; cbn [crud_dict].
  - unfold _read_phones, bind, get, _is_path_exists, os_call, decode, ret, raise.
    cbn [self disk log_call].
    destruct (Os.stat _ _); cbn [negb]; [done|].
    destruct (Os.open_r _ _) as [e|content]; [done|].
    by destruct (utf8_decode content).
  - unfold _delete_file, bind, get, _is_path_exists, os_call, modify, ret.
    cbn [self disk log_call].
    destruct (Os.stat _ _); cbn [negb]; [done|].
    by destruct (Os.remove _ _).
  - unfold _write_phones, bind, get, _is_path_exists, os_call, modify, encode,
      ret, raise.
    cbn [self disk log_call set_disk].
    destruct (Os.stat _ _); cbn [self disk log_call set_disk].
    + destruct (Os.mkdir _ _) as [e'|d]; [done|].
      cbn [self disk log_call set_disk].
      destruct (Os.open_w _ _) as [e'|f]; [done|].
      cbn [self disk log_call set_disk]. by destruct (utf8_encode _).
    + destruct (Os.open_w _ _) as [e|f]; [done|].
      cbn [self disk log_call set_disk]. by destruct (utf8_encode _).
Qed.

Lemma write_and_close_upstream (response : list N) (w : world) :
  upstream_out (snd (_write_and_close response w)) = upstream_out w.
Proof.
  unfold _write_and_close, bind, encode, modify, ret, raise.
  by destruct (utf8_encode response).
Qed.

(** Nothing that follows the reply of the validation server writes to
    it. *)
Lemma on_server_response_upstream (verdict : list N) (w : world) :
  upstream_out
    (snd (try_except (on_server_response verdict) caught
            _response_if_exception w))
  = upstream_out w.
Proof.
  assert (H : upstream_out (snd (on_server_response verdict w)) = upstream_out w).
  { unfold on_server_response.
    destruct (existsb _ _); [|done].
    destruct (negb _); [apply write_and_close_upstream|].
    unfold bind at 1, get at 1, bind at 1.
    pose proof (crud_upstream (request_type (self w)) w) as Hc.
    destruct (crud_dict _ _) as [[e|resp] w3]; cbn [snd] in *; [done|].
    by rewrite write_and_close_upstream. }
  unfold try_except.
  destruct (on_server_response verdict w) as [[e|[]] w3]; cbn [snd] in *; [|done].
  by destruct (caught e).
Qed.

(** Without permission the record store is not reached. *)
Lemma unpermitted_frame (client : reader) (auth : authority) (w : world) :
  accepted client w = None \/ allows auth = false ->
  disk (snd (handle_echo client auth w)) = disk w
  /\ calls (snd (handle_echo client auth w)) = calls w.
Proof.
  intros Hno.
  destruct (handle_echo_cases client auth w)
    as [(w1 & Hu & ->) | [(e' & w1 & Hu & _ & ->)
        | (data & message & w1 & r & reply & verdict & env
           & Hrx & Hdec & Hval & -> & Hrx' & Hdec' & Henv & _)]].
  - cbn [snd disk calls to_client]. split; apply Hu.
  - cbn [snd]. split; apply Hu.
  - pose proof (untouched_valid_request message w) as Hu.
    rewrite Hval in Hu. cbn [snd] in Hu.
    pose proof (accepted_intro client w w1 data message Hrx Hdec Hval) as Hacc.
    destruct Hno as [Hno | Hno]; [congruence|].
    unfold allows, verdict_of in Hno. rewrite Hrx', Hdec' in Hno.
    rewrite (handle_echo_not_permitted client r w w1 data reply verdict)
      by done.
    cbn [snd disk calls to_client to_upstream]. split; apply Hu.
Qed.

End UpstreamFacts.

Import UpstreamFacts.

(** ** Requests over the wire *)

Module RoundTripFacts.

(** A well-formed request text on the wire is accepted. *)
Lemma accepted_text (client : reader) (w : world) (v : RequestVerbs)
    (inner : list N) (P : list (list N)) :
  request_of client = Some (request_text v inner P) ->
  name_run inner = true ->
  Forall (fun l => phone_line l = true) P ->
  (length inner <= ALLOWED_NAME_LENGTH)%nat ->
  exists data,
    utf8_decode data = Some (request_text v inner P)
    /\ accepted client w
       = Some (data, set_name (strip inner)
                       (set_phones P (set_name inner (set_request_type v w)))).
Proof.
  unfold request_of. intros Hreq Hrun HP Hlen.
  destruct (_receiving_data client) as [data| |] eqn:Hrx; try done.
  exists data. split; [done|].
  apply (accepted_intro client w _ data (request_text v inner P)); try done.
  by apply valid_request_ok.
Qed.

(** A permitted store, over the wire. *)
Lemma store_over_wire (client : reader) (auth : authority) (w : world)
    (inner : list N) (P : list (list N)) :
  request_of client = Some (request_text WRITE inner P) ->
  allows auth = true ->
  name_run inner = true ->
  (length inner <= ALLOWED_NAME_LENGTH)%nat ->
  plain_name (strip inner) = true ->
  Forall (fun l => phone_line l = true) P ->
  store_ready (disk w) (path_to_phonebook (self w)) (strip inner) = true ->
  exists w1 content,
    handle_echo client auth w = (inr tt, w1)
    /\ client_out w1 = client_out w ++ [Written ok_response; Closed]
    /\ path_to_phonebook (self w1) = path_to_phonebook (self w)
    /\ utf8_encode (join CRLF P) = Some content
    /\ Os.open_r (disk w1) (path_to_phonebook (self w) ++ Os.slash ++ strip inner)
       = inr content.
Proof.
  intros Hreq Hal Hrun Hlen Hplain HP Hready.
  destruct (accepted_text client w WRITE inner P Hreq Hrun HP Hlen)
    as (data & Hdec & Hacc).
  pose proof (handle_echo_permitted client auth w _ data Hacc Hal) as H.
  cbn [self request_type set_name set_phones set_request_type to_upstream] in H.
  set (w2 := to_upstream Closed (to_upstream (Written (query_header ++ data))
               (set_name (strip inner) (set_phones P (set_name inner
                  (set_request_type WRITE w)))))) in *.
  destruct (encode_scalar (join CRLF P)) as [content Hc].
  { apply join_all; [done|].
    apply accepted_inv in Hacc as (message & _ & Hdec' & Hval).
    apply (accepted_phones_scalar message w _ true) in Hval; [done|].
    by apply (decode_scalar data). }
  destruct (write_phones_ok w2 content) as (w3 & Hw & Hself & Hout & _ & _ & Hopen);
    try done.
  change (crud_dict WRITE w2) with (_write_phones w2) in H. rewrite Hw in H.
  destruct H as (b & Hb & ->).
  assert (b = ok_response) as ->.
  { change (utf8_encode (response_line OK ++ CRLFCRLF)) with (Some ok_response) in Hb.
    congruence. }
  eexists _, content. split; [reflexivity|].
  cbn [client_out disk self to_client]. rewrite Hout, Hself.
  cbn [client_out]. rewrite <- app_assoc. done.
Qed.

(** A permitted retrieve of a record that is there, over the wire. *)
Lemma retrieve_over_wire (client : reader) (auth : authority) (w : world)
    (inner content text : list N) :
  request_of client = Some (request_text GET inner []) ->
  allows auth = true ->
  name_run inner = true ->
  (length inner <= ALLOWED_NAME_LENGTH)%nat ->
  Os.open_r (disk w) (path_to_phonebook (self w) ++ Os.slash ++ strip inner)
  = inr content ->
  utf8_decode content = Some text ->
  exists w1 b,
    handle_echo client auth w = (inr tt, w1)
    /\ client_out w1 = client_out w ++ [Written b; Closed]
    /\ disk w1 = disk w
    /\ utf8_decode b
       = Some (response_line OK ++ CRLF
               ++ join CRLF (map strip (readlines text)) ++ CRLFCRLF).
Proof.
  intros Hreq Hal Hrun Hlen Hopen Htext.
  destruct (accepted_text client w GET inner [] Hreq Hrun (List.Forall_nil _) Hlen)
    as (data & Hdec & Hacc).
  pose proof (handle_echo_permitted client auth w _ data Hacc Hal) as H.
  cbn [self request_type set_name set_phones set_request_type to_upstream] in H.
  set (w2 := to_upstream Closed (to_upstream (Written (query_header ++ data))
               (set_name (strip inner) (set_phones [] (set_name inner
                  (set_request_type GET w)))))) in *.
  change (crud_dict GET w2) with (_read_phones w2) in H.
  rewrite (read_phones_found w2 content text) in H by done.
  destruct H as (b & Hb & ->).
  eexists _, b. split; [reflexivity|].
  cbn [client_out disk self to_client log_call]. rewrite <- app_assoc.
  split; [done|]. split; [done|]. by apply utf8_decode_encode.
Qed.

(** A permitted retrieve or delete of a record that is not there. *)
Lemma missing_over_wire (client : reader) (auth : authority) (w : world)
    (v : RequestVerbs) (inner : list N) (e : Os.error) :
  v = GET \/ v = DELETE ->
  request_of client = Some (request_text v inner []) ->
  allows auth = true ->
  name_run inner = true ->
  (length inner <= ALLOWED_NAME_LENGTH)%nat ->
  Os.stat (disk w) (path_to_phonebook (self w) ++ Os.slash ++ strip inner)
  = inl e ->
  exists w1,
    handle_echo client auth w = (inr tt, w1)
    /\ client_out w1 = client_out w ++ [Written not_found_response; Closed]
    /\ disk w1 = disk w.
Proof.
  intros Hv Hreq Hal Hrun Hlen Hstat.
  destruct (accepted_text client w v inner [] Hreq Hrun (List.Forall_nil _) Hlen)
    as (data & Hdec & Hacc).
  pose proof (handle_echo_permitted client auth w _ data Hacc Hal) as H.
  cbn [self request_type set_name set_phones set_request_type to_upstream] in H.
  set (w2 := to_upstream Closed (to_upstream (Written (query_header ++ data))
               (set_name (strip inner) (set_phones [] (set_name inner
                  (set_request_type v w)))))) in *.
  assert (Hrun' : crud_dict v w2
                  = (inr (response_line NOT_FOUND ++ CRLFCRLF),
                     log_call (Stat (record_path (self w2))) w2)).
  { destruct Hv as [-> | ->]; cbn [crud_dict].
    - by apply (read_phones_absent w2 e).
    - by apply (delete_file_absent w2 e). }
  rewrite Hrun' in H. destruct H as (b & Hb & ->).
  assert (b = not_found_response) as ->.
  { change (utf8_encode (response_line NOT_FOUND ++ CRLFCRLF))
      with (Some not_found_response) in Hb. congruence. }
  eexists. split; [reflexivity|].
  cbn [client_out disk self to_client log_call]. by rewrite <- app_assoc.
Qed.

(** A permitted delete of a record that is there, over the wire. *)
Lemma delete_over_wire (client : reader) (auth : authority) (w : world)
    (inner content : list N) :
  request_of client = Some (request_text DELETE inner []) ->
  allows auth = true ->
  name_run inner = true ->
  (length inner <= ALLOWED_NAME_LENGTH)%nat ->
  Os.open_r (disk w) (path_to_phonebook (self w) ++ Os.slash ++ strip inner)
  = inr content ->
  exists w1,
    handle_echo client auth w = (inr tt, w1)
    /\ client_out w1 = client_out w ++ [Written ok_response; Closed]
    /\ path_to_phonebook (self w1) = path_to_phonebook (self w)
    /\ Os.stat (disk w1) (path_to_phonebook (self w) ++ Os.slash ++ strip inner)
       = inl Os.FileNotFoundError.
Proof.
  intros Hreq Hal Hrun Hlen Hopen.
  destruct (accepted_text client w DELETE inner [] Hreq Hrun (List.Forall_nil _) Hlen)
    as (data & Hdec & Hacc).
  pose proof (handle_echo_permitted client auth w _ data Hacc Hal) as H.
  cbn [self request_type set_name set_phones set_request_type to_upstream] in H.
  set (w2 := to_upstream Closed (to_upstream (Written (query_header ++ data))
               (set_name (strip inner) (set_phones [] (set_name inner
                  (set_request_type DELETE w)))))) in *.
  destruct (delete_file_found w2 content) as (w3 & Hd & Hself & Hout & Hgone);
    [done|].
  change (crud_dict DELETE w2) with (_delete_file w2) in H. rewrite Hd in H.
  destruct H as (b & Hb & ->).
  assert (b = ok_response) as ->.
  { change (utf8_encode (response_line OK ++ CRLFCRLF)) with (Some ok_response) in Hb.
    congruence. }
  eexists. split; [reflexivity|].
  cbn [client_out disk self to_client]. rewrite Hout, Hself.
  cbn [client_out]. rewrite <- app_assoc. done.
Qed.

End RoundTripFacts.

Import RoundTripFacts.

(** ** The loop of the frame reader *)

Module LoopFacts.

(** Every way out of the loop of [_receiving_data], with [data0] the
    buffer on entry. *)
Lemma receiving_loop_inv (cs : list (list N)) (e : stream_end) :
  forall data0,
    match receiving_loop cs e data0 with
    | Returned data =>
      (exists pre c rest,
          cs = pre ++ c :: rest /\ Forall goes_on pre
          /\ data = data0 ++ concat pre ++ c
          /\ (c = [] \/ exists t, utf8_decode c = Some t
                                  /\ endswith t CRLFCRLF = true))
      \/ (Forall goes_on cs /\ e = Eof /\ data = data0 ++ concat cs)
    | Raised x =>
      (x = UnicodeDecodeError
       /\ exists pre c rest,
            cs = pre ++ c :: rest /\ Forall goes_on pre
            /\ utf8_decode c = None)
      \/ (x = OSError /\ Forall goes_on cs /\ e = Broken)
    | Pending => Forall goes_on cs /\ e = Silent
    end.
Proof.
  induction cs as [|c cs IH]; intros data0; cbn [receiving_loop].
  - destruct e; [|done|by right]. right. by rewrite app_nil_r.
  - destruct c as [|b c].
    { left. exists [], [], cs. repeat split; [done|]. by left. }
    destruct (utf8_decode (b :: c)) as [t|] eqn:Hd.
    2:{ left. split; [done|]. by exists [], (b :: c), cs. }
    destruct (endswith t CRLFCRLF) eqn:He.
    { left. exists [], (b :: c), cs. repeat split; [done|]. right. by exists t. }
    assert (Hgo : goes_on (b :: c)) by (split; [done | by exists t]).
    specialize (IH (data0 ++ b :: c)).
    destruct (receiving_loop cs e (data0 ++ b :: c)) as [data|x|].
    + destruct IH as [(pre & c' & rest & -> & Hpre & -> & Hc) | (Hall & -> & ->)].
      * left. exists ((b :: c) :: pre), c', rest.
        split; [done|]. split; [by constructor|].
        split; [|done]. cbn [concat]. by rewrite <- !app_assoc.
      * right. split; [by constructor|]. split; [done|].
        cbn [concat]. by rewrite <- !app_assoc.
    + destruct IH as [(-> & pre & c' & rest & -> & Hpre & Hc)
                     | (-> & Hall & ->)].
      * left. split; [done|]. exists ((b :: c) :: pre), c', rest.
        split; [done|]. split; [by constructor | done].
      * right. split; [done|]. split; [by constructor | done].
    + destruct IH as [Hall ->]. split; [by constructor | done].
Qed.

End LoopFacts.

Import LoopFacts.

(** ** Verbs and blank names *)

Module VerbFacts.

(** The verbs begin with different letters: at most one of them starts a
    text. *)
Lemma verb_unique (raw : list N) (v v' : RequestVerbs) :
  startswith raw (verb_value v ++ SP) = true ->
  startswith raw (verb_value v' ++ SP) = true ->
  v = v'.
Proof.
  destruct raw as [|c raw]; [by destruct v|].
  destruct v, v'; try done; cbn [verb_value app startswith];
    intros [H1%N.eqb_eq _]%andb_true_iff [H2%N.eqb_eq _]%andb_true_iff;
    congruence.
Qed.

End VerbFacts.

Module BlankFacts.

Lemma strip_nil_all_space (x : list N) :
  strip x = [] -> forallb isspace x = true.
Proof.
  intros Hs. apply forallb_forall. intros c Hc%list_elem_of_In.
  destruct (isspace c) eqn:Hsp; [done|].
  pose proof (strip_visible x c Hc Hsp) as Hin. rewrite Hs in Hin.
  by apply elem_of_nil in Hin.
Qed.

(** In a text made of visible characters, white space and visible
    characters again, no visible character stands between two white
    spaces. *)
Lemma no_inner_token (A W B : list N) :
  forallb nonspace A = true -> forallb isspace W = true ->
  forallb nonspace B = true ->
  forall X Y Z sp c d,
    A ++ W ++ B = X ++ sp :: c :: Y ++ d :: Z ->
    isspace sp = true -> isspace c = false -> isspace d = true -> False.
Proof.
  intros HA HW HB.
  assert (Hvis : forall (B' : list N) x, forallb nonspace B' = true ->
            x ∈ B' -> isspace x = true -> False).
  { intros B' x HB' Hx%list_elem_of_In Hsp.
    apply (proj1 (forallb_forall _ _) HB') in Hx. unfold nonspace in Hx.
    by rewrite Hsp in Hx. }
  induction A as [|a A IH].
  - cbn [app]. clear HA. induction W as [|w W IHW]; intros X Y Z sp c d Heq Hsp Hc Hd.
    + cbn [app] in Heq. apply (Hvis B sp HB); [|done].
      rewrite Heq. apply elem_of_app. right. by left.
    + cbn [forallb] in HW. apply andb_true_iff in HW as [Hw HW].
      destruct X as [|x X]; cbn [app] in Heq.
      * injection Heq as -> Heq.
        destruct W as [|w' W]; cbn [app] in Heq.
        -- apply (Hvis B d HB); [|done]. rewrite Heq.
           right. apply elem_of_app. right. by left.
        -- injection Heq as -> _. cbn [forallb] in HW.
           apply andb_true_iff in HW as [Hw' _]. congruence.
      * injection Heq as -> Heq. by apply (IHW HW X Y Z sp c d).
  - cbn [forallb] in HA. apply andb_true_iff in HA as [Ha HA].
    intros X Y Z sp c d Heq Hsp Hc Hd.
    destruct X as [|x X]; cbn [app] in Heq.
    + injection Heq as -> _. unfold nonspace in Ha. by rewrite Hsp in Ha.
    + injection Heq as -> Heq. by apply (IH HA X Y Z sp c d).
Qed.

(** Without a visible character between the verb and the protocol token
    the regular expression finds nothing. *)
Lemma blank_run_no_match (v : RequestVerbs) (inner : list N) :
  forallb isspace inner = true ->
  re_search (first_line_text v inner) = None.
Proof.
  intros Hin.
  destruct (re_search (first_line_text v inner)) as [[a r]|] eqn:Hs; [|done].
  exfalso.
  apply re_search_inv in Hs as (pre & ws & t & Heq & _ & Hne & Hws & Ht & _).
  apply token_run_shape in Ht as (c & t0 & d & -> & Hc & Hd).
  destruct ws as [|sp ws' _] using rev_ind; [done|].
  rewrite forallb_app in Hws. apply andb_true_iff in Hws as [_ Hsp].
  cbn [forallb] in Hsp. rewrite andb_true_r in Hsp.
  apply (no_inner_token (verb_value v) (SP ++ inner ++ SP) PROTOCOL)
    with (X := pre ++ ws') (Y := t0) (Z := r) (sp := sp) (c := c) (d := d);
    try done.
  - apply verb_nonspace.
  - by rewrite !forallb_app, Hin.
  - unfold first_line_text in Heq.
    transitivity (verb_value v ++ SP ++ inner ++ SP ++ PROTOCOL);
      [by rewrite <- !app_assoc|].
    rewrite Heq. rewrite <- !app_assoc. cbn [app]. by rewrite <- !app_assoc.
Qed.

(** A request whose name run is blank: the validator fails its
    assertion. *)
Lemma valid_request_blank (v : RequestVerbs) (inner : list N)
    (payload : list (list N)) (w : world) :
  one_line inner = true ->
  forallb isspace inner = true ->
  Forall (fun l => phone_line l = true) payload ->
  _is_valid_request (request_text v inner payload) w
  = (inl AssertionError, set_request_type v w).
Proof.
  intros Hi Hb Hp.
  unfold _is_valid_request.
  replace (find _ all_RequestVerbs) with (Some v).
  2:{ symmetry. unfold request_text.
      destruct payload as [|p ps]; cbn [join]; unfold first_line_text;
        rewrite <- !app_assoc; apply find_verb. }
  rewrite request_ending by done.
  unfold bind at 1. unfold modify at 1.
  unfold bind at 1. unfold _check_request_body.
  rewrite request_payload by done.
  replace (endswith (first_line_text v inner) (SP ++ PROTOCOL)) with true.
  2:{ symmetry. unfold first_line_text.
      rewrite !app_assoc, <- (app_assoc _ SP PROTOCOL). apply endswith_app. }
  rewrite no_breaks.
  2:{ constructor; [by apply first_line_one_line | by apply payload_lines]. }
  cbn [negb orb]. by rewrite blank_run_no_match.
Qed.

End BlankFacts.

Import VerbFacts BlankFacts.

(** ** The payload *)

Module PayloadFacts.

Lemma lines_inv (payload : list (list N)) :
  Forall (fun l => one_line l = true /\ l <> []) payload ->
  Forall (fun l => one_line l = true) payload
  /\ Forall (fun l => 13 ∉ l) payload
  /\ Forall (fun l => l <> []) payload.
Proof.
  induction 1 as [|l ls [Hl Hne] _ (IH1 & IH2 & IH3)]; [done|].
  pose proof (one_line_inv l Hl) as [? _]. repeat split; by constructor.
Qed.

(** The lines of a request text whose payload lines are one line each
    and not empty. *)
Lemma request_lines (v : RequestVerbs) (inner : list N)
    (payload : list (list N)) :
  one_line inner = true ->
  Forall (fun l => one_line l = true /\ l <> []) payload ->
  List.filter nonempty (split CRLF (request_text v inner payload))
  = first_line_text v inner :: payload.
Proof.
  intros Hi Hp. destruct (lines_inv payload Hp) as (_ & Hcr & Hne).
  pose proof (one_line_inv _ (first_line_one_line v inner Hi)) as [Hf _].
  unfold request_text. rewrite split_request by (by constructor).
  rewrite List.filter_app, filter_nonempty_all
    by (constructor; [apply first_line_nonempty | done]).
  cbn [List.filter nonempty]. apply app_nil_r.
Qed.

Lemma forallb_phone_line (payload : list (list N)) :
  forallb phone_line payload = true <->
  Forall (fun l => phone_line l = true) payload.
Proof.
  rewrite forallb_forall, List.Forall_forall. done.
Qed.

(** A payload with a line that is not a phone line fails the check of
    [_check_phones_in_request]. *)
Lemma phones_check_fails (payload : list (list N)) :
  Forall (fun l => one_line l = true /\ l <> []) payload ->
  forallb phone_line payload = false ->
  payload <> map strip (List.filter (fun l => nonempty (strip l)) payload).
Proof.
  intros Hl Hno Heq. apply phones_fixed_inv in Heq.
  assert (forallb phone_line payload = true); [|congruence].
  apply forallb_phone_line. clear Hno.
  induction Hl as [|l ls [H1 H2] _ IH]; [constructor|].
  apply Forall_cons in Heq as [[_ Hs] Heq]. constructor; [|by apply IH].
  unfold phone_line. rewrite H1. destruct l; [done|].
  by rewrite bool_decide_eq_true_2.
Qed.

(** A request whose name run is in order and whose payload has a line
    that is not a phone line is rejected. *)
Lemma valid_request_bad_payload (v : RequestVerbs) (inner : list N)
    (payload : list (list N)) (w : world) :
  name_run inner = true ->
  (length inner <= ALLOWED_NAME_LENGTH)%nat ->
  Forall (fun l => one_line l = true /\ l <> []) payload ->
  forallb phone_line payload = false ->
  fst (_is_valid_request (request_text v inner payload) w)
  = inl CanNotParseRequestError.
Proof.
  intros Hn Hlen Hl Hno. pose proof Hn as [Hi _]%andb_true_iff.
  unfold _is_valid_request.
  replace (find _ all_RequestVerbs) with (Some v).
  2:{ symmetry. unfold request_text.
      destruct payload as [|p ps]; cbn [join]; unfold first_line_text;
        rewrite <- !app_assoc; apply find_verb. }
  destruct (_ && _); [|done].
  unfold bind at 1. unfold modify at 1.
  unfold bind at 1. unfold _check_request_body.
  rewrite request_lines by done.
  replace (endswith (first_line_text v inner) (SP ++ PROTOCOL)) with true.
  2:{ symmetry. unfold first_line_text.
      rewrite !app_assoc, <- (app_assoc _ SP PROTOCOL). apply endswith_app. }
  rewrite no_breaks.
  2:{ constructor; [by apply first_line_one_line | by apply lines_inv]. }
  cbn [negb orb]. rewrite first_line_search by done.
  rewrite group_prefix. rewrite (slice_1_m1_wrapped 32 32).
  unfold bind at 1, modify at 1, bind at 1, get at 1. cbn [self set_name name].
  apply Nat.leb_le in Hlen. rewrite Hlen.
  unfold _check_phones_in_request, bind, modify, get, ret.
  cbn [self phones set_phones].
  rewrite bool_decide_eq_false_2 by (by apply phones_check_fails).
  reflexivity.
Qed.

End PayloadFacts.

Import PayloadFacts.

(** ** Records beside each other *)

Module ShelfFacts.

Import Os.

(** The phonebook directory is there. *)
Lemma stat_dir_inv (fs : gmap (list (list N)) node) (root : list N) :
  stat fs root = inr Dir ->
  exists q, locate fs root = inr q /\ entry fs q = Some Dir.
Proof.
  unfold stat. destruct (locate fs root) as [|q]; [done|].
  destruct (entry fs q) as [[|]|] eqn:Hq; try done. by exists q.
Qed.

Lemma store_ready_intro (fs : gmap (list (list N)) node) (root n b bn : list N)
    (q : list (list N)) :
  locate fs root = inr q -> pathname (root ++ slash ++ n) = inr b ->
  fsencode n = Some bn -> entry fs q = Some Dir ->
  entry fs (q ++ [bn]) <> Some Dir ->
  store_ready fs root n = true.
Proof.
  intros Hroot Hb Hbn Hq Hnd. unfold store_ready.
  rewrite Hroot, Hb, Hbn, Hq. by destruct (entry fs (q ++ [bn])) as [[|]|].
Qed.

(** After a store the phonebook is ready for the next one. *)
Lemma write_phones_ready (w w1 : world) (content : list N) :
  plain_name (name (self w)) = true ->
  store_ready (disk w) (path_to_phonebook (self w)) (name (self w)) = true ->
  _write_phones w = (inr (response_line OK ++ CRLFCRLF), w1) ->
  store_ready (disk w1) (path_to_phonebook (self w)) (name (self w)) = true.
Proof.
  intros Hplain Hready.
  pose proof (plain_name_inv _ Hplain) as (Hne & Hsl & Hnul & Hdot & Hdd).
  apply store_ready_inv in Hready
    as (q & b & bn & Hroot & Hb & Hbn & Hq & Hnd0).
  set (n := name (self w)) in *. set (q' := q ++ [bn]) in *.
  assert (Hfinal : forall fs1 c,
    locate fs1 (path_to_phonebook (self w)) = inr q ->
    entry fs1 q = Some Dir ->
    entry fs1 q' <> Some Dir ->
    store_ready (<[q' := File c]> (<[q' := File []]> fs1))
      (path_to_phonebook (self w)) n = true).
  { intros fs1 c Hloc Hq1 Hnd. apply (store_ready_intro _ _ _ b bn q); try done.
    - apply (locate_keeps fs1); [|done].
      apply (keeps_dirs_trans _ (<[q' := File []]> fs1)).
      + by apply keeps_dirs_insert.
      + apply keeps_dirs_insert. by rewrite entry_insert_eq by apply snoc_nonnil.
    - by rewrite !entry_insert_ne by (symmetry; apply snoc_ne).
    - fold q'. by rewrite entry_insert_eq by apply snoc_nonnil. }
  assert (Hns : endswith (record_path (self w)) Os.slash = false)
    by (unfold record_path; by apply record_path_no_slash).
  assert (Hpn : pathname (record_path (self w)) = inr b) by done.
  unfold _write_phones, bind, get, _is_path_exists, os_call, modify, encode, ret.
  unfold stat at 1. cbn [self disk log_call set_disk fst snd]. rewrite Hroot.
  destruct Hq as [Hq|Hq]; rewrite Hq.
  - assert (Hloc : locate (disk w) (record_path (self w)) = inr q')
      by (by apply (locate_plain_record _ _ _ b)).
    unfold open_w. cbn [self disk log_call set_disk]. rewrite Hpn, Hns, Hloc.
    destruct (entry (disk w) q') as [[|]|] eqn:Hq'; [done| |];
      cbn [fst snd self disk log_call set_disk];
      (destruct (utf8_encode _) as [c'|]; [|done]);
      intros [= <-]; cbn [disk]; apply Hfinal; try done; by rewrite Hq'.
  - rewrite (mkdir_nothing _ _ q) by done.
    cbn [self disk log_call set_disk].
    assert (Hq_ne : q <> []) by (intros ->; done).
    assert (Hroot' : locate (<[q := Dir]> (disk w)) (path_to_phonebook (self w))
                     = inr q).
    { apply (locate_keeps (disk w)); [|done].
      apply keeps_dirs_insert. by rewrite Hq. }
    assert (Hq1 : entry (<[q := Dir]> (disk w)) q = Some Dir)
      by (by apply entry_insert_eq).
    assert (Hloc : locate (<[q := Dir]> (disk w)) (record_path (self w)) = inr q')
      by (by apply (locate_plain_record _ _ _ b)).
    assert (Hnd : entry (<[q := Dir]> (disk w)) q' <> Some Dir)
      by (by rewrite entry_insert_ne by apply snoc_ne).
    unfold open_w. rewrite Hpn, Hns, Hloc.
    destruct (entry (<[q := Dir]> (disk w)) q') as [[|]|] eqn:Hq'; [done| |];
      cbn [fst snd self disk log_call set_disk];
      (destruct (utf8_encode _) as [c'|]; [|done]);
      intros [= <-]; cbn [disk]; apply Hfinal; try done;
      by rewrite Hq'.
Qed.

(** Where the phonebook directory is there, the record of another plain
    name is beside the one an operation works on. *)
Section Beside.

Variables (fs : gmap (list (list N)) node) (root n n' : list N)
  (bn bn' : list N) (q : list (list N)).
Hypothesis Hroot : locate fs root = inr q.
Hypothesis Hq : entry fs q = Some Dir.
Hypothesis Hn : plain_name n = true.
Hypothesis Hn' : plain_name n' = true.
Hypothesis Hbn : fsencode n = Some bn.
Hypothesis Hbn' : fsencode n' = Some bn'.
Hypothesis Hne : n' <> n.

Lemma beside_ne : q ++ [bn'] <> q ++ [bn].
Proof.
  intros H. apply app_inv_head in H. injection H as H.
  apply plain_name_bytes in Hn as (x & Hx & Hfx & _).
  apply plain_name_bytes in Hn' as (x' & Hx' & Hfx' & _).
  apply Hne. apply (utf8_encode_inj _ _ x); congruence.
Qed.

(** A path name the system refuses is refused whatever is on the disk. *)
Lemma open_r_refused (fs' : gmap (list (list N)) node) (p : list N) (e : error) :
  pathname p = inl e -> open_r fs' p = open_r fs p.
Proof. intros H. unfold open_r, locate, components. by rewrite H. Qed.

Lemma open_r_beside (fs' : gmap (list (list N)) node) :
  keeps_dirs fs fs' ->
  entry fs' (q ++ [bn']) = entry fs (q ++ [bn']) ->
  open_r fs' (root ++ slash ++ n') = open_r fs (root ++ slash ++ n').
Proof.
  intros Hk He.
  destruct (pathname (root ++ slash ++ n')) as [e|b] eqn:Hb;
    [by apply (open_r_refused _ _ e)|].
  unfold open_r.
  rewrite (locate_plain_record fs root n' b bn' q) by done.
  rewrite (locate_plain_record fs' root n' b bn' q); try done.
  - by rewrite He.
  - by apply (locate_keeps fs).
  - by apply Hk.
Qed.

Lemma open_r_beside_insert (c : node) :
  entry fs (q ++ [bn]) <> Some Dir ->
  open_r (<[q ++ [bn] := c]> fs) (root ++ slash ++ n')
  = open_r fs (root ++ slash ++ n').
Proof.
  intros Hnd. apply open_r_beside.
  - by apply keeps_dirs_insert.
  - apply entry_insert_ne, beside_ne.
Qed.

Lemma open_r_beside_delete :
  entry fs (q ++ [bn]) <> Some Dir ->
  open_r (delete (q ++ [bn]) fs) (root ++ slash ++ n')
  = open_r fs (root ++ slash ++ n').
Proof.
  intros Hnd. apply open_r_beside.
  - by apply keeps_dirs_delete.
  - apply entry_delete_ne, beside_ne.
Qed.

End Beside.

End ShelfFacts.

Import ShelfFacts.

(** ** Names with a NUL *)

Module NulFacts.

Import Os.

Lemma contains_true (s : list N) (c : N) : contains s c = true <-> c ∈ s.
Proof.
  destruct (contains s c) eqn:H.
  - split; [|done]. intros _. destruct (decide (c ∈ s)) as [|Hn]; [done|].
    apply contains_false in Hn. congruence.
  - apply contains_false in H. split; [done|]. intros. done.
Qed.

(** A NUL of the name is a NUL of its bytes. *)
Lemma fsencode_nul (p b : list N) :
  fsencode p = Some b -> contains p 0 = true -> contains b 0 = true.
Proof.
  revert b. induction p as [|c p IH]; intros b; cbn [fsencode]; [done|].
  destruct (fsencode_char c) as [bc|] eqn:Hc; [|done].
  destruct (fsencode p) as [r|]; [|done].
  intros [= <-]. rewrite contains_app. unfold contains at 1. cbn [existsb].
  destruct (N.eqb_spec 0 c) as [<-|Hne].
  - injection Hc as <-. reflexivity.
  - cbn [orb]. intros H. fold (contains p 0) in H.
    rewrite (IH r eq_refl H). apply orb_true_r.
Qed.

(** Every call on a name with a NUL fails with [ValueError]. *)
Lemma pathname_nul (p : list N) :
  contains p 0 = true -> pathname p = inl ValueError.
Proof.
  intros H. unfold pathname. destruct (fsencode p) as [b|] eqn:Hb; [|done].
  by rewrite (fsencode_nul p b).
Qed.

Lemma locate_nul (fs : gmap (list (list N)) node) (p : list N) :
  contains p 0 = true -> locate fs p = inl ValueError.
Proof. intros H. unfold locate, components. by rewrite pathname_nul. Qed.

Lemma stat_nul (fs : gmap (list (list N)) node) (p : list N) :
  contains p 0 = true -> stat fs p = inl ValueError.
Proof. intros H. unfold stat. by rewrite locate_nul. Qed.

Lemma open_w_nul (fs : gmap (list (list N)) node) (p : list N) :
  contains p 0 = true -> open_w fs p = inl ValueError.
Proof. intros H. unfold open_w. by rewrite pathname_nul. Qed.

Lemma record_path_nul (s : server) :
  contains (name s) 0 = true -> contains (record_path s) 0 = true.
Proof.
  intros H. unfold record_path. rewrite !contains_app, H.
  by rewrite !orb_true_r.
Qed.

End NulFacts.

Import NulFacts.

(** ** The handler cut at its awaits *)

Module AsyncFacts.

Import Async.

Lemma finish_and_then {A B} (t : task A) (f : A -> co B) :
  finish (and_then t f)
  = match finish t with
    | (inr a, w) => finish (f a w)
    | (inl e, w) => (inl e, w)
    end.
Proof. induction t as [a w|e w|w k IH]; cbn [and_then finish]; auto. Qed.

Lemma finish_or_else {A} (t : task A) (caught : exn -> bool) (h : co A) :
  finish (or_else t caught h)
  = match finish t with
    | (inl e, w) => if caught e then finish (h w) else (inl e, w)
    | r => r
    end.
Proof.
  induction t as [a w|e w|w k IH]; cbn [or_else finish]; auto.
  by destruct (caught e).
Qed.

Lemma alone_bind {A B} (c : co A) (f : A -> co B) (w : world) :
  alone (Async.bind c f) w = RKSOK.bind (alone c) (fun a => alone (f a)) w.
Proof.
  unfold alone, Async.bind, RKSOK.bind. rewrite finish_and_then.
  by destruct (finish (c w)) as [[e|a] w'].
Qed.

Lemma alone_try {A} (c : co A) (caught : exn -> bool) (h : co A) (w : world) :
  alone (Async.try_except c caught h) w
  = RKSOK.try_except (alone c) caught (alone h) w.
Proof.
  unfold alone, Async.try_except, RKSOK.try_except. rewrite finish_or_else.
  by destruct (finish (c w)) as [[e|a] w'].
Qed.

Lemma alone_now {A} (m : M A) (w : world) : alone (now m) w = m w.
Proof. unfold alone, now. by destruct (m w) as [[e|a] w']. Qed.

Lemma alone_await {A} (m : M A) (w : world) : alone (await m) w = m w.
Proof. unfold alone, await. cbn [finish]. apply alone_now. Qed.


Ltac alone_step :=
  first [ rewrite alone_bind | rewrite alone_now | rewrite alone_await
        | rewrite alone_try ].











(** *** The loop on one connection *)


Lemma leave_leave (w'' w' w : world) : leave w'' (leave w' w) = leave w'' w.
Proof. reflexivity. Qed.



End AsyncFacts.

Import AsyncFacts.

(** * Further properties *)

(** X1.  How a connection ends.  With the writes to the client taken to
    succeed, a connection that is served from its first line to its last
    is either answered exactly once and then closed, or ends in an
    exception with nothing written to the client, and the exception is
    then one of four: [AssertionError], [UnicodeDecodeError], an error of
    the file system, or the [OSError] of the network (a read on a
    connection that broke, a connection to the validation server that
    fails otherwise than by being refused).  The index error of an empty
    request, the refused connection to the validation server and an
    encoding error do not leave [handle_echo]. *)
Theorem connection_answered_or_escapes (client : reader) (auth : authority)
    (w : world) :
  match handle_echo client auth w with
  | (inr _, w') => exists b, client_out w' = client_out w ++ [Written b; Closed]
  | (inl e, w') => escapes e = true /\ client_out w' = client_out w
  end.
Proof.
  pose proof (connection_outcome client auth w) as Ho.
  destruct (handle_echo client auth w) as [[e|[]] w'] eqn:He; [|done].
  split; [|apply Ho].
  destruct (handle_echo_cases client auth w)
    as [(w1 & _ & H) | [(e' & w1 & _ & Hx & H)
        | (data & message & w1 & r & reply & verdict & env
           & Hrx & Hdec & Hval & -> & Hrx' & Hdec' & Henv & _)]].
  - congruence.
  - rewrite He in H. injection H as -> _. by destruct Hx as [-> | [-> | ->]].
  - pose proof (accepted_intro client w w1 data message Hrx Hdec Hval) as Hacc.
    destruct (startswith verdict (validation_value ALLOWED ++ SP)) eqn:Hok.
    + assert (Hal : allows (Connected r) = true).
      { unfold allows, verdict_of. by rewrite Hrx', Hdec'. }
      pose proof (handle_echo_permitted client (Connected r) w w1 data
                    Hacc Hal) as H.
      destruct (crud_dict _ _) as [[e'|resp] w3].
      * destruct H as [Hx H]. congruence.
      * destruct H as (b & _ & H). congruence.
    + rewrite (handle_echo_not_permitted client r w w1 data reply verdict)
        in He by done.
      congruence.
Qed.

(** X2.  The record store is reached with permission, and only then.
    Take a connection that is served in one piece, with no other
    connection served in between.  When its request passed the validator
    and the reply of the validation server began with the word of
    permission, the disk and the log of file-system calls are after the
    connection what the one operation of the request's verb made of
    them, started on the disk and the log as they were before the
    connection.  In every other case they are after the connection what
    they were before it. *)
Theorem store_reached_only_with_permission (client : reader)
    (auth : authority) (w : world) :
  let w' := snd (handle_echo client auth w) in
  match accepted client w with
  | Some (data, w1) =>
    if allows auth then
      let w2 := to_upstream Closed
                  (to_upstream (Written (query_header ++ data)) w1) in
      let w3 := snd (crud_dict (request_type (self w1)) w2) in
      (disk w2 = disk w /\ calls w2 = calls w)
      /\ disk w' = disk w3 /\ calls w' = calls w3
    else disk w' = disk w /\ calls w' = calls w
  | None => disk w' = disk w /\ calls w' = calls w
  end.
Proof.
  cbv zeta.
  destruct (accepted client w) as [[data w1]|] eqn:Hacc.
  2:{ apply unpermitted_frame. by left. }
  destruct (allows auth) eqn:Hal.
  2:{ apply unpermitted_frame. by right. }
  pose proof (handle_echo_permitted client auth w w1 data Hacc Hal) as H.
  apply accepted_inv in Hacc as (message & _ & _ & Hval).
  pose proof (untouched_valid_request message w) as Hu.
  rewrite Hval in Hu. cbn [snd] in Hu.
  split; [split; apply Hu|].
  destruct (crud_dict _ _) as [[e|resp] w3].
  - by destruct H as [_ ->].
  - by destruct H as (b & _ & ->).
Qed.

(** X3.  The failures [handle_echo] catches beyond a malformed request.  When
    the client stays silent until the deadline, or the request is
    accepted and the validation server refuses the connection, stays
    silent until the deadline, or replies with a text that begins with
    none of its words, the client gets the incorrect-request response,
    the connection is closed, and the disk and the log of file-system
    calls are unchanged. *)
Theorem caught_failures_leave_store (client : reader) (auth : authority)
    (w : world) :
  (_receiving_data client = Pending
   \/ (exists dw, accepted client w = Some dw
        /\ (auth = Refused
            \/ (exists r, auth = Connected r /\ _receiving_data r = Pending)
            \/ (exists verdict,
                  verdict_of auth = Some verdict
                  /\ existsb (fun v => startswith verdict
                                         (validation_value v ++ SP))
                       all_ValidationWords = false)))) ->
  exists w',
    handle_echo client auth w = (inr tt, w')
    /\ client_out w' = client_out w ++ [Written incorrect_response; Closed]
    /\ disk w' = disk w
    /\ calls w' = calls w.
Proof.
  intros Hcase.
  assert (Hans : exists w', handle_echo client auth w = (inr tt, w')
            /\ client_out w' = client_out w ++ [Written incorrect_response; Closed]).
  { apply caught_failure_answered.
    destruct Hcase as [Hp | ([data w1] & Hacc & Hcase)]; [by left|].
    right. apply accepted_inv in Hacc as (message & Hrx & Hdec & Hval).
    exists data, message. split; [done|]. split; [done|]. right.
    rewrite Hval. split; [done|].
    destruct Hcase as [-> | [(r & -> & Hp) | (verdict & Hv & H)]].
    - by left.
    - right. left. by exists r.
    - right. right. unfold verdict_of in Hv. destruct auth as [| |r]; [done..|].
      destruct (_receiving_data r) as [reply| |] eqn:Hr; try done.
      by exists r, reply, verdict. }
  destruct Hans as (w' & Hrun & Hout). exists w'.
  split; [done|]. split; [done|].
  pose proof (unpermitted_frame client auth w) as Hframe.
  rewrite Hrun in Hframe. apply Hframe.
  destruct Hcase as [Hp | (dw & _ & Hcase)].
  { left. unfold accepted. by rewrite Hp. }
  right. unfold allows.
  destruct Hcase as [-> | [(r & -> & Hp) | (verdict & Hv & H)]].
  - done.
  - unfold verdict_of. by rewrite Hp.
  - rewrite Hv. cbn [existsb all_ValidationWords] in H.
    by apply orb_false_iff in H as [_ [H _]%orb_false_iff].
Qed.

(** The client never speaks: the fixed response, on an untouched store. *)
Lemma caught_failures_leave_store_witness :
  exists w',
    handle_echo (Reader [] Silent) (answers allowed_reply) (world_on empty_book)
    = (inr tt, w')
    /\ client_out w' = [] ++ [Written incorrect_response; Closed]
    /\ disk w' = empty_book
    /\ calls w' = [].
Proof.
  apply (caught_failures_leave_store (Reader [] Silent) (answers allowed_reply)
           (world_on empty_book)).
  left. reflexivity.
Defined.

(** X4.  What the validation server is sent.  Nothing, unless
    the request passed the validator and the connection to the validation
    server was made; then one write, of the fixed query line followed by
    the very bytes the client sent, and no second one.  The writer to the
    validation server is closed only when a reply arrived and could be
    decoded: after a timeout or an undecodable reply it is left open. *)
Theorem upstream_query (client : reader) (auth : authority) (w : world) :
  upstream_out (snd (handle_echo client auth w))
  = upstream_out w
    ++ match auth, accepted client w with
       | Connected r, Some (data, _) =>
         Written (query_header ++ data)
         :: match _receiving_data r with
            | Returned reply =>
              match utf8_decode reply with
              | Some _ => [Closed]
              | None => []
              end
            | _ => []
            end
       | _, _ => []
       end.
Proof.
  rewrite handle_echo_run. unfold accepted.
  destruct (_receiving_data client) as [data|e|].
  2:{ by destruct (caught e), auth; cbn; rewrite app_nil_r. }
  2:{ by destruct auth; cbn; rewrite app_nil_r. }
  destruct (utf8_decode data) as [message|] eqn:Hdec.
  2:{ by destruct auth; cbn; rewrite app_nil_r. }
  destruct (valid_request_frame message w) as (_ & _ & _ & Hup & _).
  pose proof (valid_request_inv message w) as Hinv.
  destruct (_is_valid_request message w) as [[e|b] w1]; cbn [snd] in Hup.
  { by destruct (caught e), auth; cbn; rewrite Hup, app_nil_r. }
  destruct (Hinv _ _ eq_refl) as (_ & _ & _ & _ & -> & _). clear Hinv.
  rewrite tcp_echo_client_run.
  destruct auth as [| |r].
  { cbn. by rewrite Hup, app_nil_r. }
  { cbn. by rewrite Hup, app_nil_r. }
  destruct (envelope_encodes _ _ Hdec) as [env Henv]. rewrite Henv.
  rewrite (envelope_bytes data message env Hdec Henv). cbv zeta.
  pose proof (receiving_loop_raised (chunks r) (ending r) []) as Hr.
  fold (_receiving_data r) in Hr.
  destruct (_receiving_data r) as [reply|e|].
  - destruct (utf8_decode reply) as [verdict|] eqn:Hdec'.
    + rewrite Hdec', on_server_response_upstream.
      cbn [upstream_out to_upstream]. rewrite Hup, <- app_assoc. done.
    + cbn. by rewrite Hup.
  - destruct (Hr e eq_refl) as [-> | ->]; cbn; by rewrite Hup.
  - cbn. by rewrite Hup.
Qed.

(** X5.  A permitted request is carried out by the one operation of its
    verb, when its connection is served in one piece.  Take a connection
    that the server serves from the first line of [handle_echo] to the
    last with no other connection served in between, so that the fields
    of the server object stay as the validator of this connection left
    them.  When the request passed the validator and the validation
    server gave its permission, [handle_echo] runs the operation
    [crud_dict] has for the verb of the request, once, on the world the
    validator left (with the query written and the writer to the
    validation server closed).  When the operation answers, the client is
    sent the UTF-8 bytes of that answer, which can always be encoded, and
    the connection is closed; when it raises, the exception leaves
    [handle_echo] and nothing is sent. *)
Theorem permitted_request_executed (client : reader) (auth : authority)
    (w w1 : world) (data : list N) :
  accepted client w = Some (data, w1) ->
  allows auth = true ->
  match crud_dict (request_type (self w1))
          (to_upstream Closed
             (to_upstream (Written (query_header ++ data)) w1)) with
  | (inr resp, w3) =>
    exists b, utf8_encode resp = Some b
              /\ handle_echo client auth w
                 = (inr tt, to_client Closed (to_client (Written b) w3))
  | (inl e, w3) => handle_echo client auth w = (inl e, w3)
  end.
Proof.
  intros Hacc Hal.
  pose proof (handle_echo_permitted client auth w w1 data Hacc Hal) as H.
  destruct (crud_dict _ _) as [[e|resp] w3]; [apply H | done].
Qed.

(** A permitted retrieve of the record [Ivan]. *)
Lemma permitted_request_executed_witness :
  let data := octets "ОТДОВАЙ Ivan РКСОК/1.0" ++ CRLFCRLF in
  let w1 := set_name (lit "Ivan")
              (set_phones []
                 (set_name (lit "Ivan")
                    (set_request_type GET (world_on ivan_disk)))) in
  match crud_dict (request_type (self w1))
          (to_upstream Closed
             (to_upstream (Written (query_header ++ data)) w1)) with
  | (inr resp, w3) =>
    exists b, utf8_encode resp = Some b
              /\ handle_echo (sends data) (answers allowed_reply)
                   (world_on ivan_disk)
                 = (inr tt, to_client Closed (to_client (Written b) w3))
  | (inl e, w3) =>
    handle_echo (sends data) (answers allowed_reply) (world_on ivan_disk)
    = (inl e, w3)
  end.
Proof.
  apply (permitted_request_executed
           (sends (octets "ОТДОВАЙ Ivan РКСОК/1.0" ++ CRLFCRLF))
           (answers allowed_reply) (world_on ivan_disk)).
  - vm_compute. reflexivity.
  - reflexivity.
Defined.

(** X6.  Store, then retrieve, over the wire.  A client sends a store
    request whose name run [inner] holds a plain file name within the
    bound and whose payload lines are phone lines; the validation server
    permits it; the phonebook is ready for the record.  The client is
    answered with the bare OK response.  A second connection then sends a
    retrieve request for a name run that trims to the same name, and is
    permitted: the bytes it is answered with decode to the OK line
    followed by exactly the stored lines, joined by CR LF, and the
    terminator. *)
Theorem wire_round_trip (store_client get_client : reader)
    (auth auth' : authority) (w : world) (inner inner' : list N)
    (P : list (list N)) :
  request_of store_client = Some (request_text WRITE inner P) ->
  request_of get_client = Some (request_text GET inner' []) ->
  allows auth = true ->
  allows auth' = true ->
  name_run inner = true ->
  name_run inner' = true ->
  (length inner <= ALLOWED_NAME_LENGTH)%nat ->
  (length inner' <= ALLOWED_NAME_LENGTH)%nat ->
  strip inner' = strip inner ->
  plain_name (strip inner) = true ->
  Forall (fun l => phone_line l = true) P ->
  store_ready (disk w) (path_to_phonebook (self w)) (strip inner) = true ->
  exists w1 w2 b,
    handle_echo store_client auth w = (inr tt, w1)
    /\ client_out w1 = client_out w ++ [Written ok_response; Closed]
    /\ handle_echo get_client auth' w1 = (inr tt, w2)
    /\ client_out w2 = client_out w1 ++ [Written b; Closed]
    /\ utf8_decode b
       = Some (response_line OK ++ CRLF ++ join CRLF P ++ CRLFCRLF).
Proof.
  intros Hreq Hreq' Hal Hal' Hrun Hrun' Hlen Hlen' Hsame Hplain HP Hready.
  destruct (store_over_wire store_client auth w inner P)
    as (w1 & content & Hs & Hout & Hroot & Henc & Hopen); try done.
  destruct (retrieve_over_wire get_client auth' w1 inner' content (join CRLF P))
    as (w2 & b & Hg & Hout' & _ & Hb); try done.
  { by rewrite Hroot, Hsame. }
  { by apply utf8_decode_encode. }
  exists w1, w2, b. rewrite readlines_join in Hb by done. done.
Qed.

(** The record [Ivan] with two phones, stored on a fresh disk and asked
    for with another spacing of the name. *)
Lemma wire_round_trip_witness :
  exists w1 w2 b,
    handle_echo
      (sends (octets "ЗОПИШИ Ivan РКСОК/1.0" ++ CRLF ++ octets "+7123" ++ CRLF
              ++ octets "+7456" ++ CRLFCRLF))
      (answers allowed_reply) (world_on fresh_disk) = (inr tt, w1)
    /\ client_out w1 = [] ++ [Written ok_response; Closed]
    /\ handle_echo (sends (octets "ОТДОВАЙ   Ivan  РКСОК/1.0" ++ CRLFCRLF))
         (answers allowed_reply) w1 = (inr tt, w2)
    /\ client_out w2 = client_out w1 ++ [Written b; Closed]
    /\ utf8_decode b
       = Some (response_line OK ++ CRLF
               ++ join CRLF [lit "+7123"; lit "+7456"] ++ CRLFCRLF).
Proof.
  apply (wire_round_trip
           (sends (octets "ЗОПИШИ Ivan РКСОК/1.0" ++ CRLF ++ octets "+7123"
                   ++ CRLF ++ octets "+7456" ++ CRLFCRLF))
           (sends (octets "ОТДОВАЙ   Ivan  РКСОК/1.0" ++ CRLFCRLF))
           (answers allowed_reply) (answers allowed_reply) (world_on fresh_disk)
           (lit "Ivan") (lit "  Ivan ") [lit "+7123"; lit "+7456"]).
  - vm_compute. reflexivity.
  - vm_compute. reflexivity.
  - reflexivity.
  - reflexivity.
  - reflexivity.
  - reflexivity.
  - vm_compute. lia.
  - vm_compute. lia.
  - reflexivity.
  - reflexivity.
  - repeat constructor.
  - reflexivity.
Defined.

(** X7.  Delete over the wire.  When a record is there, a permitted delete
    request for its name is answered with the bare OK response, and a
    permitted retrieve or delete request for the same name on a later
    connection is answered with the not-found response and leaves the
    disk as it is. *)
Theorem wire_delete_then_missing (delete_client next_client : reader)
    (auth auth' : authority) (w : world) (v : RequestVerbs)
    (inner inner' content : list N) :
  request_of delete_client = Some (request_text DELETE inner []) ->
  request_of next_client = Some (request_text v inner' []) ->
  v = GET \/ v = DELETE ->
  allows auth = true ->
  allows auth' = true ->
  name_run inner = true ->
  name_run inner' = true ->
  (length inner <= ALLOWED_NAME_LENGTH)%nat ->
  (length inner' <= ALLOWED_NAME_LENGTH)%nat ->
  strip inner' = strip inner ->
  Os.open_r (disk w) (path_to_phonebook (self w) ++ Os.slash ++ strip inner)
  = inr content ->
  exists w1 w2,
    handle_echo delete_client auth w = (inr tt, w1)
    /\ client_out w1 = client_out w ++ [Written ok_response; Closed]
    /\ handle_echo next_client auth' w1 = (inr tt, w2)
    /\ client_out w2 = client_out w1 ++ [Written not_found_response; Closed]
    /\ disk w2 = disk w1.
Proof.
  intros Hreq Hreq' Hv Hal Hal' Hrun Hrun' Hlen Hlen' Hsame Hopen.
  destruct (delete_over_wire delete_client auth w inner content)
    as (w1 & Hd & Hout & Hroot & Hgone); try done.
  destruct (missing_over_wire next_client auth' w1 v inner' Os.FileNotFoundError)
    as (w2 & Hn & Hout' & Hdisk); try done.
  { by rewrite Hroot, Hsame. }
  by exists w1, w2.
Qed.

(** The record [Ivan] deleted, and deleted again. *)
Lemma wire_delete_then_missing_witness :
  exists w1 w2,
    handle_echo (sends (octets "УДОЛИ Ivan РКСОК/1.0" ++ CRLFCRLF))
      (answers allowed_reply) (world_on ivan_disk) = (inr tt, w1)
    /\ client_out w1 = [] ++ [Written ok_response; Closed]
    /\ handle_echo (sends (octets "УДОЛИ Ivan РКСОК/1.0" ++ CRLFCRLF))
         (answers allowed_reply) w1 = (inr tt, w2)
    /\ client_out w2 = client_out w1 ++ [Written not_found_response; Closed]
    /\ disk w2 = disk w1.
Proof.
  apply (wire_delete_then_missing
           (sends (octets "УДОЛИ Ivan РКСОК/1.0" ++ CRLFCRLF))
           (sends (octets "УДОЛИ Ivan РКСОК/1.0" ++ CRLFCRLF))
           (answers allowed_reply) (answers allowed_reply) (world_on ivan_disk)
           DELETE (lit "Ivan") (lit "Ivan") (octets "+7123")).
  - vm_compute. reflexivity.
  - vm_compute. reflexivity.
  - right. reflexivity.
  - reflexivity.
  - reflexivity.
  - reflexivity.
  - reflexivity.
  - vm_compute. lia.
  - vm_compute. lia.
  - reflexivity.
  - reflexivity.
Defined.

(** X8.  The ways out of [_receiving_data].  It returns at the first
    chunk that is empty (the peer closed) or that decodes to a text
    ending with the terminator, and then with everything read up to and
    including that chunk; or at the end of a stream that closes, with
    everything.  It raises [UnicodeDecodeError] at a chunk that is not
    UTF-8 on its own, and the error of the read when the connection
    breaks after chunks that were all read through; it raises in no
    other way.  It is still reading at the deadline only when every
    chunk was read through and the stream stays open.  In each case
    every chunk before is one the loop reads on after: not empty,
    decodable, not ending with the terminator. *)
Theorem frame_reader_outcomes (r : reader) :
  match _receiving_data r with
  | Returned data =>
    (exists pre c rest,
        chunks r = pre ++ c :: rest /\ Forall goes_on pre
        /\ data = concat pre ++ c
        /\ (c = [] \/ exists t, utf8_decode c = Some t
                                /\ endswith t CRLFCRLF = true))
    \/ (Forall goes_on (chunks r) /\ ending r = Eof
        /\ data = concat (chunks r))
  | Raised x =>
    (x = UnicodeDecodeError
     /\ exists pre c rest,
          chunks r = pre ++ c :: rest /\ Forall goes_on pre
          /\ utf8_decode c = None)
    \/ (x = OSError /\ Forall goes_on (chunks r) /\ ending r = Broken)
  | Pending => Forall goes_on (chunks r) /\ ending r = Silent
  end.
Proof.
  unfold _receiving_data.
  pose proof (receiving_loop_inv (chunks r) (ending r) []) as H.
  by destruct (receiving_loop (chunks r) (ending r) []).
Qed.

(** X9.  What holds of every request the validator accepts, whatever the
    text.  The answer is [True]; the name it leaves in [self.name] is not
    empty, is equal to its trimmed form, has at most 30 characters and no
    line break; every line it leaves in [self.phones] is a phone line;
    [self.request_type] is the one verb the text begins with; and the
    text ends with the terminator and holds it once. *)
Theorem accepted_request_invariant (raw : list N) (w w' : world) (b : bool) :
  _is_valid_request raw w = (inr b, w') ->
  b = true
  /\ name (self w') <> []
  /\ strip (name (self w')) = name (self w')
  /\ (length (name (self w')) <= ALLOWED_NAME_LENGTH)%nat
  /\ one_line (name (self w')) = true
  /\ Forall (fun l => phone_line l = true) (phones (self w'))
  /\ (forall v, startswith raw (verb_value v ++ SP) = true
                <-> v = request_type (self w'))
  /\ endswith raw CRLFCRLF = true
  /\ count raw CRLFCRLF = 1%nat.
Proof.
  intros H.
  destruct (accepted_invariant raw w w' b H)
    as (H1 & H2 & H3 & H4 & H5 & H6 & H7 & H8 & H9).
  repeat split; try done.
  - intros Hv. by apply (verb_unique raw).
  - by intros ->.
Qed.

(** A store request with a padded two-word name and two phones. *)
Lemma accepted_request_invariant_witness :
  let raw := request_text WRITE (lit "  Ivan   Petrov ")
               [lit "+7123"; lit "+7456"] in
  let w' := set_name (lit "Ivan   Petrov")
              (set_phones [lit "+7123"; lit "+7456"]
                 (set_name (lit "  Ivan   Petrov ")
                    (set_request_type WRITE (world_on empty_book)))) in
  true = true
  /\ name (self w') <> []
  /\ strip (name (self w')) = name (self w')
  /\ (length (name (self w')) <= ALLOWED_NAME_LENGTH)%nat
  /\ one_line (name (self w')) = true
  /\ Forall (fun l => phone_line l = true) (phones (self w'))
  /\ (forall v, startswith raw (verb_value v ++ SP) = true
                <-> v = request_type (self w'))
  /\ endswith raw CRLFCRLF = true
  /\ count raw CRLFCRLF = 1%nat.
Proof.
  apply (accepted_request_invariant
           (request_text WRITE (lit "  Ivan   Petrov ")
              [lit "+7123"; lit "+7456"])
           (world_on empty_book)).
  vm_compute. reflexivity.
Defined.

(** X10.  The three ways out of the validator.  [_is_valid_request] never
    answers [False]: it answers [True], raises [CanNotParseRequestError],
    or raises [AssertionError], and this only when the regular expression
    finds no name on the first line of the text.  The [IndexError] of an
    empty list of lines does not occur.  Whatever the way out, only
    attributes of the server object were assigned: the disk, the log of
    file-system calls, both writers and the phonebook path are as
    before. *)
Theorem validator_outcomes (raw : list N) (w : world) :
  match _is_valid_request raw w with
  | (inr b, w') => b = true
  | (inl e, w') =>
    e = CanNotParseRequestError
    \/ (e = AssertionError /\ request_name raw = None)
  end
  /\ same_outside_self w (snd (_is_valid_request raw w)).
Proof.
  split; [|apply valid_request_frame].
  pose proof (valid_request_raises raw w) as Hr.
  pose proof (valid_request_inv raw w) as Hi.
  destruct (_is_valid_request raw w) as [[e|b] w'].
  - by apply (Hr w').
  - by destruct (Hi w' b eq_refl) as (_ & _ & _ & _ & -> & _).
Qed.

(** X11.  The validator starts afresh.  The attributes [name],
    [request_type] and [phones] stay on the server object from one
    connection to the next, yet nothing of them is read before it is
    assigned: whether [_is_valid_request] accepts or how it raises depends
    on the text alone, and the three attributes an accepted request
    leaves for the record store are the same whatever they held
    before. *)
Theorem validator_starts_afresh (raw : list N) (w w0 : world) :
  fst (_is_valid_request raw w) = fst (_is_valid_request raw w0)
  /\ (forall b, fst (_is_valid_request raw w) = inr b ->
      name (self (snd (_is_valid_request raw w)))
      = name (self (snd (_is_valid_request raw w0)))
      /\ request_type (self (snd (_is_valid_request raw w)))
         = request_type (self (snd (_is_valid_request raw w0)))
      /\ phones (self (snd (_is_valid_request raw w)))
         = phones (self (snd (_is_valid_request raw w0)))).
Proof.
  unfold _is_valid_request.
  destruct (find _ all_RequestVerbs) as [v|]; [|done].
  destruct (_ && _); [|done].
  unfold bind at 1 3 5 7 9 11 13 15, modify at 1 3 5 7 9 11 13 15.
  unfold bind at 1 3 5 7 9 11 13 15, _check_request_body.
  destruct (List.filter nonempty (split CRLF raw)) as [|first rest]; [done|].
  destruct (negb _ || _); [done|].
  destruct (re_search first) as [m|]; [|done].
  unfold _check_phones_in_request. unfold bind, modify, get, ret, raise.
  cbn [self name phones request_type set_name set_phones set_request_type].
  destruct (Nat.leb _ _); [|done].
  by case_bool_decide.
Qed.

(** X12.  A blank name run leaves the connection unanswered.  When the
    client's request has only white space (or nothing) between the space
    after the verb and the space before the protocol token, and is
    otherwise well formed, the regular expression finds no name, the
    assertion of [_check_request_body] fails, and [handle_echo] ends in
    [AssertionError]: nothing is written to the client, nothing is sent to
    the validation server, and the store is not touched. *)
Theorem blank_name_unanswered (client : reader) (auth : authority)
    (w : world) (v : RequestVerbs) (inner : list N)
    (payload : list (list N)) :
  request_of client = Some (request_text v inner payload) ->
  one_line inner = true ->
  strip inner = [] ->
  Forall (fun l => phone_line l = true) payload ->
  exists w',
    handle_echo client auth w = (inl AssertionError, w')
    /\ client_out w' = client_out w
    /\ upstream_out w' = upstream_out w
    /\ disk w' = disk w
    /\ calls w' = calls w.
Proof.
  unfold request_of. intros Hreq Hi Hs Hp.
  destruct (_receiving_data client) as [data| |] eqn:Hrx; try done.
  exists (set_request_type v w).
  rewrite handle_echo_run, Hrx, Hreq.
  rewrite valid_request_blank by (done || by apply strip_nil_all_space).
  done.
Qed.

(** A retrieve request with two spaces and no name between the verb and
    the protocol token. *)
Lemma blank_name_unanswered_witness :
  exists w',
    handle_echo (sends (octets "ОТДОВАЙ  РКСОК/1.0" ++ CRLFCRLF))
      (answers allowed_reply) (world_on empty_book)
    = (inl AssertionError, w')
    /\ client_out w' = []
    /\ upstream_out w' = []
    /\ disk w' = empty_book
    /\ calls w' = [].
Proof.
  apply (blank_name_unanswered
           (sends (octets "ОТДОВАЙ  РКСОК/1.0" ++ CRLFCRLF))
           (answers allowed_reply) (world_on empty_book) GET [] []).
  - vm_compute. reflexivity.
  - reflexivity.
  - reflexivity.
  - constructor.
Defined.

(** X13.  The payload check.  In a request text whose name run is in order
    and within the bound and whose payload lines are each one line and
    not empty, the validator accepts exactly when every payload line is
    equal to its trimmed form; a line with white space at either end, or
    of white space only, makes it raise [CanNotParseRequestError]. *)
Theorem payload_lines_checked (v : RequestVerbs) (inner : list N)
    (payload : list (list N)) (w : world) :
  name_run inner = true ->
  (length inner <= ALLOWED_NAME_LENGTH)%nat ->
  Forall (fun l => one_line l = true /\ l <> []) payload ->
  fst (_is_valid_request (request_text v inner payload) w)
  = if forallb (fun l => bool_decide (strip l = l)) payload
    then inr true else inl CanNotParseRequestError.
Proof.
  intros Hn Hlen Hl.
  assert (Hsame : forallb (fun l => bool_decide (strip l = l)) payload
                  = forallb phone_line payload).
  { clear -Hl. induction Hl as [|l ls [H1 H2] _ IH]; [done|].
    cbn [forallb]. rewrite IH. unfold phone_line. rewrite H1.
    by destruct l. }
  rewrite Hsame.
  destruct (forallb phone_line payload) eqn:Hp.
  - apply forallb_phone_line in Hp. by rewrite valid_request_ok.
  - by apply valid_request_bad_payload.
Qed.

(** A phone with a space before it. *)
Lemma payload_lines_checked_witness :
  fst (_is_valid_request
         (request_text WRITE (lit "Ivan") [lit "+7123"; lit " +7456"])
         (world_on empty_book))
  = if forallb (fun l => bool_decide (strip l = l)) [lit "+7123"; lit " +7456"]
    then inr true else inl CanNotParseRequestError.
Proof.
  apply (payload_lines_checked WRITE (lit "Ivan") [lit "+7123"; lit " +7456"]
           (world_on empty_book)).
  - reflexivity.
  - vm_compute. lia.
  - repeat constructor; discriminate.
Defined.

(** X14.  A store replaces the record.  Take a plain file name: one path
    component that names a file, that is, not empty, without slash or
    NUL, neither [.] nor [..], made of characters UTF-8 encodes (no lone
    surrogate) and of at most 255 bytes encoded; and a phonebook that is
    ready for it: the phonebook directory is there or can be made, the
    system takes the path name of the record, and no directory is in the
    place of the record.  Storing lines [P] that UTF-8 encodes and then
    phone lines [P'] that UTF-8 encodes under this name succeeds both
    times, and a retrieve afterwards returns the OK response with exactly
    the lines of [P']: nothing of [P] is left. *)
Theorem store_overwrites (w : world) (n : list N) (P P' : list (list N)) :
  plain_name n = true ->
  store_ready (disk w) (path_to_phonebook (self w)) n = true ->
  Forall (fun l => forallb scalar l = true) P ->
  Forall (fun l => phone_line l = true) P' ->
  Forall (fun l => forallb scalar l = true) P' ->
  exists w1 w2 w3,
    _write_phones (set_phones P (set_name n w))
    = (inr (response_line OK ++ CRLFCRLF), w1)
    /\ _write_phones (set_phones P' w1)
       = (inr (response_line OK ++ CRLFCRLF), w2)
    /\ _read_phones w2
       = (inr (response_line OK ++ CRLF ++ join CRLF P' ++ CRLFCRLF), w3).
Proof.
  intros Hplain Hready HP HP' HS'.
  destruct (encode_scalar (join CRLF P)) as [c Hc]; [by apply scalar_join|].
  destruct (encode_scalar (join CRLF P')) as [c' Hc']; [by apply scalar_join|].
  destruct (write_phones_ok (set_phones P (set_name n w)) c)
    as (w1 & Hw & Hself & _); try done.
  pose proof (write_phones_ready (set_phones P (set_name n w)) w1 c
                Hplain Hready Hw) as Hready1.
  cbn [self name path_to_phonebook set_phones set_name] in Hready1.
  destruct (write_phones_ok (set_phones P' w1) c')
    as (w2 & Hw' & Hself' & _ & _ & _ & Hopen);
    try (cbn [self name path_to_phonebook phones disk set_phones];
         by rewrite ?Hself).
  exists w1, w2. eexists. split; [done|]. split; [done|].
  rewrite (read_phones_found w2 c' (join CRLF P')).
  - by rewrite readlines_join.
  - by rewrite Hself'.
  - by apply utf8_decode_encode.
Qed.

(** The record [Ivan] stored twice on a fresh disk. *)
Lemma store_overwrites_witness :
  exists w1 w2 w3,
    _write_phones
      (set_phones [lit "+7123"; lit "+7456"]
         (set_name (lit "Ivan") (world_on fresh_disk)))
    = (inr (response_line OK ++ CRLFCRLF), w1)
    /\ _write_phones (set_phones [lit "+7999"] w1)
       = (inr (response_line OK ++ CRLFCRLF), w2)
    /\ _read_phones w2
       = (inr (response_line OK ++ CRLF ++ join CRLF [lit "+7999"]
               ++ CRLFCRLF), w3).
Proof.
  apply (store_overwrites (world_on fresh_disk) (lit "Ivan")
           [lit "+7123"; lit "+7456"] [lit "+7999"]).
  - reflexivity.
  - reflexivity.
  - repeat constructor.
  - repeat constructor.
  - repeat constructor.
Defined.

(** X15.  The phonebook directory is made when it is missing, and only
    then.  Take a store of lines that UTF-8 encodes under a plain file
    name (one path component that names a file: not empty, without slash
    or NUL, neither [.] nor [..], made of characters UTF-8 encodes and of
    at most 255 bytes encoded) on a phonebook that is ready for it (the
    phonebook directory is there or can be made, the system takes the
    path name of the record, and no directory is in the place of the
    record).  It first asks [stat] for the phonebook path; it calls
    [mkdir] exactly when that fails; it then opens the record for
    writing, and makes no other file-system call.  It returns the OK
    response, and afterwards the phonebook path is a directory. *)
Theorem store_makes_directory (w : world) :
  plain_name (name (self w)) = true ->
  store_ready (disk w) (path_to_phonebook (self w)) (name (self w)) = true ->
  Forall (fun l => forallb scalar l = true) (phones (self w)) ->
  let root := path_to_phonebook (self w) in
  let w1 := snd (_write_phones w) in
  fst (_write_phones w) = inr (response_line OK ++ CRLFCRLF)
  /\ Os.stat (disk w1) root = inr Os.Dir
  /\ calls w1
     = calls w
       ++ Stat root
          :: match Os.stat (disk w) root with
             | inr _ => []
             | inl _ => [Mkdir root]
             end
       ++ [OpenW (record_path (self w))].
Proof.
  intros Hplain Hready Hsc. cbv zeta.
  destruct (encode_scalar (join CRLF (phones (self w)))) as [content Henc];
    [by apply scalar_join|].
  pose proof (plain_name_inv _ Hplain) as (Hne & Hsl & Hnul & Hdot & Hdd).
  apply store_ready_inv in Hready
    as (q & b & bn & Hroot & Hb & Hbn & Hq & Hnd0).
  set (n := name (self w)) in *. set (q' := q ++ [bn]) in *.
  assert (Hfinal : forall fs1 c,
    Os.locate fs1 (path_to_phonebook (self w)) = inr q ->
    Os.entry fs1 q = Some Os.Dir ->
    Os.entry fs1 q' <> Some Os.Dir ->
    Os.stat (<[q' := Os.File c]> (<[q' := Os.File []]> fs1))
      (path_to_phonebook (self w)) = inr Os.Dir).
  { intros fs1 c Hloc Hq1 Hnd. unfold Os.stat.
    rewrite (locate_keeps fs1 _ _ q); [| |done].
    2:{ apply (keeps_dirs_trans _ (<[q' := Os.File []]> fs1)).
        - by apply keeps_dirs_insert.
        - apply keeps_dirs_insert. by rewrite entry_insert_eq by apply snoc_nonnil. }
    rewrite !entry_insert_ne by (symmetry; apply snoc_ne). by rewrite Hq1. }
  assert (Hns : endswith (record_path (self w)) Os.slash = false)
    by (unfold record_path; by apply record_path_no_slash).
  assert (Hpn : Os.pathname (record_path (self w)) = inr b) by done.
  unfold _write_phones, bind, get, _is_path_exists, os_call, modify, encode, ret.
  cbn [self disk log_call set_disk fst snd].
  destruct Hq as [Hq|Hq].
  - assert (Hst : Os.stat (disk w) (path_to_phonebook (self w)) = inr Os.Dir)
      by (unfold Os.stat; by rewrite Hroot, Hq).
    assert (Hloc : Os.locate (disk w) (record_path (self w)) = inr q')
      by (by apply (locate_plain_record _ _ _ b)).
    rewrite Hst. cbn [self disk log_call set_disk].
    unfold Os.open_w. rewrite Hpn, Hns, Hloc.
    destruct (Os.entry (disk w) q') as [[|]|] eqn:Hq'; [done| |];
      cbn [fst snd self disk log_call set_disk calls]; rewrite Henc;
      cbn [fst snd self disk log_call set_disk calls app];
      (split; [done|]); (split; [|by rewrite <- app_assoc]);
      apply Hfinal; try done; by rewrite Hq'.
  - assert (Hst : Os.stat (disk w) (path_to_phonebook (self w))
                  = inl Os.FileNotFoundError)
      by (unfold Os.stat; by rewrite Hroot, Hq).
    rewrite Hst. cbn [self disk log_call set_disk].
    rewrite (mkdir_nothing _ _ q) by done.
    cbn [self disk log_call set_disk].
    assert (Hq_ne : q <> []) by (intros ->; done).
    assert (Hroot' : Os.locate (<[q := Os.Dir]> (disk w))
                       (path_to_phonebook (self w)) = inr q).
    { apply (locate_keeps (disk w)); [|done].
      apply keeps_dirs_insert. by rewrite Hq. }
    assert (Hq1 : Os.entry (<[q := Os.Dir]> (disk w)) q = Some Os.Dir)
      by (by apply entry_insert_eq).
    assert (Hloc : Os.locate (<[q := Os.Dir]> (disk w)) (record_path (self w))
                   = inr q')
      by (by apply (locate_plain_record _ _ _ b)).
    assert (Hnd : Os.entry (<[q := Os.Dir]> (disk w)) q' <> Some Os.Dir)
      by (by rewrite entry_insert_ne by apply snoc_ne).
    unfold Os.open_w. rewrite Hpn, Hns, Hloc.
    destruct (Os.entry (<[q := Os.Dir]> (disk w)) q') as [[|]|] eqn:Hq'; [done| |];
      cbn [fst snd self disk log_call set_disk calls]; rewrite Henc;
      cbn [fst snd self disk log_call set_disk calls app];
      (split; [done|]); (split; [|by rewrite <- !app_assoc]);
      apply Hfinal; try done; by rewrite Hq'.
Qed.

(** The first record on a disk without the phonebook directory. *)
Lemma store_makes_directory_witness :
  let w := set_phones [lit "+7123"] (set_name (lit "Ivan") (world_on fresh_disk)) in
  let root := path_to_phonebook (self w) in
  let w1 := snd (_write_phones w) in
  fst (_write_phones w) = inr (response_line OK ++ CRLFCRLF)
  /\ Os.stat (disk w1) root = inr Os.Dir
  /\ calls w1
     = calls w
       ++ Stat root
          :: match Os.stat (disk w) root with
             | inr _ => []
             | inl _ => [Mkdir root]
             end
       ++ [OpenW (record_path (self w))].
Proof.
  apply (store_makes_directory
           (set_phones [lit "+7123"] (set_name (lit "Ivan") (world_on fresh_disk)))).
  - reflexivity.
  - reflexivity.
  - repeat constructor.
Defined.

(** X16.  The operations keep to their record.  Where the phonebook
    directory is there, no store, retrieve or delete under one plain file
    name, whether it succeeds or raises, changes what is read under
    another plain file name of the phonebook. *)
Theorem other_records_untouched (v : RequestVerbs) (w : world)
    (n' : list N) :
  Os.stat (disk w) (path_to_phonebook (self w)) = inr Os.Dir ->
  plain_name (name (self w)) = true ->
  plain_name n' = true ->
  n' <> name (self w) ->
  Os.open_r (disk (snd (crud_dict v w)))
    (path_to_phonebook (self w) ++ Os.slash ++ n')
  = Os.open_r (disk w) (path_to_phonebook (self w) ++ Os.slash ++ n').
Proof.
  intros Hstat Hn Hn' Hne.
  pose proof Hstat as (q & Hroot & Hq)%stat_dir_inv.
  pose proof (plain_name_bytes _ Hn) as (bn & _ & Hbn & _).
  pose proof (plain_name_bytes _ Hn') as (bn' & _ & Hbn' & _).
  pose proof Hn as (Hne0 & Hsl & _)%plain_name_inv.
  destruct (Os.pathname (record_path (self w))) as [e|b] eqn:Hb.
  { (* the system refuses the path name of the record *)
    assert (Hst : Os.stat (disk w) (record_path (self w)) = inl e)
      by (unfold Os.stat, Os.locate, Os.components; by rewrite Hb).
    destruct v; cbn [crud_dict].
    - by rewrite (read_phones_absent w e).
    - by rewrite (delete_file_absent w e).
    - unfold _write_phones, bind, get, _is_path_exists, os_call, modify,
        encode, ret, raise.
      cbn [self disk log_call set_disk]. rewrite Hstat.
      cbn [self disk log_call set_disk]. unfold Os.open_w. by rewrite Hb. }
  pose proof (locate_plain_record (disk w) _ (name (self w)) b bn q
                Hn Hbn Hroot Hq Hb) as Hloc.
  fold (record_path (self w)) in Hloc.
  destruct v; cbn [crud_dict].
  - (* _read_phones *)
    unfold _read_phones, bind, get, _is_path_exists, os_call, decode, ret, raise.
    cbn [self disk log_call].
    destruct (Os.stat _ (record_path _)); cbn [negb]; [done|].
    destruct (Os.open_r _ (record_path _)) as [e|content]; [done|].
    by destruct (utf8_decode content).
  - (* _delete_file *)
    unfold _delete_file, bind, get, _is_path_exists, os_call, modify, ret.
    cbn [self disk log_call].
    destruct (Os.stat _ (record_path _)); cbn [negb]; [done|].
    cbn [self disk log_call]. unfold Os.remove. rewrite Hloc.
    destruct (Os.entry (disk w) (q ++ [bn])) as [[|c]|] eqn:He;
      try done.
    cbn [snd self disk log_call set_disk].
    apply (open_r_beside_delete (disk w) _ (name (self w)) n' bn bn' q);
      try done.
    by rewrite He.
  - (* _write_phones *)
    unfold _write_phones, bind, get, _is_path_exists, os_call, modify, encode,
      ret, raise.
    cbn [self disk log_call set_disk]. rewrite Hstat.
    cbn [self disk log_call set_disk].
    unfold Os.open_w. rewrite Hb. unfold record_path at 1.
    rewrite record_path_no_slash by done. fold (record_path (self w)).
    rewrite Hloc.
    destruct (Os.entry (disk w) (q ++ [bn])) as [[|c]|] eqn:He;
      [done| |];
      cbn [fst snd self disk log_call set_disk];
      (destruct (utf8_encode _) as [c'|]; cbn [snd disk set_disk]);
      rewrite ?insert_insert_eq;
      apply (open_r_beside_insert (disk w) _ (name (self w)) n' bn bn' q);
      try done; by rewrite He.
Qed.

(** Deleting a record [Petr] that is not there, beside the record
    [Ivan]. *)
Lemma other_records_untouched_witness :
  Os.open_r
    (disk (snd (crud_dict DELETE (set_name (lit "Petr") (world_on ivan_disk)))))
    (phonebook ++ Os.slash ++ lit "Ivan")
  = Os.open_r ivan_disk (phonebook ++ Os.slash ++ lit "Ivan").
Proof.
  apply (other_records_untouched DELETE
           (set_name (lit "Petr") (world_on ivan_disk)) (lit "Ivan")).
  - reflexivity.
  - reflexivity.
  - reflexivity.
  - vm_compute. discriminate.
Defined.

(** X17.  Retrieving only reads.  Whatever the name and the disk, and
    whether it answers or raises, [_read_phones] leaves the disk, the
    server object and both writers as they are.  It makes one [stat] call
    on the path of the record; exactly when that call finds something
    there, it makes one [open] for reading on the same path after it;
    and it makes no other call. *)
Theorem retrieve_reads_only (w : world) :
  let w' := snd (_read_phones w) in
  let p := record_path (self w) in
  disk w' = disk w /\ self w' = self w /\ client_out w' = client_out w
  /\ upstream_out w' = upstream_out w
  /\ calls w'
     = calls w
       ++ Stat p :: match Os.stat (disk w) p with
                    | inr _ => [OpenR p]
                    | inl _ => []
                    end.
Proof.
  unfold _read_phones, bind, get, _is_path_exists, os_call, decode, ret, raise.
  cbn [self disk log_call].
  destruct (Os.stat _ _); cbn [negb snd disk self client_out upstream_out calls].
  { done. }
  assert (Hc : forall l : list fs_call,
    (l ++ [Stat (record_path (self w))]) ++ [OpenR (record_path (self w))]
    = l ++ [Stat (record_path (self w)); OpenR (record_path (self w))])
    by (intros l; by rewrite <- app_assoc).
  destruct (Os.open_r _ _) as [e|content]; cbn.
  { repeat split. apply Hc. }
  destruct (utf8_decode content); cbn; repeat split; apply Hc.
Qed.

(** X18.  A NUL in the name.  The grammar lets a NUL character through as
    part of a name.  [_is_path_exists] catches the [ValueError] that
    [os.stat] raises for such a path, so a retrieve and a delete answer
    that the record was not found and leave the disk as it is; [open]
    for writing raises the same [ValueError], which nothing catches, so
    a store on an existing phonebook raises and stores nothing. *)
Theorem nul_in_name (w : world) :
  contains (name (self w)) 0 = true ->
  (fst (_read_phones w) = inr (response_line NOT_FOUND ++ CRLFCRLF)
   /\ disk (snd (_read_phones w)) = disk w)
  /\ (fst (_delete_file w) = inr (response_line NOT_FOUND ++ CRLFCRLF)
      /\ disk (snd (_delete_file w)) = disk w)
  /\ (forall n, Os.stat (disk w) (path_to_phonebook (self w)) = inr n ->
      fst (_write_phones w) = inl (StorageError Os.ValueError)
      /\ disk (snd (_write_phones w)) = disk w).
Proof.
  intros Hnul. apply record_path_nul in Hnul.
  pose proof (stat_nul (disk w) _ Hnul) as Hstat.
  split; [|split].
  - by rewrite (read_phones_absent w Os.ValueError).
  - by rewrite (delete_file_absent w Os.ValueError).
  - intros n Hroot.
    unfold _write_phones, bind, get, _is_path_exists, os_call, modify, encode,
      ret, raise.
    cbn [self disk log_call set_disk]. rewrite Hroot.
    cbn [self disk log_call set_disk]. by rewrite open_w_nul.
Qed.

(** The name [a], NUL, [b] on an empty phonebook. *)
Lemma nul_in_name_witness :
  let w := set_name [97; 0; 98] (set_phones [lit "+7123"] (world_on empty_book)) in
  (fst (_read_phones w) = inr (response_line NOT_FOUND ++ CRLFCRLF)
   /\ disk (snd (_read_phones w)) = disk w)
  /\ (fst (_delete_file w) = inr (response_line NOT_FOUND ++ CRLFCRLF)
      /\ disk (snd (_delete_file w)) = disk w)
  /\ (forall n, Os.stat (disk w) (path_to_phonebook (self w)) = inr n ->
      fst (_write_phones w) = inl (StorageError Os.ValueError)
      /\ disk (snd (_write_phones w)) = disk w).
Proof.
  apply (nul_in_name
           (set_name [97; 0; 98] (set_phones [lit "+7123"] (world_on empty_book)))).
  reflexivity.
Defined.


(** X20.  Two connections served at once can cross.  One server object
    serves every connection, and the handler of a connection reads its
    fields again after its awaits.  With the record [Ivan] on the disk,
    let one client ask to store [Petr] and another to delete [Ivan], the
    validation server allowing both.  When the loop runs the first
    handler until it waits for the connection to the validation server,
    then the second until it waits for its own, then the first to its
    end and the second to its end, the store is not made: the first
    handler runs the delete the second client asked for, removes the
    record [Ivan] and sends the OK response; the second finds nothing to
    delete and sends the not-found response; no record [Petr] is
    written.  When the loop runs the first handler to its end before it
    starts the second, both requests are carried out. *)
Example crossed_requests :
  let store := octets "ЗОПИШИ Petr РКСОК/1.0" ++ CRLF ++ octets "+7999"
               ++ CRLFCRLF in
  let delete := octets "УДОЛИ Ivan РКСОК/1.0" ++ CRLFCRLF in
  let cs := [Async.accept (sends store) (answers allowed_reply);
             Async.accept (sends delete) (answers allowed_reply)] in
  let ivan := phonebook ++ Os.slash ++ lit "Ivan" in
  let petr := phonebook ++ Os.slash ++ lit "Petr" in
  let crossed :=
    Async.run [0; 0; 1; 1; 0; 0; 0; 0; 0; 1; 1; 1; 1]%nat cs
      (world_on ivan_disk) in
  let in_turn :=
    Async.run [0; 0; 0; 0; 0; 0; 0; 0; 0; 1; 1; 1; 1; 1; 1; 1]%nat cs
      (world_on ivan_disk) in
  (fst crossed
   = [Async.Connection Async.Finished [Written ok_response; Closed]
        [Written (query_header ++ store); Closed];
      Async.Connection Async.Finished [Written not_found_response; Closed]
        [Written (query_header ++ delete); Closed]]
   /\ calls (snd crossed) = [Stat ivan; Remove ivan; Stat ivan]
   /\ disk (snd crossed) = empty_book)
  /\ (fst in_turn
      = [Async.Connection Async.Finished [Written ok_response; Closed]
           [Written (query_header ++ store); Closed];
         Async.Connection Async.Finished [Written ok_response; Closed]
           [Written (query_header ++ delete); Closed]]
      /\ calls (snd in_turn)
         = [Stat phonebook; OpenW petr; Stat ivan; Remove ivan]
      /\ Os.open_r (disk (snd in_turn)) petr = inr (octets "+7999")
      /\ Os.open_r (disk (snd in_turn)) ivan = inl Os.FileNotFoundError).
Proof. evaluate. Qed.



(** X22.  A record written with the phones of another request.
    [_write_phones] reads [self.phones] when it writes, after it has
    awaited the opening of the file.  On an empty phonebook, let one
    client ask to store [Ivan] with the phone [+7111] and another to
    store [Petr] with the phone [+7222], the validation server allowing
    both.  When the loop runs the first handler until it waits for the
    file of [Ivan] to be opened, then the second until it waits for the
    connection to the validation server, then the first to its end and
    the second to its end, both clients get the OK response, and both
    records hold [+7222]: the phone sent for [Ivan] is stored nowhere. *)
Example crossed_phones :
  let first := octets "ЗОПИШИ Ivan РКСОК/1.0" ++ CRLF ++ octets "+7111"
               ++ CRLFCRLF in
  let second := octets "ЗОПИШИ Petr РКСОК/1.0" ++ CRLF ++ octets "+7222"
                ++ CRLFCRLF in
  let cs := [Async.accept (sends first) (answers allowed_reply);
             Async.accept (sends second) (answers allowed_reply)] in
  let ivan := phonebook ++ Os.slash ++ lit "Ivan" in
  let petr := phonebook ++ Os.slash ++ lit "Petr" in
  let r :=
    Async.run [0; 0; 0; 0; 0; 1; 1; 0; 0; 0; 0; 1; 1; 1; 1; 1; 1; 1]%nat cs
      (world_on empty_book) in
  fst r
  = [Async.Connection Async.Finished [Written ok_response; Closed]
       [Written (query_header ++ first); Closed];
     Async.Connection Async.Finished [Written ok_response; Closed]
       [Written (query_header ++ second); Closed]]
  /\ calls (snd r) = [Stat phonebook; OpenW ivan; Stat phonebook; OpenW petr]
  /\ Os.open_r (disk (snd r)) ivan = inr (octets "+7222")
  /\ Os.open_r (disk (snd r)) petr = inr (octets "+7222").
Proof. evaluate. Qed.
